(** * PixelPick query selection ([query.py]): a shallow embedding

    The development follows the three classes of [query.py]:
    [UncertaintySampler] (per-pixel scores), [QuerySelector] (masking and
    budgeted top-k selection, the per-round loop) and [QueryStats] (the
    round's statistics).

    Conventions of the embedding.
    - Python exceptions are values of [exn]; a computation that may raise
      returns a [result].  Methods that mutate an object or draw random
      numbers live in the monad [M S], which threads a state [S] and keeps
      the state reached when an exception is raised.
    - A finite [float] is a rational number, so score tensors hold [Q];
      arithmetic on them is exact (rounding, infinities and NaN inside score
      tensors are not modelled).  The statistics of [QueryStats] need square
      roots and NaN: they are [npfloat], a real number or [NaN].
    - An array is its shape and its row-major buffer ([ndarray]), which is
      how numpy and torch store it; [flatten] and [reshape] only touch the
      shape.
    - Library calls whose result the source does not determine
      ([tensor.topk] on ties, [np.random.choice], [torch.rand],
      [torch.log], [F.softmax]) are fields of the records [Torch] and
      [Random], together with the part of their contract the code relies on.
      [stable_torch] and [counter_random] are executable instances.
    - The network, the data loader and [dataset.label_queries] are not part
      of [query.py]: the network is a parameter ([Network]), the loader is
      the list of its batches, and a call of [label_queries] is recorded in
      the state.  Progress bars, [print] and moves between devices are left
      out.  The numpy names [np.bool] and [np.NaN] are taken to exist, as
      they do in the numpy releases the code was written for. *)

From Stdlib Require Import Ascii String ZArith QArith Qabs Qround Lqa Reals Lra Lia.
From stdpp Require Import base gmap strings list sorting.


(** ** Python exceptions and results *)

Inductive exn : Type :=
| AttributeError (attr : string)
| KeyError (key : Z)
| AssertionError (msg : string)
| UnboundLocalError (var : string)
| IndexError
| ValueError
| RuntimeError
| TypeError
| ZeroDivisionError
| RecursionError.

Inductive result (A : Type) : Type :=
| Ok (a : A)
| Raise (e : exn).
Arguments Ok {A} a.
Arguments Raise {A} e.

Definition rbind {A B} (r : result A) (k : A -> result B) : result B :=
  match r with
  | Ok a => k a
  | Raise e => Raise e
  end.

Definition is_ok {A} (r : result A) : bool :=
  match r with Ok _ => true | Raise _ => false end.

(** [try: body except ValueError: handler]. *)
Definition except_ValueError {A} (body : result A) (handler : result A) : result A :=
  match body with
  | Raise ValueError => handler
  | r => r
  end.

(** State and exceptions: the state survives a raise, as the fields of a
    Python object do. *)
Definition M (S A : Type) : Type := S -> result A * S.

Definition ret {S A} (a : A) : M S A := fun s => (Ok a, s).
Definition raise {S A} (e : exn) : M S A := fun s => (Raise e, s).
Definition lift {S A} (r : result A) : M S A := fun s => (r, s).
Definition bind {S A B} (m : M S A) (k : A -> M S B) : M S B :=
  fun s => match m s with
           | (Ok a, s') => k a s'
           | (Raise e, s') => (Raise e, s')
           end.
Definition get {S} : M S S := fun s => (Ok s, s).
Definition put {S} (s : S) : M S unit := fun _ => (Ok tt, s).
Definition modify {S} (f : S -> S) : M S unit := fun s => (Ok tt, f s).

(** Run a computation on a component of the state. *)
Definition zoom {S T A} (proj : S -> T) (inj : T -> S -> S) (m : M T A) : M S A :=
  fun s => let '(r, t) := m (proj s) in (r, inj t s).

Declare Scope py_scope.
Delimit Scope py_scope with py.
Notation "'do' x <- m ; k" := (bind m (fun x => k))
  (at level 10, x name, m at level 100, k at level 200) : py_scope.
Notation "'do' ' p <- m ; k" := (bind m (fun p => k))
  (at level 10, p pattern, m at level 100, k at level 200) : py_scope.
Notation "'run' m ; k" := (bind m (fun _ => k))
  (at level 10, m at level 100, k at level 200) : py_scope.
Notation "'doR' x <- r ; k" := (rbind r (fun x => k))
  (at level 10, x name, r at level 100, k at level 200) : py_scope.
Open Scope py_scope.

(** [assert cond, msg]. *)
Definition py_assert {S} (cond : bool) (msg : string) : M S unit :=
  if cond then ret tt else raise (AssertionError msg).

(** [for x in xs: body x]. *)
Fixpoint for_each {S A} (xs : list A) (body : A -> M S unit) : M S unit :=
  match xs with
  | [] => ret tt
  | x :: xs' => run body x; for_each xs' body
  end.

(** ** Arrays *)

Record ndarray (A : Type) : Type := NdArray {
  shape : nat * nat;        (* (h, w) *)
  flat : list A             (* row-major buffer *)
}.
Arguments NdArray {A} shape flat.
Arguments shape {A} _.
Arguments flat {A} _.

Definition well_shaped {A} (a : ndarray A) : Prop :=
  length (flat a) = (shape a).1 * (shape a).2.

Definition nd_map {A B} (f : A -> B) (a : ndarray A) : ndarray B :=
  NdArray (shape a) (f <$> flat a).

Definition shape_eqb (s1 s2 : nat * nat) : bool :=
  (s1.1 =? s2.1) && (s1.2 =? s2.2).

(** [a.sum()] of a boolean array. *)
Definition count_true (l : list bool) : nat := length (filter (fun b => b = true) l).

(** Write [True] at the positions [inds]. *)
Definition scatter (a : list bool) (inds : list nat) : list bool :=
  foldl (λ acc i, <[i := true]> acc) a inds.

(** [a[inds] = True] on a one-dimensional boolean array; an index past the
    end raises. *)
Definition put_true (a : list bool) (inds : list nat) : result (list bool) :=
  if forallb (fun i => i <? length a) inds
  then Ok (scatter a inds)
  else Raise IndexError.

(** [a[mask] = v]: the mask must have the shape of [a]. *)
Definition masked_fill {A} (a : list A) (mask : list bool) (v : A) : result (list A) :=
  if length a =? length mask
  then Ok (zip_with (fun x (m : bool) => if m then v else x) a mask)
  else Raise IndexError.

Definition nd_masked_fill {A} (a : ndarray A) (mask : ndarray bool) (v : A)
  : result (ndarray A) :=
  if shape_eqb (shape a) (shape mask)
  then doR l <- masked_fill (flat a) (flat mask) v; Ok (NdArray (shape a) l)
  else Raise IndexError.

(** [a[mask]]: the selected entries in row-major order. *)
Definition select_by_mask {A} (a : list A) (mask : list bool) : result (list A) :=
  if length a =? length mask
  then Ok (fst <$> filter (fun p => p.2 = true) (zip a mask))
  else Raise IndexError.

(** ** The torch and numpy primitives *)

(** [a] ranks at least as high as [b]: for [largest=True] the larger value
    ranks higher, otherwise the smaller one. *)
Definition ranks_above (largest : bool) (a b : Q) : Prop :=
  if largest then (b <= a)%Q else (a <= b)%Q.

(** The contract of [t.topk(k, dim=0, largest).indices] on a one-dimensional
    tensor [t]: [k] distinct positions, none of which is outranked by a
    position left out.  Which of several equal entries is returned is left
    open, as it is by torch. *)
Record is_topk (xs : list Q) (k : nat) (largest : bool) (inds : list nat) : Prop := {
  topk_length : length inds = k;
  topk_nodup : NoDup inds;
  topk_bound : ∀ i, i ∈ inds → i < length xs;
  topk_dominates : ∀ i j xi xj,
    i ∈ inds → j ∉ inds → xs !! i = Some xi → xs !! j = Some xj →
    ranks_above largest xi xj
}.

Record Torch : Type := {
  torch_log : Q → Q;
  torch_softmax : list Q → list Q;
  torch_topk : list Q → nat → bool → result (list nat);
  topk_out_of_range : ∀ xs k largest,
    length xs < k → torch_topk xs k largest = Raise RuntimeError;
  topk_in_range : ∀ xs k largest,
    k ≤ length xs → ∃ inds, torch_topk xs k largest = Ok inds ∧ is_topk xs k largest inds
}.

(** [np.random.choice(a, size, False)], [torch.rand] and the generator they
    advance.  A sample without replacement takes [size] entries of [a] at
    distinct positions; more than [len(a)] of them is a [ValueError]. *)
Record Random : Type := {
  rng : Type;
  np_random_choice : list nat → nat → M rng (list nat);
  torch_rand : nat → M rng (list Q);
  choice_too_large : ∀ a size g,
    length a < size → (np_random_choice a size g).1 = Raise ValueError;
  choice_sample : ∀ a size g,
    size ≤ length a →
    ∃ l rest, (np_random_choice a size g).1 = Ok l ∧ length l = size ∧ l ++ rest ≡ₚ a;
  rand_unit_interval : ∀ n g,
    ∃ l, (torch_rand n g).1 = Ok l ∧ length l = n ∧ Forall (λ q, 0 <= q ∧ q < 1)%Q l
}.

(** *** An executable top-k: sort the positions by value *)

Definition ranks_aboveb (largest : bool) (a b : Q) : bool :=
  if largest then Qle_bool b a else Qle_bool a b.

Definition entry_above (largest : bool) (p q : nat * Q) : Prop :=
  ranks_aboveb largest p.2 q.2 = true.

#[local] Instance entry_above_dec largest : RelDecision (entry_above largest).
Proof. intros p q. unfold entry_above. apply _. Defined.

Definition stable_topk (xs : list Q) (k : nat) (largest : bool) : result (list nat) :=
  if k <=? length xs
  then Ok ((take k (merge_sort (entry_above largest) (zip (seq 0 (length xs)) xs))).*1)
  else Raise RuntimeError.

(** *** An executable generator: a counter *)

Definition counter_choice (a : list nat) (size : nat) : M nat (list nat) :=
  fun g => (if size <=? length a then Ok (take size (rotate g a)) else Raise ValueError, S g).

Definition counter_rand (n : nat) : M nat (list Q) :=
  fun g => (Ok ((fun i => Z.of_nat ((i + g) mod S n) # Pos.of_nat (S n)) <$> seq 0 n), S g).

(** ** Tensors of scores and of class probabilities *)

(** The probability tensor of one image, [1 x C x h x w] in the source: the
    [h x w] array of the pixels' class distributions. *)
Definition prob_tensor : Type := ndarray (list Q).

Definition Qsum (l : list Q) : Q := foldr Qplus 0%Q l.

Definition Qltb (a b : Q) : bool := negb (Qle_bool b a).

Fixpoint Qmax_list (l : list Q) : result Q :=
  match l with
  | [] => Raise IndexError
  | [a] => Ok a
  | a :: l' => doR m <- Qmax_list l'; Ok (if Qle_bool m a then a else m)
  end.

(** Apply a function that may raise to every entry, in row-major order. *)
Fixpoint traverse {A B} (f : A → result B) (l : list A) : result (list B) :=
  match l with
  | [] => Ok []
  | a :: l' => doR b <- f a; doR bs <- traverse f l'; Ok (b :: bs)
  end.

Definition nd_traverse {A B} (f : A → result B) (a : ndarray A) : result (ndarray B) :=
  doR l <- traverse f (flat a); Ok (NdArray (shape a) l).

(** What a call through [getattr] can return: a score tensor, [None], or an
    object of some other kind. *)
Inductive value : Type :=
| Tensor (t : ndarray Q)
| NoneValue
| Object.

(** [v.squeeze(dim=0)]: only a tensor has the method. *)
Definition squeeze (v : value) : result (ndarray Q) :=
  match v with
  | Tensor t => Ok t
  | _ => Raise (AttributeError "squeeze")
  end.

(** The attributes Python itself gives every instance (those of [object]
    and the implicit ones of a class, such as [__class__] or [__eq__]): which
    names exist depends on the interpreter, and all of them are written with
    two leading underscores.  [call_builtin name prob] is the outcome of
    calling such an attribute on one tensor. *)
Record Builtins : Type := {
  builtin : string → bool;
  call_builtin : string → prob_tensor → result value;
  builtin_dunder : ∀ name, builtin name = true → String.prefix "__" name = true
}.

Module UncertaintySampler.
Section Sampler.
Context (T : Torch) (R : Random) (B : Builtins).

Record t : Type := { query_strategy : string }.

Definition __init__ (query_strategy : string) : result t :=
  Ok {| query_strategy := query_strategy |}.

Definition entropy_px (p : list Q) : Q :=
  Qsum ((λ pc, - pc * torch_log T pc)%Q <$> p).

Definition _entropy (prob : prob_tensor) : result (ndarray Q) :=
  Ok (nd_map entropy_px prob).

Definition _least_confidence (prob : prob_tensor) : result (ndarray Q) :=
  nd_traverse (λ p, doR m <- Qmax_list p; Ok (1 - m)%Q) prob.

(** [top2 = prob.topk(k=2, dim=1).values] and [|top2[0] - top2[1]|]. *)
Definition margin_px (p : list Q) : result Q :=
  doR inds <- torch_topk T p 2 true;
  match inds with
  | [i0; i1] =>
      match p !! i0, p !! i1 with
      | Some v0, Some v1 => Ok (Qabs (v0 - v1))
      | _, _ => Raise IndexError
      end
  | _ => Raise RuntimeError
  end.

Definition _margin_sampling (prob : prob_tensor) : result (ndarray Q) :=
  nd_traverse margin_px prob.

Definition _random (prob : prob_tensor) : M (rng R) (ndarray Q) :=
  let '(h, w) := shape prob in
  do l <- torch_rand R (h * w);
  ret (NdArray (h, w) l).

(** The names [getattr] can resolve on an instance. *)
Inductive attribute : Type :=
| attr_query_strategy
| attr_init
| attr_entropy
| attr_least_confidence
| attr_margin_sampling
| attr_random
| attr_call
| attr_builtin (name : string).

Definition getattr (self : t) (name : string) : result attribute :=
  if String.eqb name "query_strategy" then Ok attr_query_strategy
  else if String.eqb name "__init__" then Ok attr_init
  else if String.eqb name "_entropy" then Ok attr_entropy
  else if String.eqb name "_least_confidence" then Ok attr_least_confidence
  else if String.eqb name "_margin_sampling" then Ok attr_margin_sampling
  else if String.eqb name "_random" then Ok attr_random
  else if String.eqb name "__call__" then Ok attr_call
  else if builtin B name then Ok (attr_builtin name)
  else Raise (AttributeError name).

(** [getattr(self, f"_{self.query_strategy}")(prob)].  Looked up under the
    name ["__init__"] the constructor runs again (it rebinds
    [self.query_strategy] to the tensor, which the model does not track, and
    returns [None]); under ["__call__"] the method calls itself without
    end. *)
Definition __call__ (self : t) (prob : prob_tensor) : M (rng R) value :=
  do f <- lift (getattr self ("_" +:+ query_strategy self));
  match f with
  | attr_query_strategy => raise TypeError
  | attr_init => ret NoneValue
  | attr_entropy => do u <- lift (_entropy prob); ret (Tensor u)
  | attr_least_confidence => do u <- lift (_least_confidence prob); ret (Tensor u)
  | attr_margin_sampling => do u <- lift (_margin_sampling prob); ret (Tensor u)
  | attr_random => do u <- _random prob; ret (Tensor u)
  | attr_call => raise RecursionError
  | attr_builtin name => lift (call_builtin B name prob)
  end.
End Sampler.

Arguments _random {R} prob.
Arguments __call__ T {R} B self prob.

End UncertaintySampler.

(** ** numpy floats with NaN *)

Inductive npfloat : Type :=
| NaN
| Num (r : R).

Definition np_add (a b : npfloat) : npfloat :=
  match a, b with
  | Num x, Num y => Num (x + y)
  | _, _ => NaN
  end.

Definition np_sum (l : list npfloat) : npfloat := foldr np_add (Num 0) l.

(** [np.mean(l)]: the mean of no entries is NaN (numpy warns, it does not
    raise), and a NaN entry makes the mean NaN. *)
Definition np_mean (l : list npfloat) : npfloat :=
  match l with
  | [] => NaN
  | _ =>
      match np_sum l with
      | Num s => Num (s / INR (length l))
      | NaN => NaN
      end
  end.

(** [a.reshape(n, -1)] of a one-dimensional array: the second dimension
    cannot be inferred when [n] is 0 or does not divide the size. *)
Definition reshape_rows {A} (n : nat) (a : list A) : result (ndarray A) :=
  if n =? 0 then Raise ValueError
  else if length a mod n =? 0 then Ok (NdArray (n, length a / n) a)
  else Raise ValueError.

(** The positions of the true entries of a flat boolean array. *)
Definition true_positions (l : list bool) : list nat :=
  (filter (λ p, p.2 = true) (zip (seq 0 (length l)) l)).*1.

(** [np.where(query)] of a two-dimensional array: row and column of every
    true entry, in row-major order. *)
Definition np_where (query : ndarray bool) : list (Z * Z) :=
  let w := (shape query).2 in
  (λ i, (Z.of_nat (i / w), Z.of_nat (i mod w))) <$> true_positions (flat query).

Definition euclid (p q : Z * Z) : R :=
  sqrt (IZR ((p.1 - q.1) ^ 2 + (p.2 - q.2) ^ 2)).

Module QueryStats.

Record t : Type := {
  list_entropy : list npfloat;
  list_n_unique_labels : list nat;
  list_spatial_coverage : list npfloat;
  dict_label_cnt : gmap Z nat
}.

Definition __init__ (n_classes : nat) : t := {|
  list_entropy := [];
  list_n_unique_labels := [];
  list_spatial_coverage := [];
  dict_label_cnt := list_to_map ((λ l, (Z.of_nat l, 0)) <$> seq 0 n_classes)
|}.

Definition set_dict_label_cnt (d : gmap Z nat) (self : t) : t := {|
  list_entropy := list_entropy self;
  list_n_unique_labels := list_n_unique_labels self;
  list_spatial_coverage := list_spatial_coverage self;
  dict_label_cnt := d
|}.

(** [self.dict_label_cnt[l] += 1]: reading a missing key raises. *)
Definition increment (l : Z) : M t unit :=
  do self <- get;
  match dict_label_cnt self !! l with
  | Some c => put (set_dict_label_cnt (<[l := c + 1]> (dict_label_cnt self)) self)
  | None => raise (KeyError l)
  end.

Definition _count_labels (query : ndarray bool) (y : ndarray Z) : M t unit :=
  do labels <- lift (select_by_mask (flat y) (flat query));
  for_each labels increment.

Definition _get_entropy (T : Torch) (query : ndarray bool) (prob : prob_tensor)
  : result (list npfloat) :=
  let ent_map := nd_map (UncertaintySampler.entropy_px T) prob in
  doR pixel_entropy <- select_by_mask (flat ent_map) (flat query);
  Ok ((λ e, Num (Q2R e)) <$> pixel_entropy).

Definition _n_unique_labels (query : ndarray bool) (y : ndarray Z) : result nat :=
  doR labels <- select_by_mask (flat y) (flat query);
  Ok (size (list_to_set labels : gset Z)).

(** [dist[~np.eye(n)]]: the entries off the diagonal, row by row. *)
Definition off_diagonal {A} (dist : list (list A)) : list A :=
  concat (imap (λ i row, delete i row) dist).

Definition _spatial_coverage (query : ndarray bool) : result npfloat :=
  let locs := np_where query in
  let dist := (λ p, euclid p <$> locs) <$> locs in
  except_ValueError
    (doR d <- reshape_rows (length dist) (off_diagonal dist);
     Ok (np_mean (Num <$> flat d)))
    (Ok NaN).

Record dict_stats : Type := {
  label_distribution : gmap Z nat;
  avg_entropy : npfloat;
  avg_n_unique_labels : npfloat;
  avg_spatial_coverage : npfloat
}.

(** The snapshot [save] prints and pickles; writing the file is left to the
    caller's state. *)
Definition save (self : t) : dict_stats := {|
  label_distribution := dict_label_cnt self;
  avg_entropy := np_mean (list_entropy self);
  avg_n_unique_labels := np_mean ((λ n, Num (INR n)) <$> list_n_unique_labels self);
  avg_spatial_coverage := np_mean (list_spatial_coverage self)
|}.

Definition update (T : Torch) (query : ndarray bool) (y : ndarray Z) (prob : prob_tensor)
  : M t unit :=
  run _count_labels query y;
  do entropies <- lift (_get_entropy T query prob);
  run modify (λ self, {|
    list_entropy := list_entropy self ++ entropies;
    list_n_unique_labels := list_n_unique_labels self;
    list_spatial_coverage := list_spatial_coverage self;
    dict_label_cnt := dict_label_cnt self |});
  do n <- lift (_n_unique_labels query y);
  run modify (λ self, {|
    list_entropy := list_entropy self;
    list_n_unique_labels := list_n_unique_labels self ++ [n];
    list_spatial_coverage := list_spatial_coverage self;
    dict_label_cnt := dict_label_cnt self |});
  do c <- lift (_spatial_coverage query);
  modify (λ self, {|
    list_entropy := list_entropy self;
    list_n_unique_labels := list_n_unique_labels self;
    list_spatial_coverage := list_spatial_coverage self ++ [c];
    dict_label_cnt := dict_label_cnt self |}).

(** The sum of the histogram over all classes. *)
Definition label_total (self : t) : nat :=
  map_fold (λ _ c acc, c + acc) 0 (dict_label_cnt self).

End QueryStats.

(** ** The collaborators of a round *)

(** The segmentation network: the input tensors it takes, their spatial
    shape [x.shape[2:]], reflective padding [F.pad], and the logits
    [model(x)["pred"]] (with dropout switched on or off; dropout draws from
    the generator). *)
Record Network (G : Type) : Type := {
  input : Type;
  x_shape : input → nat * nat;
  F_pad : input → nat → nat → result input;
  model_pred : bool → input → M G prob_tensor
}.
Arguments input {G} _.
Arguments x_shape {G} _ _.
Arguments F_pad {G} _ _ _ _.
Arguments model_pred {G} _ _ _.

(** [a[:, :, :h, :w]] *)
Definition crop {A} (h w : nat) (a : ndarray A) : ndarray A :=
  let '(H, W) := shape a in
  let h' := h `min` H in
  let w' := w `min` W in
  NdArray (h', w') (concat ((λ r, take w' (drop (r * W) (flat a))) <$> seq 0 h')).

(** [a += b] on tensors of one shape. *)
Definition tensor_add {A} (add : A → A → result A) (a b : ndarray A) : result (ndarray A) :=
  if shape_eqb (shape a) (shape b) && (length (flat a) =? length (flat b))
  then doR l <- traverse (λ p, add p.1 p.2) (zip (flat a) (flat b)); Ok (NdArray (shape a) l)
  else Raise RuntimeError.

Definition vector_add (p q : list Q) : result (list Q) :=
  if length p =? length q then Ok (zip_with Qplus p q) else Raise RuntimeError.

(** [np.stack(arrays, axis=0)]: all arrays must have one shape. *)
Definition np_stack {A} (arrays : list (ndarray A)) : result (list (ndarray A)) :=
  match arrays with
  | [] => Raise ValueError
  | a :: rest =>
      if forallb (λ b, shape_eqb (shape a) (shape b)) rest then Ok arrays
      else Raise ValueError
  end.

(** [ceil(a / b)] for [b > 0]. *)
Definition ceil_div (a b : nat) : nat := (a + b - 1) / b.

(** [int(q)]: truncation towards zero. *)
Definition py_int (q : Q) : Z := Z.quot (Qnum q) (Z.pos (Qden q)).

(** The options of [args] that [query.py] reads ([debug], [device], the
    checkpoint directory, [network_name] and [vote_type] are stored and never
    used by the selection). *)
Module Args.
Record t : Type := {
  dataset_name : string;
  ignore_index : Z;
  mc_n_steps : nat;
  n_classes : nat;
  n_pixels_by_us : nat;
  query_strategy : string;
  reverse_order : bool;
  stride_total : nat;
  top_n_percent : Q;
  use_mc_dropout : bool
}.
End Args.

Module QuerySelector.
Section Selector.
Context (T : Torch) (R : Random) (B : Builtins) (model : Network (rng R)).

Record dict_data : Type := {
  x : input model;
  y : ndarray Z                      (* h x w ground-truth class ids *)
}.

(** [self.dataloader]: its batches (of one image each) and
    [dataloader.dataset.queries], the pixels labelled so far. *)
Record dataloader_t : Type := {
  batches : list dict_data;
  queries : list (ndarray bool)
}.

Record t : Type := {
  dataset_name : string;
  dataloader : dataloader_t;
  ignore_index : Z;
  mc_n_steps : nat;
  n_classes : nat;
  n_pixels_by_us : nat;
  query_strategy : string;
  reverse_order : bool;
  stride_total : nat;
  top_n_percent : Q;
  uncertainty_sampler : UncertaintySampler.t;
  use_mc_dropout : bool
}.

(** [QuerySelector(args, dataloader)].  The statistics object the
    constructor creates, [QueryStats(args)], is the [query_stats] of the
    state a round starts from. *)
Definition __init__ (args : Args.t) (dataloader : dataloader_t) : result t :=
  doR sampler <- UncertaintySampler.__init__ (Args.query_strategy args);
  Ok {| dataset_name := Args.dataset_name args;
        dataloader := dataloader;
        ignore_index := Args.ignore_index args;
        mc_n_steps := Args.mc_n_steps args;
        n_classes := Args.n_classes args;
        n_pixels_by_us := Args.n_pixels_by_us args;
        query_strategy := Args.query_strategy args;
        reverse_order := Args.reverse_order args;
        stride_total := Args.stride_total args;
        top_n_percent := Args.top_n_percent args;
        uncertainty_sampler := sampler;
        use_mc_dropout := Args.use_mc_dropout args |}.

(** What a round reads and writes besides [self]: the generator, the
    statistics object [self.query_stats], the snapshots pickled by
    [save], and the calls of [dataset.label_queries]. *)
Record world : Type := {
  generator : rng R;
  query_stats : QueryStats.t;
  pickled : list (Z * QueryStats.dict_stats);
  label_queries : list (list (ndarray bool) * Z)
}.

Definition with_generator {A} (m : M (rng R) A) : M world A :=
  zoom generator
       (λ g s, {| generator := g; query_stats := query_stats s;
                  pickled := pickled s; label_queries := label_queries s |}) m.

Definition with_query_stats {A} (m : M QueryStats.t A) : M world A :=
  zoom query_stats
       (λ q s, {| generator := generator s; query_stats := q;
                  pickled := pickled s; label_queries := label_queries s |}) m.

(** [self.query_strategy in ["entropy", "least_confidence"]] *)
Definition largest (self : t) : bool :=
  bool_decide (query_strategy self ∈ ["entropy"; "least_confidence"]%string).

(** The value written over pixels that must not be chosen. *)
Definition mask_value (self : t) : Q := if largest self then 0%Q else 1%Q.

(** [k] of [_select_queries]. *)
Definition candidate_k (self : t) (h w : nat) : nat :=
  if Qltb 0 (top_n_percent self)
  then Z.to_nat (py_int (inject_Z (Z.of_nat (h * w)) * top_n_percent self))
  else n_pixels_by_us self.

Definition _select_queries (self : t) (uc_map : ndarray Q) : M (rng R) (ndarray bool) :=
  let '(h, w) := shape uc_map in
  let uc_map := flat uc_map in
  let k := candidate_k self h w in
  do ind_queries <-
    (if reverse_order self then
       run py_assert (Qltb 0 (top_n_percent self)) "";
       do ind_queries <- np_random_choice R (seq 0 (h * w)) k;
       do sampling_mask <- lift (put_true (replicate (h * w) false) ind_queries);
       do uc_map <- lift (masked_fill uc_map (negb <$> sampling_mask) (mask_value self));
       lift (torch_topk T uc_map (n_pixels_by_us self) (largest self))
     else
       do ind_queries <- lift (torch_topk T uc_map k (largest self));
       if Qltb 0 (top_n_percent self)
       then np_random_choice R ind_queries (n_pixels_by_us self)
       else ret ind_queries);
  do query <- lift (put_true (replicate (h * w) false) ind_queries);
  ret (NdArray (h, w) query).

(** Lines 106-108: pixels already annotated and pixels of the void
    category get the value that ranks last. *)
Definition exclude (self : t) (uc_map : ndarray Q) (mask mask_void : ndarray bool)
  : result (ndarray Q) :=
  doR uc_map <- nd_masked_fill uc_map mask (mask_value self);
  nd_masked_fill uc_map mask_void (mask_value self).

(** The body of the Monte-Carlo loop, [mc_n_steps] times. *)
Fixpoint mc_steps (self : t) (x : input model) (h w : nat) (steps : nat)
    (uc_map : ndarray Q) (prob : prob_tensor) : M world (ndarray Q * prob_tensor) :=
  match steps with
  | 0 => ret (uc_map, prob)
  | S steps' =>
      do logits <- with_generator (model_pred model true x);
      let prob_ := crop h w (nd_map (torch_softmax T) logits) in
      do v <- with_generator (UncertaintySampler.__call__ T B (uncertainty_sampler self) prob_);
      do uc_map_ <- lift (squeeze v);
      do uc_map <- lift (tensor_add (λ a b, Ok (a + b)%Q) uc_map uc_map_);
      do prob <- lift (tensor_add vector_add prob prob_);
      mc_steps self x h w steps' uc_map prob
  end.

(** Lines 89-104: the uncertainty map and the probabilities of one image.
    With Monte-Carlo dropout, line 98 reads [up_map], a name that is never
    bound, where the accumulator is called [uc_map]. *)
Definition get_uncertainty_map (self : t) (x : input model) (h w : nat)
  : M world (ndarray Q * prob_tensor) :=
  if use_mc_dropout self then
    let uc_map := NdArray (h, w) (replicate (h * w) 0%Q) in
    let prob := NdArray (h, w) (replicate (h * w) (replicate (n_classes self) 0%Q)) in
    do '(uc_map, prob) <- mc_steps self x h w (mc_n_steps self) uc_map prob;
    do up_map <- raise (UnboundLocalError "up_map") (A := ndarray Q);
    let up_map := nd_map (λ u, u / inject_Z (Z.of_nat (mc_n_steps self)))%Q up_map in
    let prob :=
      nd_map (fmap (λ p, p / inject_Z (Z.of_nat (mc_n_steps self)))%Q) prob in
    ret (uc_map, prob)
  else
    do logits <- with_generator (model_pred model false x);
    let prob := nd_map (torch_softmax T) (crop h w logits) in
    do v <- with_generator (UncertaintySampler.__call__ T B (uncertainty_sampler self) prob);
    do uc_map <- lift (squeeze v);
    ret (uc_map, prob).

(** The loop over [enumerate(self.dataloader)], lines 74-115. *)
Fixpoint pool_loop (self : t) (items : list (nat * dict_data))
    (list_queries : list (ndarray bool)) (n_pixels : nat)
  : M world (list (ndarray bool) * nat) :=
  match items with
  | [] => ret (list_queries, n_pixels)
  | (batch_ind, dict_data) :: items' =>
      let x := x dict_data in
      let y := y dict_data in
      do mask <- lift (match queries (dataloader self) !! batch_ind with
                       | Some m => Ok m
                       | None => Raise IndexError
                       end);
      let mask_void := nd_map (Z.eqb (ignore_index self)) y in
      let '(h, w) := x_shape model x in
      do x <- lift (if String.eqb (dataset_name self) "voc" then
                      if stride_total self =? 0 then Raise ZeroDivisionError
                      else
                        let pad_h := ceil_div h (stride_total self) * stride_total self - h in
                        let pad_w := ceil_div w (stride_total self) * stride_total self - w in
                        F_pad model x pad_w pad_h
                    else Ok x);
      do '(uc_map, prob) <- get_uncertainty_map self x h w;
      do uc_map <- lift (exclude self uc_map mask mask_void);
      do query <- with_generator (_select_queries self uc_map);
      let list_queries := list_queries ++ [query] in
      let n_pixels := n_pixels + count_true (flat query) in
      run with_query_stats (QueryStats.update T query y prob);
      pool_loop self items' list_queries n_pixels
  end.

Definition __call__ (self : t) (nth_query : Z) : M world (list (ndarray bool)) :=
  do '(list_queries, n_pixels) <-
    pool_loop self (imap pair (batches (dataloader self))) [] 0;
  do stats <- with_query_stats (do q <- get; ret (QueryStats.save q));
  run modify (λ s, {| generator := generator s; query_stats := query_stats s;
                      pickled := pickled s ++ [(nth_query, stats)];
                      label_queries := label_queries s |});
  run py_assert (0 <? length list_queries) "no queries are chosen!";
  do queries <- lift (if negb (String.eqb (dataset_name self) "voc")
                      then np_stack list_queries else Ok list_queries);
  run modify (λ s, {| generator := generator s; query_stats := query_stats s;
                      pickled := pickled s;
                      label_queries := label_queries s ++ [(queries, (nth_query + 1)%Z)] |});
  ret queries.

End Selector.

Arguments Build_dict_data {R model} _ _.
Arguments x {R model} _.
Arguments y {R model} _.
Arguments Build_dataloader_t {R model} _ _.
Arguments batches {R model} _.
Arguments queries {R model} _.
Arguments Build_t {R model}.
Arguments dataset_name {R model} _.
Arguments dataloader {R model} _.
Arguments ignore_index {R model} _.
Arguments mc_n_steps {R model} _.
Arguments n_classes {R model} _.
Arguments n_pixels_by_us {R model} _.
Arguments query_strategy {R model} _.
Arguments reverse_order {R model} _.
Arguments stride_total {R model} _.
Arguments top_n_percent {R model} _.
Arguments uncertainty_sampler {R model} _.
Arguments use_mc_dropout {R model} _.
Arguments __init__ {R model} args dataloader.
Arguments Build_world {R}.
Arguments generator {R} _.
Arguments query_stats {R} _.
Arguments pickled {R} _.
Arguments label_queries {R} _.
Arguments largest {R model} self.
Arguments mask_value {R model} self.
Arguments candidate_k {R model} self h w.
Arguments _select_queries T {R model} self uc_map.
Arguments exclude {R model} self uc_map mask mask_void.
Arguments mc_steps T {R} B {model} self x h w steps uc_map prob.
Arguments get_uncertainty_map T {R} B {model} self x h w.
Arguments pool_loop T {R} B {model} self items list_queries n_pixels.
Arguments __call__ T {R} B {model} self nth_query.

End QuerySelector.

(** ** Vocabulary of the statements *)

(** [a] ranks strictly higher than [b]. *)
Definition outranksb (largest : bool) (a b : Q) : bool :=
  if largest then Qltb b a else Qltb a b.

(** Position [i] of a score array carries a score that ranks strictly higher
    than the value written over excluded pixels. *)
Definition beats_mask_value {R model} (self : QuerySelector.t R model)
    (uc_map : list Q) (i : nat) : bool :=
  match uc_map !! i with
  | Some u => outranksb (QuerySelector.largest self) u (QuerySelector.mask_value self)
  | None => false
  end.

(** The specification's wording, "nearest-integer rounding": Python's
    [round], which sends a tie to the even neighbour. *)
Definition spec_round (q : Q) : Z :=
  let f := Qfloor q in
  match (q - inject_Z f ?= 1 # 2)%Q with
  | Lt => f
  | Gt => (f + 1)%Z
  | Eq => if Z.even f then f else (f + 1)%Z
  end.

(** A pixel that neither mask marks. *)
Definition eligible (mask mask_void : ndarray bool) (i : nat) : Prop :=
  flat mask !! i = Some false ∧ flat mask_void !! i = Some false.

#[local] Instance eligible_dec mask mask_void i : Decision (eligible mask mask_void i).
Proof. unfold eligible. apply _. Defined.

(** The calls [update(query, y, prob)] of a round, one per image. *)
Definition round_updates (T : Torch)
    (images : list (ndarray bool * ndarray Z * prob_tensor)) : M QueryStats.t unit :=
  for_each images (λ '(query, y, prob), QueryStats.update T query y prob).

(** The arrays of one image fit together, and the pixels the mask selects
    carry a ground-truth class id among [0 .. n_classes - 1]. *)
Definition labels_in_classes (n_classes : nat)
    (image : ndarray bool * ndarray Z * prob_tensor) : Prop :=
  let '(query, y, prob) := image in
  length (flat y) = length (flat query) ∧
  length (flat prob) = length (flat query) ∧
  Forall (λ p : bool * Z, p.1 = true → (0 ≤ p.2 < Z.of_nat n_classes)%Z)
         (zip (flat query) (flat y)).

#[local] Instance labels_in_classes_dec n_classes image :
  Decision (labels_in_classes n_classes image).
Proof. destruct image as [[query y] prob]. unfold labels_in_classes. apply _. Defined.

(** The histogram's keys are exactly the class ids. *)
Definition keys_are_classes (n_classes : nat) (self : QueryStats.t) : Prop :=
  ∀ l, is_Some (QueryStats.dict_label_cnt self !! l) ↔ (0 ≤ l < Z.of_nat n_classes)%Z.

(** The three lists of [self] are those of [self0]. *)
Definition same_lists (self0 self : QueryStats.t) : Prop :=
  QueryStats.list_entropy self = QueryStats.list_entropy self0 ∧
  QueryStats.list_n_unique_labels self = QueryStats.list_n_unique_labels self0 ∧
  QueryStats.list_spatial_coverage self = QueryStats.list_spatial_coverage self0.

(** The strategy names of the configuration surface. *)
Definition recognized_strategies : list string :=
  ["entropy"; "least_confidence"; "margin_sampling"; "random"]%string.

Definition Rsum (l : list R) : R := foldr Rplus 0%R l.

(** The unordered pairs of entries at distinct positions. *)
Fixpoint pairs {A} (l : list A) : list (A * A) :=
  match l with
  | [] => []
  | a :: l' => (pair a <$> l') ++ pairs l'
  end.

(** The specification's wording: the mean of the Euclidean distances over
    the pairs of selected pixel coordinates. *)
Definition mean_pairwise_distance (locs : list (Z * Z)) : R :=
  (Rsum ((λ pq, euclid pq.1 pq.2) <$> pairs locs) / INR (length (pairs locs)))%R.

(** Sum of the distances from every point of [l1] to every point of [l2]. *)
Definition cross (l1 l2 : list (Z * Z)) : R :=
  Rsum ((λ p, Rsum (euclid p <$> l2)) <$> l1).

Definition pair_sum (l : list (Z * Z)) : R :=
  Rsum ((λ pq, euclid pq.1 pq.2) <$> pairs l).

(** Pixel [i] is marked by the eligibility mask or by the void mask. *)
Definition flagged (mask mask_void : ndarray bool) (i : nat) : bool :=
  default false (flat mask !! i) || default false (flat mask_void !! i).

(** The entries of a class distribution lie between 0 and 1. *)
Definition unit_entries (p : list Q) : Prop := Forall (λ x, 0 <= x ∧ x <= 1)%Q p.

(** The number of pixels the mask selects whose ground-truth label is
    [l]. *)
Definition selected_with_label (query : ndarray bool) (y : ndarray Z) (l : Z) : nat :=
  length (filter (λ p : Z * bool, p.2 = true ∧ p.1 = l) (zip (flat y) (flat query))).

(** The number of times [l] occurs in [labels]. *)
Definition occurrences (l : Z) (labels : list Z) : nat :=
  length (filter (λ x, x = l) labels).

(** A computation [m] relates every state it starts from to the state it
    ends in by [P], whether it returns or raises. *)
Definition preserves {S A} (P : S → S → Prop) (m : M S A) : Prop :=
  ∀ s r s', m s = (r, s') → P s s'.

(** The snapshots written by [save] and the calls of [label_queries] are
    those of [s]. *)
Definition keeps_files {R} (s s' : QuerySelector.world R) : Prop :=
  QuerySelector.pickled s' = QuerySelector.pickled s ∧
  QuerySelector.label_queries s' = QuerySelector.label_queries s.

(** Only the generator may differ. *)
Definition keeps_statistics {R} (s s' : QuerySelector.world R) : Prop :=
  QuerySelector.query_stats s' = QuerySelector.query_stats s ∧ keeps_files s s'.

(** * Properties *)

(** ** Facts about the primitives *)

Lemma ranks_aboveb_spec largest a b :
  ranks_aboveb largest a b = true ↔ ranks_above largest a b.
Proof. destruct largest; apply Qle_bool_iff. Qed.

#[local] Instance entry_above_total largest : Total (entry_above largest).
Proof.
  intros p q. unfold entry_above. rewrite !ranks_aboveb_spec.
  destruct largest; simpl;
    destruct (Qlt_le_dec p.2 q.2) as [H|H]; auto using Qlt_le_weak.
Qed.

#[local] Instance entry_above_trans largest : Transitive (entry_above largest).
Proof.
  intros p q r. unfold entry_above. rewrite !ranks_aboveb_spec.
  destruct largest; simpl; intros H1 H2; eapply Qle_trans; eauto.
Qed.

Lemma elem_of_zip_seq (xs : list Q) i x :
  (i, x) ∈ zip (seq 0 (length xs)) xs ↔ xs !! i = Some x.
Proof.
  rewrite list_elem_of_lookup. split.
  - intros [j Hj]. apply lookup_zip_with_Some in Hj as (a & b & Heq & Ha & Hb).
    apply lookup_seq in Ha as [-> _]. by simplify_eq.
  - intros Hx. exists i. apply lookup_zip_with_Some. exists i, x.
    split; [done|]. split; [|done]. apply lookup_seq.
    split; [done|]. by eapply lookup_lt_Some.
Qed.

Lemma stable_topk_is_topk xs k largest :
  k ≤ length xs → ∃ inds, stable_topk xs k largest = Ok inds ∧ is_topk xs k largest inds.
Proof.
  intros Hk. unfold stable_topk.
  destruct (k <=? length xs) eqn:E; [|apply Nat.leb_gt in E; lia].
  eexists; split; [done|].
  set (ranked := merge_sort _ _).
  assert (Hperm : ranked ≡ₚ zip (seq 0 (length xs)) xs)
    by apply merge_sort_Permutation.
  assert (Hfst : ranked.*1 ≡ₚ seq 0 (length xs)).
  { rewrite Hperm. rewrite fst_zip; [done|]. by rewrite length_seq. }
  assert (Hnd : NoDup (ranked.*1)) by (rewrite Hfst; apply NoDup_seq).
  assert (Hsorted : StronglySorted (entry_above largest) ranked)
    by apply (StronglySorted_merge_sort _).
  assert (Hsplit : ranked = take k ranked ++ drop k ranked)
    by (by rewrite take_drop).
  split.
  - rewrite length_fmap, length_take.
    assert (length ranked = length xs).
    { rewrite Hperm, length_zip_with, length_seq. lia. }
    lia.
  - rewrite Hsplit, fmap_app in Hnd. by apply NoDup_app in Hnd as [? _].
  - intros i Hi. apply list_elem_of_fmap in Hi as ([i' x] & -> & Hp). simpl.
    apply elem_of_take in Hp as (j & Hj & _).
    apply list_elem_of_lookup_2 in Hj. rewrite Hperm in Hj.
    apply elem_of_zip_seq in Hj. by eapply lookup_lt_Some.
  - intros i j xi xj Hi Hj Hxi Hxj.
    apply list_elem_of_fmap in Hi as ([i' xi'] & Hi' & Hp). simpl in Hi'. subst i'.
    assert ((i, xi') ∈ ranked) as Hin.
    { apply elem_of_take in Hp as (n & Hn & _). by eapply list_elem_of_lookup_2. }
    rewrite Hperm in Hin. apply elem_of_zip_seq in Hin.
    assert (xi' = xi) as -> by congruence.
    assert ((j, xj) ∈ ranked) as Hjin by (rewrite Hperm; by apply elem_of_zip_seq).
    rewrite Hsplit in Hjin. apply elem_of_app in Hjin as [Hjin|Hjin].
    { exfalso. apply Hj. apply list_elem_of_fmap. by exists (j, xj). }
    rewrite Hsplit in Hsorted.
    apply ranks_aboveb_spec.
    apply (StronglySorted_app_1_elem_of _ _ _ (i, xi) (j, xj) Hsorted Hp Hjin).
Qed.

Lemma stable_topk_out_of_range xs k largest :
  length xs < k → stable_topk xs k largest = Raise RuntimeError.
Proof.
  intros Hk. unfold stable_topk.
  destruct (k <=? length xs) eqn:E; [apply Nat.leb_le in E; lia|done].
Qed.

Lemma rotate_perm {A} n (l : list A) : rotate n l ≡ₚ l.
Proof.
  unfold rotate. rewrite Permutation_app_comm. by rewrite take_drop.
Qed.

Lemma counter_choice_sample a size g :
  size ≤ length a →
  ∃ l rest, (counter_choice a size g).1 = Ok l ∧ length l = size ∧ l ++ rest ≡ₚ a.
Proof.
  intros Hs. unfold counter_choice. simpl.
  destruct (size <=? length a) eqn:E; [|apply Nat.leb_gt in E; lia].
  exists (take size (rotate g a)), (drop size (rotate g a)).
  split; [done|]. split.
  - rewrite length_take, length_rotate. lia.
  - rewrite take_drop. apply rotate_perm.
Qed.

Lemma counter_choice_too_large a size g :
  length a < size → (counter_choice a size g).1 = Raise ValueError.
Proof.
  intros Hs. unfold counter_choice. simpl.
  destruct (size <=? length a) eqn:E; [apply Nat.leb_le in E; lia|done].
Qed.

Lemma counter_rand_unit_interval n g :
  ∃ l, (counter_rand n g).1 = Ok l ∧ length l = n ∧ Forall (λ q, 0 <= q ∧ q < 1)%Q l.
Proof.
  eexists. split; [reflexivity|]. split.
  - by rewrite length_fmap, length_seq.
  - apply Forall_fmap, Forall_forall. intros i _. simpl.
    pose proof (Nat.mod_upper_bound (i + g) (S n) ltac:(lia)) as Hlt.
    unfold Qle, Qlt. simpl. split; [lia|].
    rewrite Z.mul_1_r, Z.mul_1_l.
    assert (Z.pos (Pos.of_nat (S n)) = Z.of_nat (S n)) as ->.
    { rewrite <- positive_nat_Z, Nat2Pos.id; lia. }
    lia.
Qed.

Definition stable_torch (log : Q → Q) (softmax : list Q → list Q) : Torch := {|
  torch_log := log;
  torch_softmax := softmax;
  torch_topk := stable_topk;
  topk_out_of_range := stable_topk_out_of_range;
  topk_in_range := stable_topk_is_topk
|}.

Definition counter_random : Random := {|
  rng := nat;
  np_random_choice := counter_choice;
  torch_rand := counter_rand;
  choice_too_large := counter_choice_too_large;
  choice_sample := counter_choice_sample;
  rand_unit_interval := counter_rand_unit_interval
|}.

(** ** Executable collaborators for the examples

    A network that returns the tensor it is given (so an example states the
    class probabilities of its pixels directly), and a few of the attributes
    every Python object has.  [softmax] is the identity, so what the network
    returns is read as class probabilities; [log] is a stand-in, used only
    for [QueryStats]' entropy list, which no example reads. *)

Definition toy_torch : Torch := stable_torch (λ q, q - 1)%Q (λ l, l).

Definition toy_model : Network (rng counter_random) := {|
  input := prob_tensor;
  x_shape := shape;
  F_pad := λ x _ _, Ok x;
  model_pred := λ _ x, ret x
|}.

Definition toy_builtin_names : list string :=
  ["__class__"; "__dict__"; "__doc__"; "__eq__"; "__hash__"; "__module__";
   "__ne__"; "__repr__"; "__str__"]%string.

Definition toy_builtin (name : string) : bool :=
  existsb (String.eqb name) toy_builtin_names.

(** Calling [__class__] builds another sampler; [__eq__] and [__ne__] answer
    [NotImplemented]; the others are not callable with one argument. *)
Definition toy_call_builtin (name : string) (prob : prob_tensor) : result value :=
  if existsb (String.eqb name) ["__class__"; "__eq__"; "__ne__"]%string
  then Ok Object else Raise TypeError.

Lemma toy_builtin_dunder name :
  toy_builtin name = true → String.prefix "__" name = true.
Proof.
  unfold toy_builtin, toy_builtin_names. simpl.
  rewrite !orb_true_iff, !String.eqb_eq.
  intros H. repeat (destruct H as [->|H]; [reflexivity|]). done.
Qed.

Definition toy_builtins : Builtins := {|
  builtin := toy_builtin;
  call_builtin := toy_call_builtin;
  builtin_dunder := toy_builtin_dunder
|}.

(** Options for a dataset other than VOC, with 3 classes and the void label
    255. *)
Definition toy_args (query_strategy : string) (n_pixels_by_us : nat)
    (top_n_percent : Q) (reverse_order use_mc_dropout : bool) : Args.t := {|
  Args.dataset_name := "cs";
  Args.ignore_index := 255;
  Args.mc_n_steps := 2;
  Args.n_classes := 3;
  Args.n_pixels_by_us := n_pixels_by_us;
  Args.query_strategy := query_strategy;
  Args.reverse_order := reverse_order;
  Args.stride_total := 16;
  Args.top_n_percent := top_n_percent;
  Args.use_mc_dropout := use_mc_dropout
|}.

(** The selector that [QuerySelector(toy_args ..., dataloader)] builds over
    [toy_model] (see [toy_selector_init]). *)
Definition toy_selector (query_strategy : string) (n_pixels_by_us : nat)
    (top_n_percent : Q) (reverse_order use_mc_dropout : bool)
    (batches : list (QuerySelector.dict_data counter_random toy_model))
    (queries : list (ndarray bool))
  : QuerySelector.t counter_random toy_model := {|
  QuerySelector.dataset_name := "cs";
  QuerySelector.dataloader :=
    {| QuerySelector.batches := batches; QuerySelector.queries := queries |};
  QuerySelector.ignore_index := 255;
  QuerySelector.mc_n_steps := 2;
  QuerySelector.n_classes := 3;
  QuerySelector.n_pixels_by_us := n_pixels_by_us;
  QuerySelector.query_strategy := query_strategy;
  QuerySelector.reverse_order := reverse_order;
  QuerySelector.stride_total := 16;
  QuerySelector.top_n_percent := top_n_percent;
  QuerySelector.uncertainty_sampler :=
    {| UncertaintySampler.query_strategy := query_strategy |};
  QuerySelector.use_mc_dropout := use_mc_dropout
|}.

Example toy_selector_init strategy n p rev mc batches queries :
  QuerySelector.__init__ (toy_args strategy n p rev mc)
    {| QuerySelector.batches := batches; QuerySelector.queries := queries |}
  = Ok (toy_selector strategy n p rev mc batches queries).
Proof. reflexivity. Qed.

(** The state a round starts from: a fresh generator and statistics object,
    nothing written yet. *)
Definition fresh_world (n_classes : nat) : QuerySelector.world counter_random := {|
  QuerySelector.generator := 0 : rng counter_random;
  QuerySelector.query_stats := QueryStats.__init__ n_classes;
  QuerySelector.pickled := [];
  QuerySelector.label_queries := []
|}.

(** One image of a single pixel with class probabilities (1/2, 1/4, 1/4) and
    ground-truth class 0; the pixel is already labelled. *)
Definition labelled_pixel_pool (use_mc_dropout : bool)
  : QuerySelector.t counter_random toy_model :=
  toy_selector "least_confidence" 1 0 false use_mc_dropout
    [ {| QuerySelector.x := NdArray (1, 1) [[1#2; 1#4; 1#4]%Q] : input toy_model;
         QuerySelector.y := NdArray (1, 1) [0%Z] |} ]
    [ NdArray (1, 1) [true] ].

(** Two images of 1 x 2 pixels; the first mask selects both pixels, the
    second one pixel (its other pixel is void and not selected). *)
Definition two_images : list (ndarray bool * ndarray Z * prob_tensor) :=
  [ (NdArray (1, 2) [true; true], NdArray (1, 2) [0; 2]%Z,
     NdArray (1, 2) [[1#2; 1#4; 1#4]; [1#3; 1#3; 1#3]]%Q);
    (NdArray (1, 2) [false; true], NdArray (1, 2) [255; 2]%Z,
     NdArray (1, 2) [[1#2; 1#4; 1#4]; [1#3; 1#3; 1#3]]%Q) ].


(** Two pixels per image, nothing labelled in the first image, the first
    pixel labelled in the second. *)
Definition two_image_pool : QuerySelector.t counter_random toy_model :=
  toy_selector "least_confidence" 1 0 false false
    [ {| QuerySelector.x := NdArray (1, 2) [[1#2; 1#4; 1#4]; [1#3; 1#3; 1#3]]%Q
                            : input toy_model;
         QuerySelector.y := NdArray (1, 2) [0; 2]%Z |};
      {| QuerySelector.x := NdArray (1, 2) [[1#3; 1#3; 1#3]; [1#2; 1#4; 1#4]]%Q
                            : input toy_model;
         QuerySelector.y := NdArray (1, 2) [1; 0]%Z |} ]
    [ NdArray (1, 2) [false; false]; NdArray (1, 2) [true; false] ].

(** A VOC pool of one unlabelled pixel, with the stride set to 0. *)
Definition voc_pool : QuerySelector.t counter_random toy_model := {|
  QuerySelector.dataset_name := "voc";
  QuerySelector.dataloader :=
    {| QuerySelector.batches :=
         [ {| QuerySelector.x := NdArray (1, 1) [[1#2; 1#4; 1#4]%Q] : input toy_model;
              QuerySelector.y := NdArray (1, 1) [0%Z] |} ];
       QuerySelector.queries := [ NdArray (1, 1) [false] ] |};
  QuerySelector.ignore_index := 255;
  QuerySelector.mc_n_steps := 2;
  QuerySelector.n_classes := 3;
  QuerySelector.n_pixels_by_us := 1;
  QuerySelector.query_strategy := "least_confidence";
  QuerySelector.reverse_order := false;
  QuerySelector.stride_total := 0;
  QuerySelector.top_n_percent := 0;
  QuerySelector.uncertainty_sampler :=
    {| UncertaintySampler.query_strategy := "least_confidence" |};
  QuerySelector.use_mc_dropout := false
|}.


(** ** The monad *)

Lemma bind_Ok {S A B} (m : M S A) (k : A → M S B) s a s' :
  m s = (Ok a, s') → bind m k s = k a s'.
Proof. unfold bind. by intros ->. Qed.

Lemma bind_Raise {S A B} (m : M S A) (k : A → M S B) s e s' :
  m s = (Raise e, s') → bind m k s = (Raise e, s').
Proof. unfold bind. by intros ->. Qed.

Lemma bind_inv_Ok {S A B} (m : M S A) (k : A → M S B) s b s2 :
  bind m k s = (Ok b, s2) → ∃ a s1, m s = (Ok a, s1) ∧ k a s1 = (Ok b, s2).
Proof.
  unfold bind. destruct (m s) as [[a|e] s1]; [eauto|discriminate].
Qed.

Lemma lift_inv_Ok {S A} (r : result A) (s s' : S) a :
  lift r s = (Ok a, s') → r = Ok a ∧ s' = s.
Proof. unfold lift. by intros [= -> ->]. Qed.

Lemma zoom_inv_Ok {S U A} (proj : S → U) inj (m : M U A) s a s' :
  zoom proj inj m s = (Ok a, s') → ∃ u, m (proj s) = (Ok a, u) ∧ s' = inj u s.
Proof.
  unfold zoom. destruct (m (proj s)) as [r u]. intros [= -> <-]. eauto.
Qed.

(** Peel one step off a successful run. *)
Ltac inv_bind H :=
  let a := fresh "a" in
  let s := fresh "s" in
  let H1 := fresh "H" in
  apply bind_inv_Ok in H as (a & s & H1 & H).

(** ** Boolean arrays *)

Lemma count_true_cons b a :
  count_true (b :: a) = (if b then 1 else 0) + count_true a.
Proof.
  unfold count_true. destruct b.
  - by rewrite filter_cons_True.
  - by rewrite filter_cons_False.
Qed.

Lemma count_true_insert (a : list bool) i :
  a !! i = Some false → count_true (<[i := true]> a) = S (count_true a).
Proof.
  revert i. induction a as [|b a IH]; intros [|i] Hi; try done.
  - injection Hi as ->. change (<[0:=true]> (false :: a)) with (true :: a).
    by rewrite !count_true_cons.
  - change (<[S i:=true]> (b :: a)) with (b :: <[i:=true]> a).
    rewrite !count_true_cons, (IH i Hi). lia.
Qed.

Lemma count_true_replicate n : count_true (replicate n false) = 0.
Proof.
  induction n as [|n IH]; [done|].
  change (replicate (S n) false) with (false :: replicate n false).
  by rewrite count_true_cons, IH.
Qed.

Lemma length_scatter a inds : length (scatter a inds) = length a.
Proof.
  unfold scatter. revert a. induction inds as [|i inds IH]; intros a; [done|].
  simpl. by rewrite IH, length_insert.
Qed.

Lemma lookup_scatter a inds j :
  scatter a inds !! j = Some true ↔ j < length a ∧ (j ∈ inds ∨ a !! j = Some true).
Proof.
  unfold scatter. revert a. induction inds as [|i inds IH]; intros a; simpl.
  - split.
    + intros H. split; [by eapply lookup_lt_Some|by right].
    + intros [_ [H|H]]; [by apply elem_of_nil in H|done].
  - rewrite IH, length_insert. split.
    + intros [Hj [H|H]]; (split; [done|]).
      * left. by right.
      * destruct (decide (i = j)) as [->|Hne]; [left; by left|].
        right. by rewrite list_lookup_insert_ne in H.
    + intros [Hj [H|H]]; (split; [done|]).
      * apply elem_of_cons in H as [->|H]; [|by left].
        right. by apply list_lookup_insert_eq.
      * destruct (decide (i = j)) as [->|Hne].
        -- right. by apply list_lookup_insert_eq.
        -- right. by rewrite list_lookup_insert_ne.
Qed.

Lemma count_true_scatter a inds :
  NoDup inds → (∀ i, i ∈ inds → a !! i = Some false) →
  count_true (scatter a inds) = count_true a + length inds.
Proof.
  unfold scatter. revert a. induction inds as [|i inds IH]; intros a Hnd Hin; simpl.
  - lia.
  - apply NoDup_cons in Hnd as [Hi Hnd].
    rewrite IH; [|done|].
    + rewrite count_true_insert; [lia|]. apply Hin. by left.
    + intros j Hj. rewrite list_lookup_insert_ne; [|set_solver].
      apply Hin. by right.
Qed.

Lemma put_true_inv a inds q :
  put_true a inds = Ok q → q = scatter a inds ∧ ∀ i, i ∈ inds → i < length a.
Proof.
  unfold put_true. destruct (forallb _ _) eqn:E; [|discriminate].
  intros [= <-]. split; [done|]. intros i Hi.
  rewrite forallb_forall in E. apply Nat.ltb_lt, E. by apply list_elem_of_In.
Qed.

Lemma put_true_Ok a inds :
  (∀ i, i ∈ inds → i < length a) → put_true a inds = Ok (scatter a inds).
Proof.
  intros H. unfold put_true.
  destruct (forallb _ _) eqn:E; [done|].
  apply not_true_iff_false in E. exfalso. apply E.
  apply forallb_forall. intros i Hi. apply Nat.ltb_lt, H. by apply list_elem_of_In.
Qed.

Lemma count_true_put_zeros n inds :
  NoDup inds → (∀ i, i ∈ inds → i < n) →
  count_true (scatter (replicate n false) inds) = length inds.
Proof.
  intros Hnd Hlt. rewrite count_true_scatter, count_true_replicate; [done..|].
  intros i Hi. apply lookup_replicate_2. auto.
Qed.

Lemma lookup_put_zeros n inds j :
  (∀ i, i ∈ inds → i < n) →
  scatter (replicate n false) inds !! j = Some true ↔ j ∈ inds.
Proof.
  intros Hlt. rewrite lookup_scatter, length_replicate. split.
  - intros [_ [H|H]]; [done|]. by apply lookup_replicate in H as [? _].
  - intros H. split; [auto|by left].
Qed.

(** ** Consequences of the primitives' contracts *)

Lemma torch_topk_inv (T : Torch) xs k largest inds :
  torch_topk T xs k largest = Ok inds → is_topk xs k largest inds ∧ k ≤ length xs.
Proof.
  intros H. destruct (decide (k ≤ length xs)) as [Hk|Hk].
  - destruct (topk_in_range T xs k largest Hk) as (inds' & H' & Hspec).
    split; [|done]. congruence.
  - rewrite topk_out_of_range in H by lia. discriminate.
Qed.

Lemma torch_topk_cases (T : Torch) xs k largest :
  (∃ inds, torch_topk T xs k largest = Ok inds) ∨
  torch_topk T xs k largest = Raise RuntimeError.
Proof.
  destruct (decide (k ≤ length xs)) as [Hk|Hk].
  - left. destruct (topk_in_range T xs k largest Hk) as (inds & H & _). eauto.
  - right. apply topk_out_of_range. lia.
Qed.

Lemma np_random_choice_inv (R : Random) a size g l g' :
  np_random_choice R a size g = (Ok l, g') →
  length l = size ∧ size ≤ length a ∧ ∃ rest, l ++ rest ≡ₚ a.
Proof.
  intros H. destruct (decide (size ≤ length a)) as [Hs|Hs].
  - destruct (choice_sample R a size g Hs) as (l' & rest & H' & Hlen & Hperm).
    rewrite H in H'. simpl in H'. simplify_eq. eauto.
  - pose proof (choice_too_large R a size g ltac:(lia)) as H'.
    rewrite H in H'. discriminate.
Qed.

Lemma sample_NoDup (l rest a : list nat) : l ++ rest ≡ₚ a → NoDup a → NoDup l.
Proof. intros <- Hnd. by apply NoDup_app in Hnd as [? _]. Qed.

Lemma sample_subset (l rest a : list nat) i : l ++ rest ≡ₚ a → i ∈ l → i ∈ a.
Proof. intros <- Hi. apply elem_of_app. by left. Qed.

(** ** The selection routine *)

Section SelectQueries.
Context (T : Torch) {R : Random} {model : Network (rng R)}.
Implicit Types (self : QuerySelector.t R model) (uc_map : ndarray Q).

Import QuerySelector.

Lemma candidate_k_fixed self h w :
  Qltb 0 (top_n_percent self) = false → candidate_k self h w = n_pixels_by_us self.
Proof. unfold candidate_k. by intros ->. Qed.

(** Whatever the mode, a mask that [_select_queries] returns marks the
    [n_pixels_by_us] distinct positions of its final index array. *)
Lemma select_queries_inv self uc_map g q g' :
  _select_queries T self uc_map g = (Ok q, g') →
  shape q = shape uc_map ∧
  ∃ inds,
    flat q = scatter (replicate ((shape uc_map).1 * (shape uc_map).2) false) inds ∧
    NoDup inds ∧ length inds = n_pixels_by_us self ∧
    ∀ i, i ∈ inds → i < (shape uc_map).1 * (shape uc_map).2.
Proof.
  unfold _select_queries. destruct (shape uc_map) as [h w] eqn:Hshape. simpl.
  intros H. inv_bind H. rename a into inds. inv_bind H.
  apply lift_inv_Ok in H1 as [Hput ->]. injection H as <- <-.
  apply put_true_inv in Hput as [-> Hlt]. rewrite length_replicate in Hlt.
  split; [done|]. exists inds. split; [done|].
  split_and!; [| |done].
  - destruct (reverse_order self).
    + inv_bind H0. inv_bind H0. inv_bind H0. inv_bind H0.
      apply lift_inv_Ok in H0 as [Htopk _].
      by apply torch_topk_inv in Htopk as [[] _].
    + inv_bind H0. apply lift_inv_Ok in H as [Htopk ->].
      apply torch_topk_inv in Htopk as [[] _].
      destruct (Qltb 0 (top_n_percent self)).
      * apply np_random_choice_inv in H0 as (_ & _ & rest & Hperm).
        by eapply sample_NoDup.
      * by injection H0 as <- <-.
  - destruct (reverse_order self).
    + inv_bind H0. inv_bind H0. inv_bind H0. inv_bind H0.
      apply lift_inv_Ok in H0 as [Htopk _].
      by apply torch_topk_inv in Htopk as [[] _].
    + inv_bind H0. apply lift_inv_Ok in H as [Htopk ->].
      apply torch_topk_inv in Htopk as [[] _].
      destruct (Qltb 0 (top_n_percent self)) eqn:Hp.
      * by apply np_random_choice_inv in H0 as (? & _).
      * injection H0 as <- <-. by rewrite candidate_k_fixed in topk_length0.
Qed.

Lemma select_queries_count self uc_map g q g' :
  _select_queries T self uc_map g = (Ok q, g') →
  count_true (flat q) = n_pixels_by_us self.
Proof.
  intros H. apply select_queries_inv in H as (_ & inds & -> & Hnd & <- & Hlt).
  by apply count_true_put_zeros.
Qed.

Lemma select_queries_well_shaped self uc_map g q g' :
  _select_queries T self uc_map g = (Ok q, g') → well_shaped q.
Proof.
  intros H. apply select_queries_inv in H as (Hs & inds & Hq & _).
  unfold well_shaped. by rewrite Hq, length_scatter, length_replicate, Hs.
Qed.

(** Direct mode with the absolute budget: one top-k, no random draw. *)
Lemma select_queries_direct self uc_map g :
  reverse_order self = false →
  Qltb 0 (top_n_percent self) = false →
  well_shaped uc_map →
  n_pixels_by_us self ≤ (shape uc_map).1 * (shape uc_map).2 →
  ∃ inds,
    is_topk (flat uc_map) (n_pixels_by_us self) (largest self) inds ∧
    _select_queries T self uc_map g =
      (Ok (NdArray (shape uc_map)
             (scatter (replicate ((shape uc_map).1 * (shape uc_map).2) false) inds)), g).
Proof.
  intros Hrev Hp Hwf Hn. unfold well_shaped in Hwf.
  destruct (topk_in_range T (flat uc_map) (n_pixels_by_us self) (largest self))
    as (inds & Htopk & Hspec); [lia|].
  exists inds. split; [done|].
  unfold _select_queries. destruct (shape uc_map) as [h w] eqn:Hshape. simpl in *.
  rewrite Hrev, candidate_k_fixed by done.
  unfold bind, lift, ret. rewrite Htopk, Hp.
  rewrite put_true_Ok; [done|].
  intros i Hi. rewrite length_replicate, <- Hwf. by apply (topk_bound _ _ _ _ Hspec).
Qed.

End SelectQueries.

(** ** Top-k over an array that holds the mask value *)

Lemma Qltb_lt a b : Qltb a b = true ↔ (a < b)%Q.
Proof.
  unfold Qltb. rewrite negb_true_iff, <- not_true_iff_false, Qle_bool_iff.
  split; [apply Qnot_le_lt|apply Qlt_not_le].
Qed.

Lemma outranksb_irrefl largest a : outranksb largest a a = false.
Proof.
  apply not_true_iff_false. unfold outranksb.
  destruct largest; rewrite Qltb_lt; apply Qlt_irrefl.
Qed.

(** If [xj] outranks [v] and [xi] does not, then [xi] does not rank above
    [xj]. *)
Lemma ranks_above_outranks largest xi xj v :
  ranks_above largest xi xj → outranksb largest xj v = true →
  outranksb largest xi v = true.
Proof.
  unfold ranks_above, outranksb. destruct largest; rewrite !Qltb_lt; intros H1 H2.
  - eapply Qlt_le_trans; eauto.
  - eapply Qle_lt_trans; eauto.
Qed.

(** The counting argument behind masking by value: when at least [k]
    positions carry a score that outranks [v], a top-[k] returns only such
    positions. *)
Lemma topk_outranks xs k largest inds v (cands : list nat) :
  is_topk xs k largest inds →
  NoDup cands →
  (∀ c, c ∈ cands → ∃ x, xs !! c = Some x ∧ outranksb largest x v = true) →
  k ≤ length cands →
  ∀ i, i ∈ inds → ∃ x, xs !! i = Some x ∧ outranksb largest x v = true.
Proof.
  intros Htopk Hnd Hcands Hk i Hi.
  destruct (lookup_lt_is_Some_2 xs i (topk_bound _ _ _ _ Htopk i Hi)) as [xi Hxi].
  exists xi. split; [done|].
  destruct (outranksb largest xi v) eqn:Hout; [done|exfalso].
  assert (i ∉ cands) as Hic.
  { intros Hc. destruct (Hcands i Hc) as (x & Hx & Hox). congruence. }
  destruct (decide (Forall (λ c, c ∈ inds) cands)) as [Hall|Hex].
  - assert (length (i :: cands) ≤ length inds) as Hlen.
    { apply submseteq_length, NoDup_submseteq.
      - by apply NoDup_cons.
      - intros c [->|Hc]%elem_of_cons; [done|].
        by eapply Forall_forall in Hall. }
    simpl in Hlen. rewrite (topk_length _ _ _ _ Htopk) in Hlen. lia.
  - apply not_Forall_Exists in Hex; [|apply _].
    apply Exists_exists in Hex as (j & Hj & Hjn).
    destruct (Hcands j Hj) as (xj & Hxj & Hoj).
    pose proof (topk_dominates _ _ _ _ Htopk i j xi xj Hi Hjn Hxi Hxj) as Hdom.
    rewrite (ranks_above_outranks _ _ _ _ Hdom Hoj) in Hout. discriminate.
Qed.

Lemma masked_fill_inv {A} (a : list A) mask v a' :
  masked_fill a mask v = Ok a' →
  length a' = length a ∧
  (∀ i, mask !! i = Some true → i < length a → a' !! i = Some v) ∧
  (∀ i, mask !! i = Some false → a' !! i = a !! i).
Proof.
  unfold masked_fill. destruct (length a =? length mask) eqn:E; [|discriminate].
  apply Nat.eqb_eq in E. intros [= <-]. split_and!.
  - rewrite length_zip_with. lia.
  - intros i Hm Hi. apply lookup_zip_with_Some.
    destruct (lookup_lt_is_Some_2 a i Hi) as [x Hx]. by exists x, true.
  - intros i Hm. destruct (a !! i) as [x|] eqn:Hx.
    + apply lookup_zip_with_Some. by exists x, false.
    + apply lookup_zip_with_None. by left.
Qed.

Lemma masked_fill_Ok {A} (a : list A) mask v :
  length a = length mask →
  masked_fill a mask v = Ok (zip_with (λ x (m : bool), if m then v else x) a mask).
Proof. intros H. unfold masked_fill. by rewrite H, Nat.eqb_refl. Qed.

Section SelectQueriesModes.
Context (T : Torch) {R : Random} {model : Network (rng R)}.
Implicit Types (self : QuerySelector.t R model) (uc_map : ndarray Q).

Import QuerySelector.

(** C6. In direct mode with [top_n_percent = 0], on an uncertainty map of
    shape (H, W) with H*W >= n_pixels_by_us, [_select_queries] returns a
    boolean (H, W) mask with exactly [n_pixels_by_us] true entries. *)
Theorem direct_mode_exact_budget self uc_map g :
  reverse_order self = false →
  (top_n_percent self == 0)%Q →
  well_shaped uc_map →
  n_pixels_by_us self ≤ (shape uc_map).1 * (shape uc_map).2 →
  ∃ query,
    _select_queries T self uc_map g = (Ok query, g) ∧
    shape query = shape uc_map ∧
    well_shaped query ∧
    count_true (flat query) = n_pixels_by_us self.
Proof.
  intros Hrev Hp Hwf Hn.
  assert (Qltb 0 (top_n_percent self) = false) as Hp'.
  { apply not_true_iff_false. rewrite Qltb_lt, Hp. apply Qlt_irrefl. }
  destruct (select_queries_direct T self uc_map g Hrev Hp' Hwf Hn)
    as (inds & Htopk & Hrun).
  eexists. split; [exact Hrun|]. split; [done|]. split.
  - eapply select_queries_well_shaped, Hrun.
  - eapply select_queries_count, Hrun.
Qed.

(** C4 (amended). In two-stage mode, once the candidate pool is drawn,
    [_select_queries] returns a mask of the map's shape with exactly
    [n_pixels_by_us] true entries; all of them lie in the pool provided at
    least [n_pixels_by_us] pool members carry a score that ranks strictly
    above the mask value. *)
Theorem two_stage_within_pool self uc_map g pool g1 :
  reverse_order self = true →
  (0 < top_n_percent self)%Q →
  well_shaped uc_map →
  n_pixels_by_us self ≤ (shape uc_map).1 * (shape uc_map).2 →
  np_random_choice R (seq 0 ((shape uc_map).1 * (shape uc_map).2))
    (candidate_k self (shape uc_map).1 (shape uc_map).2) g = (Ok pool, g1) →
  ∃ query,
    _select_queries T self uc_map g = (Ok query, g1) ∧
    shape query = shape uc_map ∧
    count_true (flat query) = n_pixels_by_us self ∧
    (n_pixels_by_us self
       ≤ length (filter (λ i, beats_mask_value self (flat uc_map) i = true) pool) →
     ∀ i, flat query !! i = Some true → i ∈ pool).
Proof.
  intros Hrev Hp Hwf Hn Hdraw. apply Qltb_lt in Hp. unfold well_shaped in Hwf.
  destruct (shape uc_map) as [h w] eqn:Hshape. simpl in *.
  set (N := h * w) in *.
  apply np_random_choice_inv in Hdraw as Hpool.
  destruct Hpool as (Hlen & _ & rest & Hperm).
  assert (Hpool_lt : ∀ i, i ∈ pool → i < N).
  { intros i Hi. eapply sample_subset in Hi; [|done].
    apply elem_of_seq in Hi. lia. }
  assert (Hpool_nd : NoDup pool) by (eapply sample_NoDup; [done|apply NoDup_seq]).
  set (sampling_mask := scatter (replicate N false) pool).
  assert (Hsm_len : length sampling_mask = N)
    by (unfold sampling_mask; by rewrite length_scatter, length_replicate).
  destruct (masked_fill (flat uc_map) (negb <$> sampling_mask) (mask_value self))
    as [uc'|] eqn:Hfill;
    [|by rewrite masked_fill_Ok in Hfill by (by rewrite length_fmap, Hsm_len)].
  apply masked_fill_inv in Hfill as Huc'. destruct Huc' as (Hlen' & Hout & Hin).
  destruct (topk_in_range T uc' (n_pixels_by_us self) (largest self))
    as (inds & Htopk & Hspec); [lia|].
  assert (Hinds_lt : ∀ i, i ∈ inds → i < N).
  { intros i Hi. rewrite <- Hwf, <- Hlen'. by apply (topk_bound _ _ _ _ Hspec). }
  assert (Hrun : _select_queries T self uc_map g
                 = (Ok (NdArray (h, w) (scatter (replicate N false) inds)), g1)).
  { unfold _select_queries. rewrite Hshape, Hrev. simpl. fold N.
    unfold bind, py_assert, lift, ret. rewrite Hp. simpl.
    rewrite Hdraw. rewrite put_true_Ok by (by rewrite length_replicate).
    fold sampling_mask. rewrite Hfill, Htopk.
    by rewrite put_true_Ok by (by rewrite length_replicate). }
  eexists. split; [exact Hrun|]. split; [done|]. split.
  - eapply select_queries_count, Hrun.
  - simpl. intros Henough i Hi.
    apply lookup_put_zeros in Hi; [|done].
    destruct (topk_outranks uc' _ _ inds (mask_value self)
                (filter (λ i, beats_mask_value self (flat uc_map) i = true) pool)
                Hspec) with (i := i) as (u & Hu & Hbeats); [| |done|done|].
    { by apply NoDup_filter. }
    { intros c [Hc Hcp]%list_elem_of_filter. unfold beats_mask_value in Hc.
      destruct (flat uc_map !! c) as [u|] eqn:Hu; [|discriminate].
      exists u. split; [|done]. rewrite Hin; [done|].
      rewrite list_lookup_fmap.
      assert (sampling_mask !! c = Some true) as ->; [|done].
      apply lookup_put_zeros; done. }
    destruct (decide (i ∈ pool)) as [|Hnotin]; [done|exfalso].
    assert (sampling_mask !! i = Some false) as Hsm.
    { destruct (lookup_lt_is_Some_2 sampling_mask i) as [[] Hb];
        [rewrite Hsm_len; auto| |done].
      apply lookup_put_zeros in Hb; done. }
    rewrite Hout in Hu.
    + injection Hu as <-. by rewrite outranksb_irrefl in Hbeats.
    + by rewrite list_lookup_fmap, Hsm.
    + rewrite Hwf. auto.
Qed.

End SelectQueriesModes.

(** ** Examples for the selection routine *)

Lemma direct_mode_exact_budget_witness :
  ∃ query,
    QuerySelector._select_queries toy_torch
      (toy_selector "least_confidence" 2 0 false false [] [])
      (NdArray (2, 2) [1#2; 1#4; 2#3; 0]%Q) (0 : rng counter_random) = (Ok query, 0) ∧
    shape query = (2, 2) ∧
    well_shaped query ∧
    count_true (flat query) = 2.
Proof.
  apply (direct_mode_exact_budget toy_torch
           (toy_selector "least_confidence" 2 0 false false [] [])
           (NdArray (2, 2) [1#2; 1#4; 2#3; 0]%Q) (0 : rng counter_random)).
  - reflexivity.
  - reflexivity.
  - reflexivity.
  - simpl. lia.
Defined.

Lemma two_stage_within_pool_witness :
  ∃ query,
    QuerySelector._select_queries toy_torch
      (toy_selector "random" 2 (1#2) true false [] [])
      (NdArray (2, 2) [1#4; 1#2; 3#4; 1#8]%Q) (0 : rng counter_random) = (Ok query, 1) ∧
    shape query = (2, 2) ∧
    count_true (flat query) = 2 ∧
    (2 ≤ 2 → ∀ i, flat query !! i = Some true → i ∈ [0; 1]).
Proof.
  apply (two_stage_within_pool toy_torch
           (toy_selector "random" 2 (1#2) true false [] [])
           (NdArray (2, 2) [1#4; 1#2; 3#4; 1#8]%Q) (0 : rng counter_random) [0; 1] 1).
  - reflexivity.
  - reflexivity.
  - reflexivity.
  - simpl. lia.
  - reflexivity.
Defined.

(** C4, as stated, fails: with a pool of one position (k = int(2 * 1/2) = 1)
    and a budget of two pixels, the mask marks position 1, which lies outside
    the pool [[0]]. *)
Lemma two_stage_leaves_pool :
  (np_random_choice counter_random (seq 0 2) 1 0).1 = Ok [0] ∧
  (QuerySelector._select_queries toy_torch
     (toy_selector "random" 2 (1#2) true false [] [])
     (NdArray (1, 2) [1#4; 1#2]%Q) (0 : rng counter_random)).1
  = Ok (NdArray (1, 2) [true; true]).
Proof. split; reflexivity. Qed.


(** ** The candidate-pool size *)

Lemma py_int_floor (q : Q) : (0 <= q)%Q → py_int q = Qfloor q.
Proof.
  destruct q as [n d]. unfold Qle, py_int, Qfloor. simpl. intros Hn.
  apply Z.quot_div_nonneg; lia.
Qed.

(** C5 (amended). With [top_n_percent > 0] the candidate-pool size is the
    product [H * W * top_n_percent] truncated to its integer part (not
    rounded to the nearest integer); otherwise it is [n_pixels_by_us]. *)
Theorem candidate_k_truncates {R : Random} {model : Network (rng R)}
    (self : QuerySelector.t R model) (h w : nat) :
  ((0 < QuerySelector.top_n_percent self)%Q →
   Z.of_nat (QuerySelector.candidate_k self h w)
   = Qfloor (inject_Z (Z.of_nat (h * w)) * QuerySelector.top_n_percent self)) ∧
  (¬ (0 < QuerySelector.top_n_percent self)%Q →
   QuerySelector.candidate_k self h w = QuerySelector.n_pixels_by_us self).
Proof.
  unfold QuerySelector.candidate_k. split; intros Hp.
  - apply Qltb_lt in Hp as Hb. rewrite Hb.
    assert (0 <= inject_Z (Z.of_nat (h * w)) * QuerySelector.top_n_percent self)%Q
      as Hnonneg.
    { apply Qmult_le_0_compat; [|by apply Qlt_le_weak].
      unfold Qle. simpl. lia. }
    rewrite py_int_floor by done. rewrite Z2Nat.id; [done|].
    change 0%Z with (Qfloor 0). by apply Qfloor_resp_le.
  - destruct (Qltb 0 (QuerySelector.top_n_percent self)) eqn:Hb; [|done].
    by apply Qltb_lt in Hb.
Qed.

Lemma candidate_k_truncates_witness :
  Z.of_nat (QuerySelector.candidate_k
              (toy_selector "entropy" 4 (3#4) false false [] []) 3 3) = 6%Z ∧
  QuerySelector.candidate_k (toy_selector "entropy" 4 0 false false [] []) 3 3 = 4.
Proof.
  split.
  - apply (proj1 (candidate_k_truncates
                    (toy_selector "entropy" 4 (3#4) false false [] []) 3 3)).
    reflexivity.
  - apply (proj2 (candidate_k_truncates
                    (toy_selector "entropy" 4 0 false false [] []) 3 3)).
    intros H. discriminate H.
Defined.

(** C5, as stated, fails: for a 3 x 3 map and [top_n_percent = 0.75] the
    product is 6.75; the code takes k = 6, the nearest integer is 7. *)
Lemma candidate_k_not_rounded :
  QuerySelector.candidate_k (toy_selector "entropy" 4 (3#4) false false [] []) 3 3 = 6 ∧
  spec_round (inject_Z (Z.of_nat (3 * 3)) * (3#4)) = 7%Z.
Proof. split; reflexivity. Qed.


(** ** Excluding labelled and void pixels *)

Lemma nd_masked_fill_inv {A} (a : ndarray A) mask v a' :
  nd_masked_fill a mask v = Ok a' →
  shape a' = shape a ∧ masked_fill (flat a) (flat mask) v = Ok (flat a').
Proof.
  unfold nd_masked_fill. destruct (shape_eqb _ _); [|discriminate].
  destruct (masked_fill _ _ _) as [l|]; [|discriminate]. simpl.
  by intros [= <-].
Qed.

Lemma shape_eqb_refl s : shape_eqb s s = true.
Proof. unfold shape_eqb. by rewrite !Nat.eqb_refl. Qed.

Lemma nd_masked_fill_Ok {A} (a : ndarray A) mask v :
  shape mask = shape a → length (flat mask) = length (flat a) →
  ∃ a', nd_masked_fill a mask v = Ok a'.
Proof.
  intros Hs Hl. unfold nd_masked_fill.
  rewrite Hs, shape_eqb_refl, masked_fill_Ok by done. simpl. eauto.
Qed.

Section Exclude.
Context {R : Random} {model : Network (rng R)}.
Implicit Types (self : QuerySelector.t R model) (uc_map : ndarray Q).

Import QuerySelector.

Lemma exclude_Ok self uc_map mask mask_void :
  shape mask = shape uc_map → length (flat mask) = length (flat uc_map) →
  shape mask_void = shape uc_map → length (flat mask_void) = length (flat uc_map) →
  ∃ uc', exclude self uc_map mask mask_void = Ok uc'.
Proof.
  intros Hs1 Hl1 Hs2 Hl2. unfold exclude.
  destruct (nd_masked_fill_Ok uc_map mask (mask_value self) Hs1 Hl1) as [u1 H1].
  rewrite H1. simpl.
  apply nd_masked_fill_inv in H1 as [Hsu Hfu].
  apply masked_fill_inv in Hfu as [Hlu _].
  apply nd_masked_fill_Ok; congruence.
Qed.

Lemma exclude_inv self uc_map mask mask_void uc' :
  exclude self uc_map mask mask_void = Ok uc' →
  shape uc' = shape uc_map ∧
  length (flat uc') = length (flat uc_map) ∧
  (∀ i, i < length (flat uc_map) → ¬ eligible mask mask_void i →
        flat mask !! i ≠ None → flat mask_void !! i ≠ None →
        flat uc' !! i = Some (mask_value self)) ∧
  (∀ i, eligible mask mask_void i → flat uc' !! i = flat uc_map !! i).
Proof.
  unfold exclude. destruct (nd_masked_fill uc_map mask _) as [u1|] eqn:H1;
    [|discriminate]. simpl. intros H2.
  apply nd_masked_fill_inv in H1 as [Hs1 Hf1].
  apply nd_masked_fill_inv in H2 as [Hs2 Hf2].
  apply masked_fill_inv in Hf1 as (Hl1 & Hset1 & Hkeep1).
  apply masked_fill_inv in Hf2 as (Hl2 & Hset2 & Hkeep2).
  split_and!; [congruence|congruence| |].
  - intros i Hi Hne Hm Hv.
    destruct (flat mask_void !! i) as [[]|] eqn:Ev; [|clear Hv|done].
    + apply Hset2; [done|lia].
    + rewrite Hkeep2 by done.
      destruct (flat mask !! i) as [[]|] eqn:Em; [|clear Hm|done].
      * by apply Hset1.
      * exfalso. apply Hne. by split.
  - intros i [Hm Hv]. by rewrite Hkeep2, Hkeep1.
Qed.

End Exclude.

Section ExcludeAndSelect.
Context (T : Torch) {R : Random} {model : Network (rng R)}.
Implicit Types (self : QuerySelector.t R model) (uc_map : ndarray Q).

Import QuerySelector.

(** C3, where the code departs from it.  In direct mode with the absolute
    budget, when fewer than [n_pixels_by_us] pixels are left unmarked by the
    two masks, the mask returned after the exclusion step marks a pixel that
    the eligibility mask or the void mask excludes. *)
Theorem budget_over_eligible_selects_masked self uc_map mask mask_void g :
  reverse_order self = false →
  (top_n_percent self == 0)%Q →
  well_shaped uc_map →
  shape mask = shape uc_map → well_shaped mask →
  shape mask_void = shape uc_map → well_shaped mask_void →
  n_pixels_by_us self ≤ (shape uc_map).1 * (shape uc_map).2 →
  length (filter (eligible mask mask_void)
            (seq 0 ((shape uc_map).1 * (shape uc_map).2))) < n_pixels_by_us self →
  ∃ uc' query i,
    exclude self uc_map mask mask_void = Ok uc' ∧
    _select_queries T self uc' g = (Ok query, g) ∧
    flat query !! i = Some true ∧
    (flat mask !! i = Some true ∨ flat mask_void !! i = Some true).
Proof.
  intros Hrev Hp Hwf Hsm Hwm Hsv Hwv Hn Hfew.
  unfold well_shaped in *. rewrite Hsm in Hwm. rewrite Hsv in Hwv.
  destruct (exclude_Ok self uc_map mask mask_void) as [uc' Hex]; [congruence..|].
  apply exclude_inv in Hex as Hinv. destruct Hinv as (Hs' & Hl' & _ & _).
  assert (Qltb 0 (top_n_percent self) = false) as Hp'.
  { apply not_true_iff_false. rewrite Qltb_lt, Hp. apply Qlt_irrefl. }
  destruct (select_queries_direct T self uc' g Hrev Hp') as (inds & Htopk & Hrun).
  { unfold well_shaped. congruence. }
  { by rewrite Hs'. }
  rewrite Hs' in Hrun.
  set (N := (shape uc_map).1 * (shape uc_map).2) in *.
  assert (Hlt : ∀ i, i ∈ inds → i < N).
  { intros i Hi. rewrite <- Hwf, <- Hl'. by apply (topk_bound _ _ _ _ Htopk). }
  destruct (decide (Forall (eligible mask mask_void) inds)) as [Hall|Hex'].
  - exfalso.
    assert (length inds ≤ length (filter (eligible mask mask_void) (seq 0 N))) as Hlen.
    { apply submseteq_length, NoDup_submseteq; [apply (topk_nodup _ _ _ _ Htopk)|].
      intros i Hi. apply list_elem_of_filter. split.
      - by eapply Forall_forall in Hall.
      - apply elem_of_seq. specialize (Hlt i Hi). lia. }
    rewrite (topk_length _ _ _ _ Htopk) in Hlen. lia.
  - apply not_Forall_Exists in Hex'; [|apply _].
    apply Exists_exists in Hex' as (i & Hi & Hne).
    exists uc', (NdArray (shape uc_map) (scatter (replicate N false) inds)), i.
    split; [done|]. split; [done|]. split.
    + simpl. by apply lookup_put_zeros.
    + specialize (Hlt i Hi).
      destruct (lookup_lt_is_Some_2 (flat mask) i) as [[] Hm]; [lia|by left|].
      destruct (lookup_lt_is_Some_2 (flat mask_void) i) as [[] Hv]; [lia|by right|].
      exfalso. apply Hne. by split.
Qed.

(** X1. The exclusion step does its work as long as enough eligible pixels carry
    a score that ranks strictly above the mask value: then no marked pixel
    enters the mask. *)
Theorem exclusion_holds_with_enough_eligible self uc_map mask mask_void g :
  reverse_order self = false →
  (top_n_percent self == 0)%Q →
  well_shaped uc_map →
  shape mask = shape uc_map → well_shaped mask →
  shape mask_void = shape uc_map → well_shaped mask_void →
  n_pixels_by_us self
    ≤ length (filter (λ i, eligible mask mask_void i ∧
                           beats_mask_value self (flat uc_map) i = true)
                (seq 0 ((shape uc_map).1 * (shape uc_map).2))) →
  ∃ uc' query,
    exclude self uc_map mask mask_void = Ok uc' ∧
    _select_queries T self uc' g = (Ok query, g) ∧
    count_true (flat query) = n_pixels_by_us self ∧
    ∀ i, flat query !! i = Some true → eligible mask mask_void i.
Proof.
  intros Hrev Hp Hwf Hsm Hwm Hsv Hwv Henough.
  unfold well_shaped in *. rewrite Hsm in Hwm. rewrite Hsv in Hwv.
  set (N := (shape uc_map).1 * (shape uc_map).2) in *.
  set (cands := filter _ (seq 0 N)) in Henough.
  assert (n_pixels_by_us self ≤ N) as Hn.
  { etrans; [exact Henough|]. unfold cands.
    etrans; [apply length_filter|]. by rewrite length_seq. }
  destruct (exclude_Ok self uc_map mask mask_void) as [uc' Hex]; [congruence..|].
  apply exclude_inv in Hex as Hinv. destruct Hinv as (Hs' & Hl' & Hset & Hkeep).
  assert (Qltb 0 (top_n_percent self) = false) as Hp'.
  { apply not_true_iff_false. rewrite Qltb_lt, Hp. apply Qlt_irrefl. }
  destruct (select_queries_direct T self uc' g Hrev Hp') as (inds & Htopk & Hrun).
  { unfold well_shaped. rewrite Hs', Hl'. exact Hwf. }
  { rewrite Hs'. exact Hn. }
  rewrite Hs' in Hrun. fold N in Hrun.
  assert (Hlt : ∀ i, i ∈ inds → i < N).
  { intros i Hi. rewrite <- Hwf, <- Hl'. by apply (topk_bound _ _ _ _ Htopk). }
  eexists _, _. split; [done|]. split; [exact Hrun|]. split.
  { eapply select_queries_count, Hrun. }
  simpl. intros i Hi. apply lookup_put_zeros in Hi; [|done].
  destruct (topk_outranks (flat uc') _ _ inds (mask_value self) cands Htopk)
    with (i := i) as (u & Hu & Hbeats); [| |done|done|].
  { apply NoDup_filter, NoDup_seq. }
  { intros c [[Hel Hb] _]%list_elem_of_filter. unfold beats_mask_value in Hb.
    destruct (flat uc_map !! c) as [u|] eqn:Hc; [|discriminate].
    exists u. split; [|done]. by rewrite Hkeep. }
  destruct (decide (eligible mask mask_void i)) as [|Hne]; [done|exfalso].
  specialize (Hlt i Hi).
  rewrite Hset in Hu; [| lia | done | |].
  - injection Hu as <-. by rewrite outranksb_irrefl in Hbeats.
  - intros Hnone. apply lookup_ge_None in Hnone. lia.
  - intros Hnone. apply lookup_ge_None in Hnone. lia.
Qed.

End ExcludeAndSelect.

Lemma budget_over_eligible_selects_masked_witness :
  ∃ uc' query i,
    QuerySelector.exclude (toy_selector "least_confidence" 1 0 false false [] [])
      (NdArray (1, 2) [1#2; 1#4]%Q)
      (NdArray (1, 2) [true; false]) (NdArray (1, 2) [false; true]) = Ok uc' ∧
    QuerySelector._select_queries toy_torch
      (toy_selector "least_confidence" 1 0 false false [] []) uc'
      (0 : rng counter_random) = (Ok query, 0) ∧
    flat query !! i = Some true ∧
    (flat (NdArray (1, 2) [true; false]) !! i = Some true ∨
     flat (NdArray (1, 2) [false; true]) !! i = Some true).
Proof.
  apply (budget_over_eligible_selects_masked toy_torch
           (toy_selector "least_confidence" 1 0 false false [] [])
           (NdArray (1, 2) [1#2; 1#4]%Q)
           (NdArray (1, 2) [true; false]) (NdArray (1, 2) [false; true])
           (0 : rng counter_random)).
  - reflexivity.
  - reflexivity.
  - reflexivity.
  - reflexivity.
  - reflexivity.
  - reflexivity.
  - reflexivity.
  - simpl. lia.
  - vm_compute. lia.
Defined.

Lemma exclusion_holds_with_enough_eligible_witness :
  ∃ uc' query,
    QuerySelector.exclude (toy_selector "least_confidence" 1 0 false false [] [])
      (NdArray (1, 3) [1#2; 1#4; 1#3]%Q)
      (NdArray (1, 3) [true; false; false]) (NdArray (1, 3) [false; true; false])
    = Ok uc' ∧
    QuerySelector._select_queries toy_torch
      (toy_selector "least_confidence" 1 0 false false [] []) uc'
      (0 : rng counter_random) = (Ok query, 0) ∧
    count_true (flat query) = 1 ∧
    ∀ i, flat query !! i = Some true →
         eligible (NdArray (1, 3) [true; false; false])
                  (NdArray (1, 3) [false; true; false]) i.
Proof.
  apply (exclusion_holds_with_enough_eligible toy_torch
           (toy_selector "least_confidence" 1 0 false false [] [])
           (NdArray (1, 3) [1#2; 1#4; 1#3]%Q)
           (NdArray (1, 3) [true; false; false]) (NdArray (1, 3) [false; true; false])
           (0 : rng counter_random)).
  - reflexivity.
  - reflexivity.
  - reflexivity.
  - reflexivity.
  - reflexivity.
  - reflexivity.
  - reflexivity.
  - vm_compute. lia.
Defined.


(** ** The round *)

Section Round.
Context (T : Torch) {R : Random} (B : Builtins) {model : Network (rng R)}.
Implicit Types (self : QuerySelector.t R model) (s : QuerySelector.world R).

Import QuerySelector.

Lemma raise_not_Ok {S A} (e : exn) (s s' : S) (a : A) : raise e s = (Ok a, s') → False.
Proof. unfold raise. discriminate. Qed.

(** With Monte-Carlo dropout the uncertainty map of an image is never
    returned. *)
Lemma get_uncertainty_map_mc_fails self x h w s :
  use_mc_dropout self = true →
  is_ok (get_uncertainty_map T B self x h w s).1 = false.
Proof.
  intros Hmc. unfold get_uncertainty_map. rewrite Hmc.
  unfold bind. destruct (mc_steps _ _ _ _ _ _ _ _ _ s) as [[[u p]|e] s1]; done.
Qed.

Lemma pool_loop_inv self items list_queries n_pixels s list_queries' n_pixels' s' :
  pool_loop T B self items list_queries n_pixels s = (Ok (list_queries', n_pixels'), s') →
  length list_queries' = length list_queries + length items ∧
  n_pixels' = n_pixels + n_pixels_by_us self * length items ∧
  (items ≠ [] → use_mc_dropout self = false).
Proof.
  revert list_queries n_pixels s.
  induction items as [|[batch_ind d] items IH]; intros lq n s H.
  - injection H as <- <- <-. simpl. split_and!; [lia|lia|done].
  - cbn [pool_loop] in H. inv_bind H.
    destruct (x_shape model (x d)) as [h w].
    inv_bind H. inv_bind H. destruct a1 as [uc_map prob].
    inv_bind H. inv_bind H.
    apply zoom_inv_Ok in H4 as (g' & Hsel & ->).
    apply select_queries_count in Hsel.
    inv_bind H. apply IH in H as (Hlen & Hn & _).
    rewrite length_app in Hlen. simpl in *. split_and!; [lia|lia|].
    intros _. destruct (use_mc_dropout self) eqn:Hmc; [exfalso|done].
    pose proof (get_uncertainty_map_mc_fails self a0 h w s1 Hmc) as Hno.
    by rewrite H2 in Hno.
Qed.

(** A run with Monte-Carlo dropout over a pool with at least one image
    raises. *)
Lemma mc_dropout_run_fails self nth_query s :
  use_mc_dropout self = true →
  batches (dataloader self) ≠ [] →
  is_ok (__call__ T B self nth_query s).1 = false.
Proof.
  intros Hmc Hne.
  destruct (__call__ T B self nth_query s) as [[r|e] s'] eqn:H; [exfalso|done].
  unfold __call__ in H. inv_bind H. destruct a as [lq n].
  apply pool_loop_inv in H0 as (_ & _ & Hmc').
  rewrite Hmc' in Hmc; [done|].
  destruct (batches (dataloader self)); done.
Qed.

(** C1, where the code departs from it.  With Monte-Carlo dropout enabled
    no image gets an averaged uncertainty map: once the [mc_n_steps]
    inference steps are done, line 98 reads the unbound name [up_map] and
    raises, so the round over a pool with at least one image raises instead
    of passing an average on to masking and selection. *)
Theorem mc_dropout_unbound_name self x h w s nth_query :
  use_mc_dropout self = true →
  (∀ acc s1,
     mc_steps T B self x h w (mc_n_steps self)
       (NdArray (h, w) (replicate (h * w) 0%Q))
       (NdArray (h, w) (replicate (h * w) (replicate (n_classes self) 0%Q))) s
     = (Ok acc, s1) →
     get_uncertainty_map T B self x h w s = (Raise (UnboundLocalError "up_map"), s1)) ∧
  (batches (dataloader self) ≠ [] →
   is_ok (__call__ T B self nth_query s).1 = false).
Proof.
  intros Hmc. split.
  - intros [u p] s1 Hsteps. unfold get_uncertainty_map. rewrite Hmc.
    by rewrite (bind_Ok _ _ _ _ _ Hsteps).
  - intros Hne. by apply mc_dropout_run_fails.
Qed.

(** C2 (amended). Provided the loop over the pool completes, the round
    raises the assertion error exactly when the pool holds no image, the
    case in which no query mask was collected and no pixel selected.  (The
    assertion tests the number of masks, not of pixels: marking every pixel
    ineligible does not trigger it.) *)
Theorem assertion_iff_empty_pool self nth_query s list_queries n_pixels s1 :
  pool_loop T B self (imap pair (batches (dataloader self))) [] 0 s
    = (Ok (list_queries, n_pixels), s1) →
  ((__call__ T B self nth_query s).1 = Raise (AssertionError "no queries are chosen!")
   ↔ batches (dataloader self) = []) ∧
  (batches (dataloader self) = [] → n_pixels = 0).
Proof.
  intros Hloop.
  apply pool_loop_inv in Hloop as Hinv. destruct Hinv as (Hlen & Hn & _).
  rewrite length_imap in Hlen, Hn. simpl in Hlen, Hn.
  split; [|intros Hempty; rewrite Hempty in Hn; simpl in Hn; lia].
  rewrite <- length_zero_iff_nil, <- Hlen.
  unfold __call__. rewrite (bind_Ok _ _ _ _ _ Hloop).
  unfold bind, with_query_stats, zoom, get, ret, modify, py_assert, lift, raise.
  simpl. destruct list_queries as [|q lq]; simpl; [done|].
  split; [|done].
  destruct (negb _); [|done].
  destruct (forallb _ _); done.
Qed.

End Round.

(** *** Examples of rounds *)

Lemma mc_dropout_unbound_name_witness :
  (∀ acc s1,
     QuerySelector.mc_steps toy_torch toy_builtins (labelled_pixel_pool true)
       (NdArray (1, 1) [[1#2; 1#4; 1#4]%Q] : input toy_model) 1 1 2
       (NdArray (1, 1) (replicate (1 * 1) 0%Q))
       (NdArray (1, 1) (replicate (1 * 1) (replicate 3 0%Q))) (fresh_world 3)
     = (Ok acc, s1) →
     QuerySelector.get_uncertainty_map toy_torch toy_builtins (labelled_pixel_pool true)
       (NdArray (1, 1) [[1#2; 1#4; 1#4]%Q] : input toy_model) 1 1 (fresh_world 3)
     = (Raise (UnboundLocalError "up_map"), s1)) ∧
  is_ok (QuerySelector.__call__ toy_torch toy_builtins (labelled_pixel_pool true) 0
           (fresh_world 3)).1 = false.
Proof.
  destruct (mc_dropout_unbound_name toy_torch toy_builtins (labelled_pixel_pool true)
              (NdArray (1, 1) [[1#2; 1#4; 1#4]%Q] : input toy_model) 1 1
              (fresh_world 3) 0) as [Hname Hrun].
  - reflexivity.
  - split; [exact Hname|]. apply Hrun. discriminate.
Defined.

(** The whole round at that input. *)
Example mc_dropout_round_raises :
  (QuerySelector.__call__ toy_torch toy_builtins (labelled_pixel_pool true) 0
     (fresh_world 3)).1
  = Raise (UnboundLocalError "up_map").
Proof. reflexivity. Qed.

(** C2, as stated, fails: every pixel of the pool is ineligible, and the
    round returns (the labelled pixel is selected again) instead of
    raising. *)
Lemma all_ineligible_round_returns :
  QuerySelector.queries (QuerySelector.dataloader (labelled_pixel_pool false))
  = [NdArray (1, 1) [true]] ∧
  (QuerySelector.__call__ toy_torch toy_builtins (labelled_pixel_pool false) 0
     (fresh_world 3)).1
  = Ok [NdArray (1, 1) [true]].
Proof. split; reflexivity. Qed.

Lemma assertion_iff_empty_pool_witness :
  ((QuerySelector.__call__ toy_torch toy_builtins (labelled_pixel_pool false) 0
      (fresh_world 3)).1 = Raise (AssertionError "no queries are chosen!")
   ↔ QuerySelector.batches (QuerySelector.dataloader (labelled_pixel_pool false)) = []) ∧
  (QuerySelector.batches (QuerySelector.dataloader (labelled_pixel_pool false)) = [] →
   1 = 0).
Proof.
  apply (assertion_iff_empty_pool toy_torch toy_builtins (labelled_pixel_pool false) 0
           (fresh_world 3) [NdArray (1, 1) [true]] 1
           (QuerySelector.pool_loop toy_torch toy_builtins (labelled_pixel_pool false)
              (imap pair (QuerySelector.batches
                            (QuerySelector.dataloader (labelled_pixel_pool false))))
              [] 0 (fresh_world 3)).2).
  apply injective_projections; reflexivity.
Defined.

(** A pool of one void pixel: the pixel is selected although the void mask
    excludes it, and counting its label then fails. *)
Example void_pixel_round_KeyError :
  (QuerySelector.__call__ toy_torch toy_builtins
     (toy_selector "least_confidence" 1 0 false false
        [ {| QuerySelector.x := NdArray (1, 1) [[1#2; 1#4; 1#4]%Q] : input toy_model;
             QuerySelector.y := NdArray (1, 1) [255%Z] |} ]
        [ NdArray (1, 1) [false] ])
     0 (fresh_world 3)).1
  = Raise (KeyError 255).
Proof. reflexivity. Qed.

(** An empty pool: the assertion fails. *)
Example empty_pool_round_raises :
  (QuerySelector.__call__ toy_torch toy_builtins
     (toy_selector "least_confidence" 1 0 false false [] []) 0 (fresh_world 3)).1
  = Raise (AssertionError "no queries are chosen!").
Proof. reflexivity. Qed.


(** ** The statistics of a round *)

Lemma length_filter_zip_mask {A} (a : list A) (mask : list bool) :
  length a = length mask →
  length (filter (λ p : A * bool, p.2 = true) (zip a mask)) = count_true mask.
Proof.
  revert mask. induction a as [|x a IH]; intros [|b mask] Hlen; try done.
  injection Hlen as Hlen. change (zip (x :: a) (b :: mask)) with ((x, b) :: zip a mask).
  rewrite count_true_cons. destruct b.
  - rewrite filter_cons_True by done. simpl. by rewrite IH.
  - rewrite filter_cons_False by done. simpl. by rewrite IH.
Qed.

Lemma select_by_mask_Ok {A} (a : list A) mask :
  length a = length mask →
  ∃ l, select_by_mask a mask = Ok l ∧ length l = count_true mask ∧
       ∀ v, v ∈ l ↔ ∃ i, mask !! i = Some true ∧ a !! i = Some v.
Proof.
  intros Hlen. unfold select_by_mask. rewrite Hlen, Nat.eqb_refl.
  eexists. split; [done|]. split.
  - by rewrite length_fmap, length_filter_zip_mask.
  - intros v. rewrite list_elem_of_fmap. split.
    + intros ([v' b] & -> & [Hb Hin]%list_elem_of_filter). simpl in *. subst b.
      apply list_elem_of_lookup in Hin as [i Hi].
      apply lookup_zip_with_Some in Hi as (x & m & [= <- <-] & Hx & Hm). eauto.
    + intros (i & Hm & Ha). exists (v, true). split; [done|].
      apply list_elem_of_filter. split; [done|].
      apply list_elem_of_lookup. exists i. apply lookup_zip_with_Some. eauto.
Qed.

Lemma select_by_mask_inv {A} (a : list A) mask l :
  select_by_mask a mask = Ok l → length a = length mask.
Proof.
  unfold select_by_mask. destruct (length a =? length mask) eqn:E; [|discriminate].
  intros _. by apply Nat.eqb_eq.
Qed.

Lemma length_true_positions (l : list bool) :
  length (true_positions l) = count_true l.
Proof.
  unfold true_positions.
  by rewrite length_fmap, length_filter_zip_mask by (by rewrite length_seq).
Qed.

Lemma length_np_where (query : ndarray bool) :
  length (np_where query) = count_true (flat query).
Proof. unfold np_where. by rewrite length_fmap, length_true_positions. Qed.

Lemma init_keys_are_classes n_classes :
  keys_are_classes n_classes (QueryStats.__init__ n_classes).
Proof.
  intros l. simpl. rewrite <- not_eq_None_Some, <- not_elem_of_list_to_map.
  rewrite <- list_fmap_compose.
  split.
  - intros H. apply dec_stable in H.
    apply list_elem_of_fmap in H as (k & -> & Hk). simpl.
    apply elem_of_seq in Hk. lia.
  - intros Hl H. apply H. apply list_elem_of_fmap.
    exists (Z.to_nat l). simpl. split; [lia|]. apply elem_of_seq. lia.
Qed.

Lemma label_total_increment (self : QueryStats.t) l c :
  QueryStats.dict_label_cnt self !! l = Some c →
  QueryStats.label_total
    (QueryStats.set_dict_label_cnt (<[l := c + 1]> (QueryStats.dict_label_cnt self)) self)
  = QueryStats.label_total self + 1.
Proof.
  intros Hl. unfold QueryStats.label_total. simpl.
  rewrite (map_fold_delete_L _ _ l c (QueryStats.dict_label_cnt self)); [|lia|done].
  rewrite <- insert_delete_eq.
  rewrite map_fold_insert_L; [lia|lia|apply lookup_delete_eq].
Qed.

(** The counting loop over in-range labels. *)
Lemma count_loop_Ok n_classes labels (self : QueryStats.t) :
  keys_are_classes n_classes self →
  Forall (λ l, 0 ≤ l < Z.of_nat n_classes)%Z labels →
  ∃ self', for_each labels QueryStats.increment self = (Ok tt, self') ∧
           keys_are_classes n_classes self' ∧
           same_lists self self' ∧
           QueryStats.label_total self' = QueryStats.label_total self + length labels.
Proof.
  intros Hkeys Hall. revert self Hkeys.
  induction Hall as [|l labels Hl Hall IH]; intros self Hkeys.
  - exists self. simpl. split_and!; [done|done|by unfold same_lists|lia].
  - destruct (proj2 (Hkeys l) Hl) as [c Hc].
    set (self1 := QueryStats.set_dict_label_cnt
                    (<[l := c + 1]> (QueryStats.dict_label_cnt self)) self).
    destruct (IH self1) as (self' & Hrun & Hkeys' & Hlists & Htotal).
    { intros l'. rewrite <- (Hkeys l'). simpl.
      destruct (decide (l = l')) as [->|Hne].
      - rewrite lookup_insert_eq, Hc. split; eauto.
      - by rewrite lookup_insert_ne. }
    exists self'. split_and!; [|done|done|].
    + cbn [for_each]. unfold bind at 1. unfold QueryStats.increment at 1.
      unfold bind at 1, get. rewrite Hc. unfold put. exact Hrun.
    + rewrite Htotal. unfold self1. rewrite (label_total_increment _ _ _ Hc).
      simpl. lia.
Qed.

(** The counting loop stops at the first label that is no class id. *)
Lemma count_loop_KeyError n_classes labels (self : QueryStats.t) :
  keys_are_classes n_classes self →
  ¬ Forall (λ l, 0 ≤ l < Z.of_nat n_classes)%Z labels →
  ∃ l self', for_each labels QueryStats.increment self = (Raise (KeyError l), self') ∧
             l ∈ labels ∧ ¬ (0 ≤ l < Z.of_nat n_classes)%Z ∧
             keys_are_classes n_classes self' ∧ same_lists self self'.
Proof.
  revert self. induction labels as [|l labels IH]; intros self Hkeys Hbad.
  - exfalso. apply Hbad. constructor.
  - destruct (decide (0 ≤ l < Z.of_nat n_classes)%Z) as [Hl|Hl].
    + destruct (proj2 (Hkeys l) Hl) as [c Hc].
      set (self1 := QueryStats.set_dict_label_cnt
                      (<[l := c + 1]> (QueryStats.dict_label_cnt self)) self).
      destruct (IH self1) as (l' & self' & Hrun & Hin & Hout & Hkeys' & Hlists).
      { intros l'. rewrite <- (Hkeys l'). simpl.
        destruct (decide (l = l')) as [->|Hne].
        - rewrite lookup_insert_eq, Hc. split; eauto.
        - by rewrite lookup_insert_ne. }
      { intros Hall. apply Hbad. by constructor. }
      exists l', self'. split_and!; [|by right|done|done|done].
      cbn [for_each]. unfold bind at 1. unfold QueryStats.increment at 1.
      unfold bind at 1, get. rewrite Hc. unfold put. exact Hrun.
    + exists l, self. split_and!; [|by left|done|done|by unfold same_lists].
      assert (QueryStats.dict_label_cnt self !! l = None) as Hnone.
      { apply eq_None_not_Some. by rewrite (Hkeys l). }
      cbn [for_each]. unfold bind at 1. unfold QueryStats.increment at 1.
      unfold bind at 1, get. by rewrite Hnone.
Qed.

Lemma count_loop_keys n_classes labels (self : QueryStats.t) r self' :
  keys_are_classes n_classes self →
  for_each labels QueryStats.increment self = (r, self') →
  keys_are_classes n_classes self' ∧ same_lists self self'.
Proof.
  intros Hkeys Hrun.
  destruct (decide (Forall (λ l, 0 ≤ l < Z.of_nat n_classes)%Z labels)) as [Hall|Hbad].
  - destruct (count_loop_Ok n_classes labels self Hkeys Hall)
      as (self1 & Hrun1 & Hkeys1 & Hlists1 & _).
    rewrite Hrun in Hrun1. by injection Hrun1 as -> ->.
  - destruct (count_loop_KeyError n_classes labels self Hkeys Hbad)
      as (l & self1 & Hrun1 & _ & _ & Hkeys1 & Hlists1).
    rewrite Hrun in Hrun1. by injection Hrun1 as -> ->.
Qed.

Lemma spatial_coverage_total (query : ndarray bool) :
  ∃ c, QueryStats._spatial_coverage query = Ok c.
Proof.
  unfold QueryStats._spatial_coverage, reshape_rows.
  destruct (length _ =? 0); [by eexists|].
  destruct (_ =? 0); by eexists.
Qed.

Lemma label_total_init n_classes :
  QueryStats.label_total (QueryStats.__init__ n_classes) = 0.
Proof.
  unfold QueryStats.label_total. simpl.
  set (m := list_to_map _).
  assert (∀ k v, m !! k = Some v → v = 0) as Hzero.
  { intros k v Hk. apply elem_of_list_to_map_2 in Hk.
    by apply list_elem_of_fmap in Hk as (i & [= _ ->] & _). }
  revert Hzero. generalize m. clear m. intros m.
  apply (map_fold_weak_ind
           (λ r (m : gmap Z nat), (∀ k v, m !! k = Some v → v = 0) → r = 0)); [done|].
  intros k v m' r Hk IH Hzero.
  rewrite (Hzero k v) by apply lookup_insert_eq.
  rewrite IH; [done|]. intros k' v' Hk'. apply (Hzero k').
  rewrite lookup_insert_ne; [done|]. intros ->. congruence.
Qed.

Section Update.
Context (T : Torch).
Implicit Types (self : QueryStats.t) (query : ndarray bool) (y : ndarray Z)
  (prob : prob_tensor).

(** The three appends of [update] leave the histogram alone. *)
Lemma update_Ok n_classes query y prob self :
  keys_are_classes n_classes self →
  labels_in_classes n_classes (query, y, prob) →
  ∃ self' c,
    QueryStats.update T query y prob self = (Ok tt, self') ∧
    keys_are_classes n_classes self' ∧
    QueryStats.label_total self' = QueryStats.label_total self + count_true (flat query) ∧
    QueryStats._spatial_coverage query = Ok c ∧
    QueryStats.list_spatial_coverage self'
    = QueryStats.list_spatial_coverage self ++ [c].
Proof.
  intros Hkeys (Hy & Hp & Hrange).
  destruct (select_by_mask_Ok (flat y) (flat query) Hy) as (labels & Hsel & Hlen & Hin).
  destruct (count_loop_Ok n_classes labels self Hkeys)
    as (self1 & Hrun & Hkeys1 & (_ & _ & Hcov) & Htotal).
  { apply Forall_forall. intros l (i & Hq & Hl)%Hin.
    assert ((true, l) ∈ zip (flat query) (flat y)) as Hzip.
    { apply list_elem_of_lookup. exists i. apply lookup_zip_with_Some. eauto. }
    eapply Forall_forall in Hrange; [|exact Hzip]. by apply Hrange. }
  destruct (select_by_mask_Ok
              (flat (nd_map (UncertaintySampler.entropy_px T) prob)) (flat query))
    as (ents & Hents & _); [simpl; by rewrite length_fmap|].
  destruct (spatial_coverage_total query) as [c Hc].
  eexists _, c. split_and!; [| | |done|].
  - unfold QueryStats.update, QueryStats._count_labels, QueryStats._get_entropy,
      QueryStats._n_unique_labels.
    unfold bind, lift, modify. rewrite Hsel, Hrun, Hents, Hc. simpl. reflexivity.
  - done.
  - unfold QueryStats.label_total in *. simpl. lia.
  - simpl. by rewrite Hcov.
Qed.

Lemma update_inv n_classes query y prob self self' :
  keys_are_classes n_classes self →
  QueryStats.update T query y prob self = (Ok tt, self') →
  keys_are_classes n_classes self' ∧
  ∃ c, QueryStats._spatial_coverage query = Ok c ∧
       QueryStats.list_spatial_coverage self'
       = QueryStats.list_spatial_coverage self ++ [c].
Proof.
  intros Hkeys H. unfold QueryStats.update in H.
  inv_bind H. unfold QueryStats._count_labels in H0. inv_bind H0.
  apply lift_inv_Ok in H1 as [_ ->].
  apply (count_loop_keys n_classes) in H0 as [Hkeys1 (_ & _ & Hcov)]; [|done].
  inv_bind H. apply lift_inv_Ok in H0 as [_ ->].
  inv_bind H. injection H0 as _ <-.
  inv_bind H. apply lift_inv_Ok in H0 as [_ ->].
  inv_bind H. injection H0 as _ <-.
  apply bind_inv_Ok in H as (c & ? & H0 & H). apply lift_inv_Ok in H0 as [Hc ->].
  injection H as <-. simpl. split; [done|].
  exists c. by rewrite Hcov.
Qed.

(** An [update] whose mask selects a label outside the class ids stops in
    the counting step. *)
Lemma update_KeyError n_classes query y prob self :
  keys_are_classes n_classes self →
  length (flat y) = length (flat query) →
  (∃ i l, flat query !! i = Some true ∧ flat y !! i = Some l ∧
          ¬ (0 ≤ l < Z.of_nat n_classes)%Z) →
  ∃ l self',
    QueryStats.update T query y prob self = (Raise (KeyError l), self') ∧
    ¬ (0 ≤ l < Z.of_nat n_classes)%Z ∧
    (∃ i, flat query !! i = Some true ∧ flat y !! i = Some l) ∧
    same_lists self self'.
Proof.
  intros Hkeys Hy (i & l & Hq & Hl & Hout).
  destruct (select_by_mask_Ok (flat y) (flat query) Hy) as (labels & Hsel & _ & Hin).
  destruct (count_loop_KeyError n_classes labels self Hkeys)
    as (l' & self' & Hrun & Hl' & Hout' & _ & Hlists).
  { intros Hall. apply Hout. eapply Forall_forall in Hall; [exact Hall|].
    apply Hin. eauto. }
  exists l', self'. split_and!; [|done|by apply Hin|done].
  unfold QueryStats.update, QueryStats._count_labels.
  unfold bind, lift. by rewrite Hsel, Hrun.
Qed.

Lemma round_updates_keys n_classes images self self' :
  keys_are_classes n_classes self →
  round_updates T images self = (Ok tt, self') →
  keys_are_classes n_classes self'.
Proof.
  revert self. induction images as [|[[query y] prob] images IH]; intros self Hkeys H.
  - by injection H as <-.
  - unfold round_updates in H. cbn [for_each] in H. inv_bind H. destruct a.
    apply (update_inv n_classes) in H0 as [Hkeys1 _]; [|done].
    by eapply IH.
Qed.

Lemma round_updates_total n_classes images self :
  keys_are_classes n_classes self →
  Forall (labels_in_classes n_classes) images →
  ∃ self',
    round_updates T images self = (Ok tt, self') ∧
    QueryStats.label_total self'
    = QueryStats.label_total self
      + sum_list ((λ image, count_true (flat image.1.1)) <$> images).
Proof.
  intros Hkeys Hall. revert self Hkeys.
  induction Hall as [|[[query y] prob] images Himg Hall IH]; intros self Hkeys.
  - exists self. simpl. split; [done|lia].
  - destruct (update_Ok n_classes query y prob self Hkeys Himg)
      as (self1 & c & Hupd & Hkeys1 & Htotal & _).
    destruct (IH self1 Hkeys1) as (self' & Hrun & Htotal').
    exists self'. split.
    + unfold round_updates. cbn [for_each].
      by rewrite (bind_Ok _ _ _ _ _ Hupd).
    + rewrite Htotal', Htotal, fmap_cons. cbn. lia.
Qed.

End Update.

(** C7. After any sequence of [update] calls of a round, each with a mask
    whose selected pixels carry in-range class ids, the histogram's counts
    sum to the number of true mask entries over all images processed. *)
Theorem histogram_sums_to_selected (T : Torch) (n_classes : nat)
    (images : list (ndarray bool * ndarray Z * prob_tensor)) :
  Forall (labels_in_classes n_classes) images →
  ∃ self',
    round_updates T images (QueryStats.__init__ n_classes) = (Ok tt, self') ∧
    QueryStats.label_total self'
    = sum_list ((λ image, count_true (flat image.1.1)) <$> images).
Proof.
  intros Hall.
  destruct (round_updates_total T n_classes images (QueryStats.__init__ n_classes))
    as (self' & Hrun & Htotal); [apply init_keys_are_classes|done|].
  exists self'. split; [done|]. by rewrite Htotal, label_total_init.
Qed.

Lemma histogram_sums_to_selected_witness :
  ∃ self',
    round_updates toy_torch two_images (QueryStats.__init__ 3) = (Ok tt, self') ∧
    QueryStats.label_total self' = 3.
Proof.
  apply (histogram_sums_to_selected toy_torch 3 two_images).
  apply (bool_decide_unpack _). vm_compute. exact I.
Defined.

(** C10. Once the round's earlier updates are done, an [update] whose mask
    selects a pixel with a class id outside [0 .. n_classes - 1] (such as the
    void label) raises [KeyError] in the label-count step; the update is
    aborted, nothing is appended to the three lists. *)
Theorem out_of_range_label_KeyError (T : Torch) (n_classes : nat)
    (images : list (ndarray bool * ndarray Z * prob_tensor))
    (self : QueryStats.t) (query : ndarray bool) (y : ndarray Z) (prob : prob_tensor) :
  round_updates T images (QueryStats.__init__ n_classes) = (Ok tt, self) →
  length (flat y) = length (flat query) →
  (∃ i l, flat query !! i = Some true ∧ flat y !! i = Some l ∧
          ¬ (0 ≤ l < Z.of_nat n_classes)%Z) →
  ∃ l self',
    QueryStats.update T query y prob self = (Raise (KeyError l), self') ∧
    ¬ (0 ≤ l < Z.of_nat n_classes)%Z ∧
    (∃ i, flat query !! i = Some true ∧ flat y !! i = Some l) ∧
    same_lists self self'.
Proof.
  intros Hrun Hy Hbad.
  apply (update_KeyError T n_classes); [|done..].
  eapply round_updates_keys; [apply init_keys_are_classes|exact Hrun].
Qed.

Lemma out_of_range_label_KeyError_witness :
  ∃ l self',
    QueryStats.update toy_torch (NdArray (1, 2) [true; true])
      (NdArray (1, 2) [255; 2]%Z)
      (NdArray (1, 2) [[1#2; 1#4; 1#4]; [1#3; 1#3; 1#3]]%Q) (QueryStats.__init__ 3)
    = (Raise (KeyError l), self') ∧
    ¬ (0 ≤ l < Z.of_nat 3)%Z ∧
    (∃ i, flat (NdArray (1, 2) [true; true]) !! i = Some true ∧
          flat (NdArray (1, 2) [255; 2]%Z) !! i = Some l) ∧
    same_lists (QueryStats.__init__ 3) self'.
Proof.
  apply (out_of_range_label_KeyError toy_torch 3 [] (QueryStats.__init__ 3)).
  - reflexivity.
  - reflexivity.
  - exists 0, 255%Z. simpl. split; [reflexivity|]. split; [reflexivity|lia].
Defined.

(** At that input the missing key is the void label. *)
Example void_label_KeyError :
  (QueryStats.update toy_torch (NdArray (1, 2) [true; true])
     (NdArray (1, 2) [255; 2]%Z)
     (NdArray (1, 2) [[1#2; 1#4; 1#4]; [1#3; 1#3; 1#3]]%Q) (QueryStats.__init__ 3)).1
  = Raise (KeyError 255).
Proof. reflexivity. Qed.


(** ** Dispatch on the strategy name *)

Lemma traverse_Raise {A B} (f : A → result B) l e :
  traverse f l = Raise e → ∃ a, a ∈ l ∧ f a = Raise e.
Proof.
  induction l as [|a l IH]; [done|]. simpl.
  destruct (f a) as [b|e'] eqn:Hfa; simpl.
  - destruct (traverse f l) as [bs|e'']; [done|]. simpl. intros [= ->].
    destruct IH as (a' & Hin & Ha'); [done|]. exists a'. split; [by right|done].
  - intros [= ->]. exists a. split; [by left|done].
Qed.

Lemma Qmax_list_Raise l e : Qmax_list l = Raise e → e = IndexError.
Proof.
  induction l as [|a l IH]; simpl; [by intros [= <-]|].
  destruct l as [|a' l]; [done|].
  destruct (Qmax_list (a' :: l)) as [m|e']; simpl; [done|].
  intros [= ->]. by apply IH.
Qed.

Section Dispatch.
Context (T : Torch) {R : Random} (B : Builtins).

Import UncertaintySampler.

Lemma least_confidence_Raise prob e :
  _least_confidence prob = Raise e → e = IndexError.
Proof.
  unfold _least_confidence, nd_traverse.
  destruct (traverse _ (flat prob)) as [l|e'] eqn:Htr; [done|]. simpl.
  intros [= ->]. apply traverse_Raise in Htr as (p & _ & Hp).
  destruct (Qmax_list p) as [m|e''] eqn:Hm; [done|]. simpl in Hp.
  injection Hp as ->. by eapply Qmax_list_Raise.
Qed.

Lemma margin_sampling_Raise prob e :
  _margin_sampling T prob = Raise e → e = IndexError ∨ e = RuntimeError.
Proof.
  unfold _margin_sampling, nd_traverse.
  destruct (traverse _ (flat prob)) as [l|e'] eqn:Htr; [done|]. simpl.
  intros [= ->]. apply traverse_Raise in Htr as (p & _ & Hp).
  unfold margin_px in Hp.
  destruct (torch_topk_cases T p 2 true) as [[inds Hinds]|Hraise].
  - rewrite Hinds in Hp. simpl in Hp.
    destruct inds as [|i0 [|i1 [|i2 inds]]]; try (injection Hp as <-; by right).
    destruct (p !! i0), (p !! i1); try done; injection Hp as <-; by left.
  - rewrite Hraise in Hp. injection Hp as <-. by right.
Qed.

Lemma not_prefixed_underscore (s : string) :
  String.prefix "_" s = false → ∀ s', String.eqb s (String "_"%char s') = false.
Proof.
  intros Hp s'. apply String.eqb_neq. intros ->. simpl in Hp.
  by destruct s'.
Qed.

(** C8 (amended). Constructing the sampler never fails.  For a strategy
    name outside the four recognized ones that does not begin with an
    underscore, the first call raises [AttributeError] (the error the
    specification calls UnsupportedStrategy); for the four recognized names
    no such error occurs. *)
Theorem unknown_strategy_AttributeError (s : string) (prob : prob_tensor) (g : rng R) :
  ∃ self,
    __init__ s = Ok self ∧
    (s ∉ recognized_strategies → String.prefix "_" s = false →
     (__call__ T B self prob g).1 = Raise (AttributeError ("_" +:+ s))) ∧
    (s ∈ recognized_strategies →
     ∀ name, (__call__ T B self prob g).1 ≠ Raise (AttributeError name)).
Proof.
  eexists. split; [reflexivity|]. split.
  - intros Hout Hp.
    assert (∀ r, r ∈ recognized_strategies → String.eqb s r = false) as Hne.
    { intros r Hr. apply String.eqb_neq. by intros ->. }
    unfold __call__, bind, lift, getattr. cbn [query_strategy].
    change ("_" +:+ s) with (String "_"%char s). simpl.
    rewrite (not_prefixed_underscore s Hp "init__").
    rewrite (not_prefixed_underscore s Hp "call__").
    rewrite !Hne by (unfold recognized_strategies; set_solver).
    destruct (builtin B (String "_"%char s)) eqn:Hb; [|done].
    apply builtin_dunder in Hb. simpl in Hb. congruence.
  - unfold recognized_strategies. intros Hin name.
    repeat (apply elem_of_cons in Hin as [->|Hin]); [| | | |by apply elem_of_nil in Hin].
    + done.
    + unfold __call__, bind, lift, getattr. simpl.
      destruct (_least_confidence prob) as [u|e] eqn:Hlc; [done|].
      apply least_confidence_Raise in Hlc as ->. done.
    + unfold __call__, bind, lift, getattr. simpl.
      destruct (_margin_sampling T prob) as [u|e] eqn:Hm; [done|].
      apply margin_sampling_Raise in Hm as [-> | ->]; done.
    + unfold __call__, bind, lift, getattr, _random. simpl.
      destruct (shape prob) as [h w].
      destruct (rand_unit_interval R (h * w) g) as (l & Hl & _).
      unfold bind. destruct (torch_rand R (h * w) g) as [r g']. simpl in Hl.
      by subst r.
Qed.

End Dispatch.

(** C8, as stated, fails: the name ["_init__"] is none of the four, yet
    neither the construction nor the first call raises; the lookup of
    ["__init__"] finds the constructor, which returns [None]. *)
Lemma init_strategy_not_rejected :
  UncertaintySampler.__init__ "_init__"
  = Ok {| UncertaintySampler.query_strategy := "_init__" |} ∧
  (UncertaintySampler.__call__ toy_torch toy_builtins
     {| UncertaintySampler.query_strategy := "_init__" |}
     (NdArray (1, 1) [[1#2; 1#4; 1#4]%Q]) (0 : rng counter_random)).1
  = Ok NoneValue.
Proof. split; reflexivity. Qed.

Lemma unknown_strategy_AttributeError_witness :
  (UncertaintySampler.__call__ toy_torch toy_builtins
     {| UncertaintySampler.query_strategy := "bald" |}
     (NdArray (1, 1) [[1#2; 1#4; 1#4]%Q]) (0 : rng counter_random)).1
  = Raise (AttributeError "_bald").
Proof.
  destruct (unknown_strategy_AttributeError toy_torch toy_builtins "bald"
              (NdArray (1, 1) [[1#2; 1#4; 1#4]%Q]) (0 : rng counter_random))
    as (self & Hinit & Hunknown & _).
  injection Hinit as <-. apply Hunknown.
  - unfold recognized_strategies. intros Hin.
    repeat (apply elem_of_cons in Hin as [Hin|Hin]; [discriminate Hin|]).
    by apply elem_of_nil in Hin.
  - reflexivity.
Defined.


(** ** Spatial coverage *)

Lemma Rsum_cons a l : Rsum (a :: l) = (a + Rsum l)%R.
Proof. reflexivity. Qed.

Lemma Rsum_app l1 l2 : Rsum (l1 ++ l2) = (Rsum l1 + Rsum l2)%R.
Proof. induction l1 as [|a l1 IH]; simpl; [lra|]. rewrite IH. lra. Qed.

Lemma np_sum_cons a l : np_sum (a :: l) = np_add a (np_sum l).
Proof. reflexivity. Qed.

Lemma np_sum_Num l : np_sum (Num <$> l) = Num (Rsum l).
Proof.
  induction l as [|a l IH]; [done|].
  by rewrite fmap_cons, np_sum_cons, IH.
Qed.

Lemma np_mean_Num l :
  l ≠ [] → np_mean (Num <$> l) = Num (Rsum l / INR (length l)).
Proof.
  intros Hl. unfold np_mean. rewrite np_sum_Num, length_fmap.
  by destruct l.
Qed.

Lemma np_sum_NaN l : NaN ∈ l → np_sum l = NaN.
Proof.
  induction l as [|a l IH]; [by intros ?%elem_of_nil|].
  intros [<-|Hin]%elem_of_cons; [done|].
  rewrite np_sum_cons, IH by done. by destruct a.
Qed.

Lemma np_mean_NaN l : NaN ∈ l → np_mean l = NaN.
Proof.
  intros Hin. unfold np_mean. rewrite np_sum_NaN by done.
  by destruct l.
Qed.

Lemma euclid_sym p q : euclid p q = euclid q p.
Proof. unfold euclid. do 2 f_equal. ring. Qed.

Lemma cross_nil_l l : cross [] l = 0%R.
Proof. reflexivity. Qed.

Lemma cross_cons_l p l1 l2 :
  cross (p :: l1) l2 = (Rsum (euclid p <$> l2) + cross l1 l2)%R.
Proof. reflexivity. Qed.

Lemma cross_nil_r l : cross l [] = 0%R.
Proof.
  induction l as [|p l IH]; [done|]. rewrite cross_cons_l, IH. simpl. lra.
Qed.

Lemma cross_app_r l1 l2 l3 : cross l1 (l2 ++ l3) = (cross l1 l2 + cross l1 l3)%R.
Proof.
  induction l1 as [|p l1 IH]; [rewrite !cross_nil_l; lra|].
  rewrite !cross_cons_l, IH, fmap_app, Rsum_app. lra.
Qed.

Lemma cross_singleton_r l p : cross l [p] = Rsum (euclid p <$> l).
Proof.
  induction l as [|q l IH]; [done|].
  rewrite cross_cons_l, IH, !fmap_cons, fmap_nil, !Rsum_cons, (euclid_sym q p).
  change (Rsum []) with 0%R. lra.
Qed.

Lemma pair_sum_cons p l : pair_sum (p :: l) = (Rsum (euclid p <$> l) + pair_sum l)%R.
Proof.
  unfold pair_sum. simpl. rewrite fmap_app, Rsum_app, <- list_fmap_compose. done.
Qed.

Lemma length_pairs {A} (l : list A) : 2 * length (pairs l) = length l * (length l - 1).
Proof.
  induction l as [|a l IH]; [done|]. simpl.
  rewrite length_app, length_fmap. destruct l; simpl in *; nia.
Qed.

(** The off-diagonal entries of the rows [post] of the distance matrix over
    [pre ++ post], the diagonal of row [i] being at column [length pre + i]. *)
Lemma off_diagonal_rows pre post :
  let off := concat (imap (λ i row, delete (length pre + i) row)
                       ((λ p, euclid p <$> (pre ++ post)) <$> post)) in
  Rsum off = (cross post pre + 2 * pair_sum post)%R ∧
  length off = length post * (length pre + length post - 1).
Proof.
  revert pre. induction post as [|p post IH]; intros pre.
  - simpl. rewrite cross_nil_l. unfold pair_sum. simpl. split; [lra|done].
  - cbn zeta. rewrite fmap_cons, imap_cons, concat_cons.
    rewrite Nat.add_0_r, fmap_app, fmap_cons.
    assert (delete (length pre) ((euclid p <$> pre) ++ euclid p p :: (euclid p <$> post))
            = (euclid p <$> pre) ++ (euclid p <$> post)) as ->.
    { rewrite <- (length_fmap (euclid p) pre) at 1. apply delete_middle. }
    rewrite (imap_ext _ (λ i row, delete (length (pre ++ [p]) + i) row)).
    2:{ intros i row _. simpl. rewrite length_app. simpl. f_equal. lia. }
    rewrite (cons_middle p pre post).
    destruct (IH (pre ++ [p])) as [Hsum Hlen]. cbn zeta in Hsum, Hlen.
    rewrite <- !(assoc_L (++)) in Hsum, Hlen.
    set (rest := concat _) in *.
    split.
    + rewrite !Rsum_app, Hsum, cross_app_r, cross_singleton_r, pair_sum_cons, cross_cons_l.
      lra.
    + rewrite !length_app, !length_fmap, Hlen, length_app. simpl. nia.
Qed.

Lemma off_diagonal_dist locs :
  let dist := (λ p, euclid p <$> locs) <$> locs in
  Rsum (QueryStats.off_diagonal dist) = (2 * pair_sum locs)%R ∧
  length (QueryStats.off_diagonal dist) = length locs * (length locs - 1).
Proof.
  destruct (off_diagonal_rows [] locs) as [Hsum Hlen].
  cbn zeta. unfold QueryStats.off_diagonal.
  change (λ (i : nat) (row : list R), delete (length (@nil (Z * Z)) + i) row)
    with (λ (i : nat) (row : list R), delete i row) in *.
  change ([] ++ locs) with locs in *.
  split.
  - rewrite Hsum, cross_nil_r. lra.
  - rewrite Hlen. done.
Qed.

Lemma spatial_coverage_degenerate (query : ndarray bool) :
  count_true (flat query) < 2 → QueryStats._spatial_coverage query = Ok NaN.
Proof.
  rewrite <- length_np_where. unfold QueryStats._spatial_coverage.
  destruct (np_where query) as [|p [|p' locs]]; simpl; [done|done|lia].
Qed.

Lemma spatial_coverage_mean (query : ndarray bool) :
  2 ≤ count_true (flat query) →
  QueryStats._spatial_coverage query
  = Ok (Num (mean_pairwise_distance (np_where query))).
Proof.
  rewrite <- length_np_where. unfold QueryStats._spatial_coverage.
  set (locs := np_where query). intros Hn.
  destruct (off_diagonal_dist locs) as [Hsum Hlen]. cbn zeta in Hsum, Hlen.
  set (off := QueryStats.off_diagonal _) in *.
  pose proof (length_pairs locs) as Hpairs.
  unfold reshape_rows. rewrite length_fmap.
  destruct (length locs =? 0) eqn:E0; [apply Nat.eqb_eq in E0; lia|].
  assert (length off mod length locs = 0) as ->.
  { rewrite Hlen, Nat.mul_comm. apply Nat.Div0.mod_mul. }
  simpl. do 2 f_equal.
  assert (off ≠ []) as Hoff.
  { intros Hnil. rewrite Hnil in Hlen. simpl in Hlen. nia. }
  rewrite np_mean_Num by done. f_equal.
  unfold mean_pairwise_distance. fold (pair_sum locs). rewrite Hsum.
  assert (INR (length off) = (2 * INR (length (pairs locs)))%R) as ->.
  { rewrite Hlen, <- Hpairs, mult_INR. simpl. lra. }
  assert (0 < INR (length (pairs locs)))%R as Hpos.
  { apply lt_0_INR. nia. }
  field. lra.
Qed.

Lemma count_loop_lists labels (self : QueryStats.t) r self' :
  for_each labels QueryStats.increment self = (r, self') → same_lists self self'.
Proof.
  revert self. induction labels as [|l labels IH]; intros self H.
  - injection H as _ <-. by unfold same_lists.
  - cbn [for_each] in H. unfold bind at 1 in H.
    unfold QueryStats.increment at 1 in H. unfold bind at 1, get in H.
    destruct (QueryStats.dict_label_cnt self !! l) as [c|].
    + unfold put in H. by apply IH in H.
    + unfold raise in H. injection H as _ <-. by unfold same_lists.
Qed.

Lemma update_coverage (T : Torch) query y prob (self self' : QueryStats.t) :
  QueryStats.update T query y prob self = (Ok tt, self') →
  ∃ c, QueryStats._spatial_coverage query = Ok c ∧
       QueryStats.list_spatial_coverage self'
       = QueryStats.list_spatial_coverage self ++ [c].
Proof.
  intros H. unfold QueryStats.update in H.
  apply bind_inv_Ok in H as (? & self1 & Hcount & H).
  unfold QueryStats._count_labels in Hcount.
  apply bind_inv_Ok in Hcount as (labels & ? & Hsel & Hcount).
  apply lift_inv_Ok in Hsel as [_ ->].
  apply count_loop_lists in Hcount as (_ & _ & Hcov).
  apply bind_inv_Ok in H as (ents & ? & Hents & H). apply lift_inv_Ok in Hents as [_ ->].
  apply bind_inv_Ok in H as (? & ? & Hmod & H). injection Hmod as _ <-.
  apply bind_inv_Ok in H as (n & ? & Hn & H). apply lift_inv_Ok in Hn as [_ ->].
  apply bind_inv_Ok in H as (? & ? & Hmod & H). injection Hmod as _ <-.
  apply bind_inv_Ok in H as (c & ? & Hc & H). apply lift_inv_Ok in Hc as [Hc ->].
  injection H as <-. exists c. split; [done|]. simpl. by rewrite Hcov.
Qed.

Lemma round_updates_coverage (T : Torch) images (self self' : QueryStats.t) :
  round_updates T images self = (Ok tt, self') →
  ∃ cs, QueryStats.list_spatial_coverage self'
        = QueryStats.list_spatial_coverage self ++ cs ∧
        Forall2 (λ image c, QueryStats._spatial_coverage image.1.1 = Ok c) images cs.
Proof.
  revert self. induction images as [|[[query y] prob] images IH]; intros self H.
  - injection H as <-. exists []. by rewrite app_nil_r.
  - unfold round_updates in H. cbn [for_each] in H.
    apply bind_inv_Ok in H as ([] & self1 & Hupd & H).
    apply update_coverage in Hupd as (c & Hc & Hcov).
    apply IH in H as (cs & Hcov' & Hall).
    exists (c :: cs). split; [|by constructor].
    by rewrite Hcov', Hcov, <- (assoc_L (++)).
Qed.

(** C9. A mask with fewer than 2 true pixels has spatial coverage NaN
    (no error is raised), and a round that contains such an image has the
    average coverage NaN; with 2 or more selected pixels the coverage is the
    mean pairwise Euclidean distance of the selected coordinates.  (Floats
    are read as real numbers extended by NaN.) *)
Theorem spatial_coverage_NaN_or_mean (T : Torch) :
  (∀ query, count_true (flat query) < 2 →
            QueryStats._spatial_coverage query = Ok NaN) ∧
  (∀ images self self',
     round_updates T images self = (Ok tt, self') →
     Exists (λ image, count_true (flat image.1.1) < 2) images →
     QueryStats.avg_spatial_coverage (QueryStats.save self') = NaN) ∧
  (∀ query, 2 ≤ count_true (flat query) →
            QueryStats._spatial_coverage query
            = Ok (Num (mean_pairwise_distance (np_where query)))).
Proof.
  split; [apply spatial_coverage_degenerate|]. split; [|apply spatial_coverage_mean].
  intros images self self' Hrun Hex.
  apply round_updates_coverage in Hrun as (cs & Hcov & Hall).
  simpl. apply np_mean_NaN. rewrite Hcov. apply elem_of_app. right.
  apply Exists_exists in Hex as (image & Hin & Hfew).
  apply list_elem_of_lookup in Hin as [i Hi].
  destruct (Forall2_lookup_l _ _ _ _ _ Hall Hi) as (c & Hc & Hcov_i).
  rewrite spatial_coverage_degenerate in Hcov_i by done. injection Hcov_i as <-.
  by eapply list_elem_of_lookup_2.
Qed.

Lemma spatial_coverage_NaN_or_mean_witness :
  QueryStats._spatial_coverage (NdArray (1, 2) [false; true]) = Ok NaN ∧
  QueryStats.avg_spatial_coverage
    (QueryStats.save (round_updates toy_torch two_images (QueryStats.__init__ 3)).2)
  = NaN ∧
  QueryStats._spatial_coverage (NdArray (1, 2) [true; true])
  = Ok (Num (mean_pairwise_distance (np_where (NdArray (1, 2) [true; true])))).
Proof.
  destruct (spatial_coverage_NaN_or_mean toy_torch) as (Hfew & Havg & Hmean).
  split; [|split].
  - apply Hfew. vm_compute. lia.
  - apply (Havg two_images (QueryStats.__init__ 3)).
    + apply injective_projections; reflexivity.
    + apply Exists_cons_tl, Exists_cons_hd. vm_compute. lia.
  - apply Hmean. vm_compute. lia.
Defined.


(** ** Further properties of the selection routine *)

Section Budget.
Context (T : Torch) {R : Random} {model : Network (rng R)}.
Implicit Types (self : QuerySelector.t R model) (uc_map : ndarray Q).

Import QuerySelector.

(** X2. The budget invariant: in every mode, a mask that [_select_queries]
    returns has the shape of the uncertainty map and exactly
    [n_pixels_by_us] true entries. *)
Theorem returned_mask_has_budget_entries self uc_map g query g' :
  _select_queries T self uc_map g = (Ok query, g') →
  shape query = shape uc_map ∧
  well_shaped query ∧
  count_true (flat query) = n_pixels_by_us self.
Proof.
  intros H. split_and!.
  - by apply select_queries_inv in H as [? _].
  - by eapply select_queries_well_shaped.
  - by eapply select_queries_count.
Qed.

(** X3. Direct mode with a percentage budget: when the candidate pool is smaller
    than [n_pixels_by_us], drawing the sample raises [ValueError]. *)
Theorem percentage_pool_too_small self uc_map g :
  reverse_order self = false →
  (0 < top_n_percent self)%Q →
  candidate_k self (shape uc_map).1 (shape uc_map).2 ≤ length (flat uc_map) →
  candidate_k self (shape uc_map).1 (shape uc_map).2 < n_pixels_by_us self →
  (_select_queries T self uc_map g).1 = Raise ValueError.
Proof.
  intros Hrev Hp Hk Hfew. apply Qltb_lt in Hp.
  unfold _select_queries. destruct (shape uc_map) as [h w]. simpl in *.
  rewrite Hrev.
  destruct (topk_in_range T (flat uc_map) (candidate_k self h w) (largest self) Hk)
    as (inds & Htopk & Hspec).
  unfold bind, lift. rewrite Htopk, Hp.
  pose proof (choice_too_large R inds (n_pixels_by_us self) g) as Hraise.
  rewrite (topk_length _ _ _ _ Hspec) in Hraise. specialize (Hraise Hfew).
  destruct (np_random_choice R inds (n_pixels_by_us self) g) as [r g1].
  simpl in Hraise. by subst r.
Qed.

End Budget.

Lemma returned_mask_has_budget_entries_witness :
  shape (NdArray (2, 2) [false; false; false; true]) = (2, 2) ∧
  well_shaped (NdArray (2, 2) [false; false; false; true]) ∧
  count_true (flat (NdArray (2, 2) [false; false; false; true])) = 1.
Proof.
  apply (returned_mask_has_budget_entries toy_torch
           (toy_selector "margin_sampling" 1 (1#2) false false [] [])
           (NdArray (2, 2) [1#2; 1#4; 2#3; 1#8]%Q) (0 : rng counter_random)
           (NdArray (2, 2) [false; false; false; true]) 1).
  reflexivity.
Defined.

Lemma percentage_pool_too_small_witness :
  (QuerySelector._select_queries toy_torch
     (toy_selector "margin_sampling" 3 (1#2) false false [] [])
     (NdArray (2, 2) [1#2; 1#4; 2#3; 1#8]%Q) (0 : rng counter_random)).1
  = Raise ValueError.
Proof.
  apply (percentage_pool_too_small toy_torch
           (toy_selector "margin_sampling" 3 (1#2) false false [] [])
           (NdArray (2, 2) [1#2; 1#4; 2#3; 1#8]%Q) (0 : rng counter_random)).
  - reflexivity.
  - reflexivity.
  - vm_compute. lia.
  - vm_compute. lia.
Defined.

(** * Further properties of the code *)

(** ** Ranking and errors of the selection routine *)

Section SelectionOrder.
Context (T : Torch) {R : Random} {model : Network (rng R)}.
Implicit Types (self : QuerySelector.t R model) (uc_map : ndarray Q).

Import QuerySelector.

Lemma select_queries_budget_fits self uc_map g query g' :
  _select_queries T self uc_map g = (Ok query, g') →
  n_pixels_by_us self ≤ (shape uc_map).1 * (shape uc_map).2.
Proof.
  intros H. apply select_queries_inv in H as (_ & inds & _ & Hnd & <- & Hlt).
  assert (length inds ≤ length (seq 0 ((shape uc_map).1 * (shape uc_map).2))) as Hle.
  { apply submseteq_length, NoDup_submseteq; [done|].
    intros i Hi. apply elem_of_seq. specialize (Hlt i Hi). lia. }
  by rewrite length_seq in Hle.
Qed.

(** X4. Direct mode with the absolute budget ranks by score: no pixel left
    out of the mask ranks strictly above a selected one (for entropy and
    least confidence a selected score is at least every unselected score,
    for margin and random at most). *)
Theorem direct_mode_selects_top_scores self uc_map g query g' :
  reverse_order self = false →
  (top_n_percent self == 0)%Q →
  well_shaped uc_map →
  _select_queries T self uc_map g = (Ok query, g') →
  ∀ i j ui uj,
    flat query !! i = Some true → flat query !! j = Some false →
    flat uc_map !! i = Some ui → flat uc_map !! j = Some uj →
    ranks_above (largest self) ui uj.
Proof.
  intros Hrev Hp Hwf Hrun i j ui uj Hi Hj Hui Huj.
  assert (Qltb 0 (top_n_percent self) = false) as Hp'.
  { apply not_true_iff_false. rewrite Qltb_lt, Hp. apply Qlt_irrefl. }
  pose proof (select_queries_budget_fits _ _ _ _ _ Hrun) as Hn.
  destruct (select_queries_direct T self uc_map g Hrev Hp' Hwf Hn)
    as (inds & Htopk & Hrun').
  rewrite Hrun in Hrun'. injection Hrun' as -> _. simpl in Hi, Hj.
  assert (Hlt : ∀ i, i ∈ inds → i < (shape uc_map).1 * (shape uc_map).2).
  { intros i' Hi'. rewrite <- Hwf. by apply (topk_bound _ _ _ _ Htopk). }
  apply (topk_dominates _ _ _ _ Htopk i j); [|  |done|done].
  - by apply (lookup_put_zeros _ _ _ Hlt).
  - intros Hin. apply (lookup_put_zeros _ _ _ Hlt) in Hin. congruence.
Qed.

(** X5. Two-stage mode without a percentage budget fails the assertion of
    line 36 before anything is drawn. *)
Theorem two_stage_needs_percentage self uc_map g :
  reverse_order self = true →
  ¬ (0 < top_n_percent self)%Q →
  _select_queries T self uc_map g = (Raise (AssertionError ""), g).
Proof.
  intros Hrev Hp. unfold _select_queries. destruct (shape uc_map) as [h w].
  rewrite Hrev. destruct (Qltb 0 (top_n_percent self)) eqn:Hb.
  - by apply Qltb_lt in Hb.
  - reflexivity.
Qed.

(** X6. Direct mode with the absolute budget: a budget larger than the
    number of pixels makes [topk] raise. *)
Theorem budget_over_pixels_raises self uc_map g :
  reverse_order self = false →
  ¬ (0 < top_n_percent self)%Q →
  length (flat uc_map) < n_pixels_by_us self →
  _select_queries T self uc_map g = (Raise RuntimeError, g).
Proof.
  intros Hrev Hp Hlen. unfold _select_queries. destruct (shape uc_map) as [h w].
  rewrite Hrev.
  assert (Qltb 0 (top_n_percent self) = false) as Hb.
  { apply not_true_iff_false. by rewrite Qltb_lt. }
  rewrite candidate_k_fixed by done.
  unfold bind, lift. by rewrite topk_out_of_range.
Qed.

(** X7. Direct mode with a percentage budget samples among the top-k: the
    mask has [n_pixels_by_us] true entries, all of them among the
    [k = int(H * W * top_n_percent)] best-ranked positions. *)
Theorem percentage_mode_samples_topk self uc_map g query g' :
  reverse_order self = false →
  (0 < top_n_percent self)%Q →
  _select_queries T self uc_map g = (Ok query, g') →
  ∃ inds,
    is_topk (flat uc_map) (candidate_k self (shape uc_map).1 (shape uc_map).2)
      (largest self) inds ∧
    (∀ i, flat query !! i = Some true → i ∈ inds) ∧
    count_true (flat query) = n_pixels_by_us self.
Proof.
  intros Hrev Hp Hrun. apply Qltb_lt in Hp.
  pose proof (select_queries_count _ _ _ _ _ _ Hrun) as Hcount.
  unfold _select_queries in Hrun. destruct (shape uc_map) as [h w]. simpl.
  rewrite Hrev, Hp in Hrun.
  apply bind_inv_Ok in Hrun as (sample & g1 & Hsel & Hrun).
  apply bind_inv_Ok in Hsel as (inds & g0 & Htopk & Hsample).
  apply lift_inv_Ok in Htopk as [Htopk ->].
  apply torch_topk_inv in Htopk as [Hspec _].
  apply np_random_choice_inv in Hsample as (_ & _ & rest & Hperm).
  apply bind_inv_Ok in Hrun as (q & g2 & Hput & Hret).
  apply lift_inv_Ok in Hput as [Hput ->]. injection Hret as <- <-.
  apply put_true_inv in Hput as [-> Hlt]. rewrite length_replicate in Hlt.
  exists inds. split; [done|]. split; [|done].
  simpl. intros i Hi. apply (lookup_put_zeros _ _ _ Hlt) in Hi.
  by eapply sample_subset.
Qed.

End SelectionOrder.

Lemma direct_mode_selects_top_scores_witness :
  ranks_above true (2#3) (1#2).
Proof.
  apply (direct_mode_selects_top_scores toy_torch
           (toy_selector "least_confidence" 1 0 false false [] [])
           (NdArray (2, 2) [1#2; 1#4; 2#3; 0]%Q) (0 : rng counter_random)
           (NdArray (2, 2) [false; false; true; false]) 0
           ltac:(reflexivity) ltac:(reflexivity) ltac:(reflexivity) ltac:(reflexivity)
           2 0 (2#3) (1#2)); reflexivity.
Defined.

Lemma two_stage_needs_percentage_witness :
  QuerySelector._select_queries toy_torch
    (toy_selector "entropy" 2 0 true false [] [])
    (NdArray (2, 2) [1#2; 1#4; 2#3; 0]%Q) (0 : rng counter_random)
  = (Raise (AssertionError ""), 0).
Proof.
  apply (two_stage_needs_percentage toy_torch
           (toy_selector "entropy" 2 0 true false [] [])).
  - reflexivity.
  - intros H. discriminate H.
Defined.

Lemma budget_over_pixels_raises_witness :
  QuerySelector._select_queries toy_torch
    (toy_selector "entropy" 5 0 false false [] [])
    (NdArray (2, 2) [1#2; 1#4; 2#3; 0]%Q) (0 : rng counter_random)
  = (Raise RuntimeError, 0).
Proof.
  apply (budget_over_pixels_raises toy_torch
           (toy_selector "entropy" 5 0 false false [] [])).
  - reflexivity.
  - intros H. discriminate H.
  - simpl. lia.
Defined.

Lemma percentage_mode_samples_topk_witness :
  ∃ inds,
    is_topk [1#2; 1#4; 2#3; 1#8]%Q 2 false inds ∧
    (∀ i, [false; false; false; true] !! i = Some true → i ∈ inds) ∧
    count_true [false; false; false; true] = 1.
Proof.
  apply (percentage_mode_samples_topk toy_torch
           (toy_selector "margin_sampling" 1 (1#2) false false [] [])
           (NdArray (2, 2) [1#2; 1#4; 2#3; 1#8]%Q) (0 : rng counter_random)
           (NdArray (2, 2) [false; false; false; true]) 1).
  - reflexivity.
  - reflexivity.
  - reflexivity.
Defined.

(** ** The exclusion step, pixel by pixel *)

Lemma masked_fill_lookup {A} (a : list A) mask v a' i :
  masked_fill a mask v = Ok a' →
  a' !! i = (λ x, if default false (mask !! i) then v else x) <$> a !! i.
Proof.
  unfold masked_fill. destruct (length a =? length mask) eqn:E; [|discriminate].
  apply Nat.eqb_eq in E. intros [= <-].
  rewrite lookup_zip_with. destruct (a !! i) as [x|] eqn:Hx; [|done]. simpl.
  destruct (lookup_lt_is_Some_2 mask i) as [m Hm].
  { rewrite <- E. by eapply lookup_lt_Some. }
  rewrite Hm. simpl. by destruct m.
Qed.

Lemma shape_eqb_eq s1 s2 : shape_eqb s1 s2 = true ↔ s1 = s2.
Proof.
  unfold shape_eqb. destruct s1 as [h1 w1], s2 as [h2 w2]. simpl.
  rewrite andb_true_iff, !Nat.eqb_eq. split; [by intros [-> ->]|by intros [= -> ->]].
Qed.

Section ExcludePixels.
Context {R : Random} {model : Network (rng R)}.
Implicit Types (self : QuerySelector.t R model) (uc_map : ndarray Q).

Import QuerySelector.

(** X8. What lines 107-108 write: the map keeps its shape, every pixel that
    the eligibility mask or the void mask marks holds the mask value (0 for
    entropy and least confidence, 1 otherwise), and every other pixel keeps
    its score; a mask of another shape raises [IndexError]. *)
Theorem exclude_overwrites_flagged self uc_map mask mask_void :
  (∀ uc', exclude self uc_map mask mask_void = Ok uc' →
     shape uc' = shape uc_map ∧
     ∀ i, flat uc' !! i
          = (λ u, if flagged mask mask_void i then mask_value self else u)
              <$> flat uc_map !! i) ∧
  (shape mask ≠ shape uc_map ∨ shape mask_void ≠ shape uc_map →
   exclude self uc_map mask mask_void = Raise IndexError).
Proof.
  split.
  - intros uc'. unfold exclude.
    destruct (nd_masked_fill uc_map mask _) as [u1|] eqn:H1; [|discriminate]. simpl.
    intros H2.
    apply nd_masked_fill_inv in H1 as [Hs1 Hf1].
    apply nd_masked_fill_inv in H2 as [Hs2 Hf2].
    split; [congruence|]. intros i.
    rewrite (masked_fill_lookup _ _ _ _ i Hf2), (masked_fill_lookup _ _ _ _ i Hf1).
    unfold flagged. destruct (flat uc_map !! i) as [u|]; [|done]. simpl.
    by destruct (default false (flat mask !! i)),
                (default false (flat mask_void !! i)).
  - intros Hne. unfold exclude, nd_masked_fill.
    destruct (shape_eqb (shape uc_map) (shape mask)) eqn:E1; [|done].
    apply shape_eqb_eq in E1.
    destruct (masked_fill (flat uc_map) (flat mask) (mask_value self)) as [l|e] eqn:Hl.
    + simpl. destruct (shape_eqb (shape uc_map) (shape mask_void)) eqn:E2.
      * apply shape_eqb_eq in E2. destruct Hne; congruence.
      * done.
    + simpl. unfold masked_fill in Hl.
      destruct (_ =? _) in Hl; [discriminate|]. by injection Hl as <-.
Qed.

End ExcludePixels.

Lemma exclude_overwrites_flagged_witness :
  shape (NdArray (1, 3) [0; 1#4; 0]%Q) = (1, 3) ∧
  ∀ i, flat (NdArray (1, 3) [0; 1#4; 0]%Q) !! i
       = (λ u, if flagged (NdArray (1, 3) [true; false; false])
                          (NdArray (1, 3) [false; false; true]) i
               then QuerySelector.mask_value
                      (toy_selector "entropy" 1 0 false false [] [])
               else u)
           <$> flat (NdArray (1, 3) [1#2; 1#4; 1#3]%Q) !! i.
Proof.
  apply (proj1 (exclude_overwrites_flagged
                  (toy_selector "entropy" 1 0 false false [] [])
                  (NdArray (1, 3) [1#2; 1#4; 1#3]%Q)
                  (NdArray (1, 3) [true; false; false])
                  (NdArray (1, 3) [false; false; true]))).
  reflexivity.
Defined.

(** ** The scoring functions *)

Lemma traverse_Forall2 {A B} (f : A → result B) l bs :
  traverse f l = Ok bs ↔ Forall2 (λ a b, f a = Ok b) l bs.
Proof.
  revert bs. induction l as [|a l IH]; intros bs; simpl.
  - split; [intros [= <-]; constructor|by intros ->%Forall2_nil_inv_l].
  - destruct (f a) as [b|e] eqn:Hfa; simpl.
    + destruct (traverse f l) as [bs'|e] eqn:Htr; simpl.
      * split.
        -- intros [= <-]. constructor; [done|]. by apply IH.
        -- intros (b' & bs'' & Hb & Hall & ->)%Forall2_cons_inv_l.
           apply IH in Hall. congruence.
      * split; [done|].
        intros (b' & bs'' & Hb & Hall & ->)%Forall2_cons_inv_l.
        apply IH in Hall. discriminate.
    + split; [done|].
      intros (b' & bs'' & Hb & Hall & ->)%Forall2_cons_inv_l. congruence.
Qed.

Lemma Forall2_impl_elem {A B} (P Q : A → B → Prop) l k :
  Forall2 P l k → (∀ a b, a ∈ l → P a b → Q a b) → Forall2 Q l k.
Proof.
  induction 1 as [|a b l k Hab Hall IH]; intros Himp; [constructor|].
  constructor; [apply Himp; [by left|done]|].
  apply IH. intros a' b' Hin. apply Himp. by right.
Qed.

Lemma traverse_Ok {A B} (f : A → result B) l :
  (∀ a, a ∈ l → is_ok (f a) = true) → ∃ bs, traverse f l = Ok bs.
Proof.
  intros Hall. destruct (traverse f l) as [bs|e] eqn:Htr; [eauto|].
  apply traverse_Raise in Htr as (a & Hin & Ha).
  specialize (Hall a Hin). by rewrite Ha in Hall.
Qed.

Lemma Qmax_list_spec l m :
  Qmax_list l = Ok m → m ∈ l ∧ Forall (λ x, x <= m)%Q l.
Proof.
  revert m. induction l as [|a l IH]; intros m; [done|].
  destruct l as [|a' l].
  - intros [= <-]. split; [by left|].
    apply Forall_cons. split; [apply Qle_refl|by apply Forall_nil].
  - change (Qmax_list (a :: a' :: l))
      with (doR m' <- Qmax_list (a' :: l); Ok (if Qle_bool m' a then a else m')).
    destruct (Qmax_list (a' :: l)) as [m'|e]; [|discriminate]. simpl.
    destruct (IH m' eq_refl) as [Hin Hall]. intros [= <-].
    destruct (Qle_bool m' a) eqn:Hle.
    + apply Qle_bool_iff in Hle. split; [by left|].
      apply Forall_cons. split; [apply Qle_refl|].
      eapply Forall_impl; [exact Hall|]. intros x Hx. by apply (Qle_trans x m' a).
    + split; [by right|]. apply Forall_cons. split; [|done].
      apply Qlt_le_weak, Qnot_le_lt. intros Hle'.
      apply Qle_bool_iff in Hle'. congruence.
Qed.

Lemma Qmax_list_Ok l : l ≠ [] → ∃ m, Qmax_list l = Ok m.
Proof.
  induction l as [|a l IH]; [done|]. intros _.
  destruct l as [|a' l]; [by eexists|].
  change (Qmax_list (a :: a' :: l))
    with (doR m' <- Qmax_list (a' :: l); Ok (if Qle_bool m' a then a else m')).
  destruct IH as [m' ->]; [done|]. simpl. by eexists.
Qed.

Lemma Qsum_le_length l m :
  Forall (λ x, x <= m)%Q l → (Qsum l <= inject_Z (Z.of_nat (length l)) * m)%Q.
Proof.
  induction 1 as [|x l Hx Hall IH]; simpl length.
  - change (0 <= 0 * m)%Q. Lqa.lra.
  - rewrite Nat2Z.inj_succ, <- Z.add_1_r, inject_Z_plus.
    change (Qsum (x :: l)) with (x + Qsum l)%Q.
    change (inject_Z 1) with 1%Q. Lqa.lra.
Qed.

Section Scores.
Context (T : Torch) {R : Random} (B : Builtins).

Import UncertaintySampler.

(** X9. Least confidence: when every pixel has at least one class and
    probabilities between 0 and 1, the scores form a map of the input's
    shape with values in [0, 1]; for a pixel whose probabilities sum to 1
    over C classes the score is at most 1 - 1/C. *)
Theorem least_confidence_bounds (prob : prob_tensor) :
  (∀ p, p ∈ flat prob → p ≠ [] ∧ unit_entries p) →
  ∃ u,
    _least_confidence prob = Ok u ∧
    shape u = shape prob ∧
    Forall2 (λ p v,
               0 <= v ∧ v <= 1 ∧
               (Qsum p == 1 → v <= 1 - 1 / inject_Z (Z.of_nat (length p))))%Q
            (flat prob) (flat u).
Proof.
  intros Hprob. unfold _least_confidence, nd_traverse.
  destruct (traverse_Ok (λ p, doR m <- Qmax_list p; Ok (1 - m)%Q) (flat prob))
    as [vs Hvs].
  { intros p [Hne _]%Hprob. by destruct (Qmax_list_Ok p Hne) as [m ->]. }
  rewrite Hvs. simpl. eexists. split; [done|]. split; [done|]. simpl.
  apply traverse_Forall2 in Hvs.
  eapply Forall2_impl_elem; [exact Hvs|]. clear Hvs.
  intros p v Hin Hv. cbv beta in Hv. destruct (Hprob p Hin) as [Hne Hunit].
  destruct (Qmax_list p) as [m|] eqn:Hm; [|discriminate]. simpl in Hv.
  injection Hv as <-.
  apply Qmax_list_spec in Hm as [Hmin Hmax].
  eapply Forall_forall in Hunit as [Hm0 Hm1]; [|exact Hmin].
  split; [Lqa.lra|]. split; [Lqa.lra|].
  intros Hsum. apply Qsum_le_length in Hmax. rewrite Hsum in Hmax.
  assert (0 < inject_Z (Z.of_nat (length p)))%Q as Hpos.
  { destruct p; [done|]. unfold Qlt. simpl. lia. }
  assert (1 / inject_Z (Z.of_nat (length p)) <= m)%Q as Hdiv.
  { apply Qle_shift_div_r; [done|].
    by rewrite Qmult_comm. }
  Lqa.lra.
Qed.

Lemma margin_px_spec (p : list Q) :
  2 ≤ length p →
  ∃ m i0 i1 v0 v1,
    margin_px T p = Ok m ∧ i0 ≠ i1 ∧ p !! i0 = Some v0 ∧ p !! i1 = Some v1 ∧
    (∀ j x, j ≠ i0 → j ≠ i1 → p !! j = Some x → x <= v0 ∧ x <= v1)%Q ∧
    m = Qabs (v0 - v1).
Proof.
  intros Hlen. unfold margin_px.
  destruct (topk_in_range T p 2 true Hlen) as (inds & -> & Hspec). simpl.
  destruct Hspec as [Hl Hnd Hb Hdom].
  destruct inds as [|i0 [|i1 [|i2 inds]]]; try done.
  destruct (lookup_lt_is_Some_2 p i0) as [v0 Hv0]; [apply Hb; set_solver|].
  destruct (lookup_lt_is_Some_2 p i1) as [v1 Hv1]; [apply Hb; set_solver|].
  rewrite Hv0, Hv1. exists (Qabs (v0 - v1)), i0, i1, v0, v1.
  split_and!; [done| |done|done| |done].
  - apply NoDup_cons in Hnd as [Hn _]. set_solver.
  - intros j x Hj0 Hj1 Hx.
    assert (j ∉ [i0; i1]) as Hout.
    { rewrite !not_elem_of_cons. split_and!; [done..|apply not_elem_of_nil]. }
    split.
    + apply (Hdom i0 j v0 x); [by left|done..].
    + apply (Hdom i1 j v1 x); [right; by left|done..].
Qed.

(** X10. Margin sampling: when every pixel has at least two classes, the
    score of a pixel is the absolute difference of two of its probabilities
    that no other class exceeds (its two largest); with probabilities
    between 0 and 1 the score lies in [0, 1]. *)
Theorem margin_is_top_two_gap (prob : prob_tensor) :
  (∀ p, p ∈ flat prob → 2 ≤ length p) →
  ∃ u,
    _margin_sampling T prob = Ok u ∧
    shape u = shape prob ∧
    Forall2 (λ p m,
               (∃ i0 i1 v0 v1,
                  i0 ≠ i1 ∧ p !! i0 = Some v0 ∧ p !! i1 = Some v1 ∧
                  (∀ j x, j ≠ i0 → j ≠ i1 → p !! j = Some x →
                          x <= v0 ∧ x <= v1)%Q ∧
                  m = Qabs (v0 - v1)) ∧
               (unit_entries p → 0 <= m ∧ m <= 1)%Q)
            (flat prob) (flat u).
Proof.
  intros Hprob. unfold _margin_sampling, nd_traverse.
  destruct (traverse_Ok (margin_px T) (flat prob)) as [ms Hms].
  { intros p Hlen%Hprob.
    by destruct (margin_px_spec p Hlen) as (m & ? & ? & ? & ? & -> & _). }
  rewrite Hms. simpl. eexists. split; [done|]. split; [done|]. simpl.
  apply traverse_Forall2 in Hms.
  eapply Forall2_impl_elem; [exact Hms|]. clear Hms.
  intros p m Hin Hm. cbv beta in Hm.
  destruct (margin_px_spec p (Hprob p Hin))
    as (m' & i0 & i1 & v0 & v1 & Hm' & Hne & Hv0 & Hv1 & Hdom & ->).
  assert (m = Qabs (v0 - v1)) as -> by congruence. clear Hm Hm'.
  split; [by exists i0, i1, v0, v1|].
  intros Hunit. split; [apply Qabs_nonneg|].
  apply Qabs_Qle_condition.
  pose proof (proj1 (Forall_forall _ _) Hunit v0
                (list_elem_of_lookup_2 _ _ _ Hv0)) as [? ?].
  pose proof (proj1 (Forall_forall _ _) Hunit v1
                (list_elem_of_lookup_2 _ _ _ Hv1)) as [? ?].
  split; Lqa.lra.
Qed.

(** X11. Too few classes: least confidence raises [IndexError] when some
    pixel has no class at all, margin sampling raises [RuntimeError] when
    some pixel has fewer than two. *)
Theorem scores_need_classes (prob : prob_tensor) :
  ([] ∈ flat prob → _least_confidence prob = Raise IndexError) ∧
  ((∃ p, p ∈ flat prob ∧ length p < 2) →
   _margin_sampling T prob = Raise RuntimeError).
Proof.
  split.
  - intros Hin. unfold _least_confidence, nd_traverse.
    destruct (traverse _ (flat prob)) as [vs|e] eqn:Htr; simpl.
    + apply traverse_Forall2 in Htr.
      apply list_elem_of_lookup in Hin as [i Hi].
      by destruct (Forall2_lookup_l _ _ _ _ _ Htr Hi) as (v & _ & Hv).
    + f_equal. apply traverse_Raise in Htr as (p & _ & Hp).
      destruct (Qmax_list p) as [m|e'] eqn:Hm; [done|]. simpl in Hp.
      injection Hp as <-. by eapply Qmax_list_Raise.
  - intros (p & Hin & Hlen). unfold _margin_sampling, nd_traverse.
    assert (∀ q, length q < 2 → margin_px T q = Raise RuntimeError) as Hshort.
    { intros q Hq. unfold margin_px. by rewrite topk_out_of_range. }
    destruct (traverse _ (flat prob)) as [ms|e] eqn:Htr; simpl.
    + apply traverse_Forall2 in Htr.
      apply list_elem_of_lookup in Hin as [i Hi].
      destruct (Forall2_lookup_l _ _ _ _ _ Htr Hi) as (m & _ & Hm).
      rewrite Hshort in Hm by done. discriminate.
    + f_equal. apply traverse_Raise in Htr as (q & _ & Hq).
      destruct (decide (2 ≤ length q)) as [Hlong|Hshort'].
      * destruct (margin_px_spec q Hlong) as (m & ? & ? & ? & ? & Hm & _).
        congruence.
      * rewrite Hshort in Hq by lia. by injection Hq as <-.
Qed.

(** X12. The random strategy reads only the shape of its argument: it
    draws one score in [0, 1) per pixel, whatever the probabilities are. *)
Theorem random_scores_ignore_probabilities (prob : prob_tensor) (g : rng R) :
  ∃ u g',
    __call__ T B {| query_strategy := "random" |} prob g = (Ok (Tensor u), g') ∧
    shape u = shape prob ∧
    length (flat u) = (shape prob).1 * (shape prob).2 ∧
    Forall (λ v, 0 <= v ∧ v < 1)%Q (flat u) ∧
    ∀ prob' : prob_tensor,
      shape prob' = shape prob →
      __call__ T B {| query_strategy := "random" |} prob' g = (Ok (Tensor u), g').
Proof.
  destruct (shape prob) as [h w] eqn:Hshape.
  destruct (rand_unit_interval R (h * w) g) as (l & Hl & Hlen & Hunit).
  destruct (torch_rand R (h * w) g) as [r g'] eqn:Hrand. simpl in Hl. subst r.
  assert (∀ prob' : prob_tensor, shape prob' = (h, w) →
            __call__ T B {| query_strategy := "random" |} prob' g
            = (Ok (Tensor (NdArray (h, w) l)), g')) as Hcall.
  { intros prob' Hs. unfold __call__, bind, lift, getattr, _random. simpl.
    rewrite Hs. unfold bind. by rewrite Hrand. }
  exists (NdArray (h, w) l), g'. split_and!; [by apply Hcall|done..].
Qed.

End Scores.

Lemma least_confidence_bounds_witness :
  ∃ u,
    UncertaintySampler._least_confidence
      (NdArray (1, 2) [[1#2; 1#4; 1#4]; [1#3; 1#3; 1#3]]%Q) = Ok u ∧
    shape u = (1, 2) ∧
    Forall2 (λ p v,
               0 <= v ∧ v <= 1 ∧
               (Qsum p == 1 → v <= 1 - 1 / inject_Z (Z.of_nat (length p))))%Q
            [[1#2; 1#4; 1#4]; [1#3; 1#3; 1#3]]%Q (flat u).
Proof.
  apply (least_confidence_bounds
           (NdArray (1, 2) [[1#2; 1#4; 1#4]; [1#3; 1#3; 1#3]]%Q)).
  intros p Hp. simpl in Hp.
  repeat (apply elem_of_cons in Hp as [->|Hp]);
    [| |by apply elem_of_nil in Hp];
    (split; [discriminate|]);
    repeat constructor; unfold Qle; simpl; lia.
Defined.

Lemma margin_is_top_two_gap_witness :
  ∃ u,
    UncertaintySampler._margin_sampling toy_torch
      (NdArray (1, 2) [[1#2; 1#4; 1#4]; [1#3; 1#3; 1#3]]%Q) = Ok u ∧
    shape u = (1, 2) ∧
    Forall2 (λ p m,
               (∃ i0 i1 v0 v1,
                  i0 ≠ i1 ∧ p !! i0 = Some v0 ∧ p !! i1 = Some v1 ∧
                  (∀ j x, j ≠ i0 → j ≠ i1 → p !! j = Some x →
                          x <= v0 ∧ x <= v1)%Q ∧
                  m = Qabs (v0 - v1)) ∧
               (unit_entries p → 0 <= m ∧ m <= 1)%Q)
            [[1#2; 1#4; 1#4]; [1#3; 1#3; 1#3]]%Q (flat u).
Proof.
  apply (margin_is_top_two_gap toy_torch
           (NdArray (1, 2) [[1#2; 1#4; 1#4]; [1#3; 1#3; 1#3]]%Q)).
  intros p Hp. simpl in Hp.
  repeat (apply elem_of_cons in Hp as [->|Hp]);
    [| |by apply elem_of_nil in Hp]; simpl; lia.
Defined.

Lemma scores_need_classes_witness :
  UncertaintySampler._least_confidence (NdArray (1, 2) [[1#2; 1#2]; []]%Q)
  = Raise IndexError ∧
  UncertaintySampler._margin_sampling toy_torch (NdArray (1, 2) [[1#2; 1#2]; [1]]%Q)
  = Raise RuntimeError.
Proof.
  split.
  - apply (proj1 (scores_need_classes toy_torch
                    (NdArray (1, 2) [[1#2; 1#2]; []]%Q))).
    simpl. apply elem_of_cons. right. apply elem_of_cons. by left.
  - apply (proj2 (scores_need_classes toy_torch
                    (NdArray (1, 2) [[1#2; 1#2]; [1]]%Q))).
    exists [1%Q]. split; [|simpl; lia].
    simpl. apply elem_of_cons. right. apply elem_of_cons. by left.
Defined.

(** ** The statistics of one image *)

(** A run is its result paired with its final state. *)
Lemma run_eq {S A} (m : result A * S) (r : result A) : m.1 = r → m = (r, m.2).
Proof. destruct m as [r' s]. simpl. by intros ->. Qed.

Lemma occurrences_cons l x labels :
  occurrences l (x :: labels) = (if decide (x = l) then 1 else 0) + occurrences l labels.
Proof.
  unfold occurrences. destruct (decide (x = l)).
  - by rewrite filter_cons_True.
  - by rewrite filter_cons_False.
Qed.

Lemma occurrences_selected (a : list Z) (mask : list bool) l :
  occurrences l (filter (λ p : Z * bool, p.2 = true) (zip a mask)).*1
  = length (filter (λ p : Z * bool, p.2 = true ∧ p.1 = l) (zip a mask)).
Proof.
  generalize (zip a mask). intros zs.
  induction zs as [|[x b] zs IH]; [done|].
  destruct b.
  - rewrite (filter_cons_True (λ p : Z * bool, p.2 = true)) by done.
    rewrite fmap_cons, occurrences_cons, IH. simpl.
    destruct (decide (x = l)) as [->|Hne].
    + by rewrite (filter_cons_True (λ p : Z * bool, p.2 = true ∧ p.1 = l)).
    + rewrite (filter_cons_False (λ p : Z * bool, p.2 = true ∧ p.1 = l)); [done|].
      simpl. by intros [_ ?].
  - rewrite (filter_cons_False (λ p : Z * bool, p.2 = true)) by done.
    rewrite (filter_cons_False (λ p : Z * bool, p.2 = true ∧ p.1 = l)); [done|].
    simpl. by intros [? _].
Qed.

Lemma for_each_increment_cons l labels (self : QueryStats.t) :
  for_each (l :: labels) QueryStats.increment self
  = match QueryStats.dict_label_cnt self !! l with
    | Some c =>
        for_each labels QueryStats.increment
          (QueryStats.set_dict_label_cnt (<[l := c + 1]> (QueryStats.dict_label_cnt self)) self)
    | None => (Raise (KeyError l), self)
    end.
Proof.
  cbn [for_each]. unfold bind at 1. unfold QueryStats.increment at 1.
  unfold bind at 1, get. by destruct (QueryStats.dict_label_cnt self !! l).
Qed.

(** A counting loop that completes has added to every key the number of
    times the key occurs among the labels. *)
Lemma count_loop_dict labels (self self' : QueryStats.t) :
  for_each labels QueryStats.increment self = (Ok tt, self') →
  (∀ l, QueryStats.dict_label_cnt self' !! l
        = (λ c, c + occurrences l labels) <$> QueryStats.dict_label_cnt self !! l) ∧
  QueryStats.label_total self' = QueryStats.label_total self + length labels.
Proof.
  revert self. induction labels as [|x labels IH]; intros self H.
  - injection H as <-. split; [|simpl; lia].
    intros l. destruct (QueryStats.dict_label_cnt self !! l) as [c|]; simpl; [|done].
    f_equal. unfold occurrences. simpl. lia.
  - rewrite for_each_increment_cons in H.
    destruct (QueryStats.dict_label_cnt self !! x) as [c|] eqn:Hx; [|discriminate].
    apply IH in H as [Hdict Htotal]. split.
    + intros l. rewrite Hdict, occurrences_cons. simpl.
      destruct (decide (x = l)) as [->|Hne].
      * rewrite lookup_insert_eq, Hx. simpl. f_equal. lia.
      * rewrite lookup_insert_ne by done.
        destruct (QueryStats.dict_label_cnt self !! l); simpl; [f_equal; lia|done].
    + rewrite Htotal, (label_total_increment _ _ _ Hx). simpl. lia.
Qed.

(** A counting loop that raises has counted the labels before the first
    one that is no key, and raises [KeyError] with that label. *)
Lemma count_loop_Raise labels (self self' : QueryStats.t) e :
  for_each labels QueryStats.increment self = (Raise e, self') →
  ∃ counted l rest,
    labels = counted ++ l :: rest ∧ e = KeyError l ∧
    for_each counted QueryStats.increment self = (Ok tt, self') ∧
    QueryStats.dict_label_cnt self' !! l = None.
Proof.
  revert self. induction labels as [|x labels IH]; intros self H; [discriminate|].
  rewrite for_each_increment_cons in H.
  destruct (QueryStats.dict_label_cnt self !! x) as [c|] eqn:Hx.
  - apply IH in H as (counted & l & rest & -> & -> & Hrun & Hnone).
    exists (x :: counted), l, rest. split_and!; [done|done| |done].
    by rewrite for_each_increment_cons, Hx.
  - injection H as <- <-. by exists [], x, labels.
Qed.

(** A counting loop that completes has met keys of the histogram only. *)
Lemma count_loop_members labels (self self' : QueryStats.t) :
  for_each labels QueryStats.increment self = (Ok tt, self') →
  ∀ l, l ∈ labels → is_Some (QueryStats.dict_label_cnt self !! l).
Proof.
  revert self. induction labels as [|x labels IH]; intros self H l Hl.
  - by apply elem_of_nil in Hl.
  - rewrite for_each_increment_cons in H.
    destruct (QueryStats.dict_label_cnt self !! x) as [c|] eqn:Hx; [|discriminate].
    apply elem_of_cons in Hl as [->|Hl]; [by rewrite Hx|].
    destruct (decide (x = l)) as [->|Hne]; [by rewrite Hx|].
    apply (IH _ H) in Hl. simpl in Hl. by rewrite lookup_insert_ne in Hl.
Qed.

Lemma select_by_mask_Raise {A} (a : list A) mask e :
  select_by_mask a mask = Raise e → e = IndexError.
Proof.
  unfold select_by_mask. destruct (length a =? length mask); [discriminate|].
  by intros [= <-].
Qed.

Lemma size_list_to_set_le (labels : list Z) :
  size (list_to_set labels : gset Z) ≤ length labels.
Proof.
  unfold size, set_size. simpl.
  apply submseteq_length, NoDup_submseteq; [apply NoDup_elements|].
  intros x Hx. apply elem_of_elements in Hx. by apply elem_of_list_to_set in Hx.
Qed.

Lemma size_list_to_set_zero (labels : list Z) :
  size (list_to_set labels : gset Z) = 0 ↔ labels = [].
Proof.
  rewrite size_empty_iff. split.
  - intros Hempty. destruct labels as [|x labels]; [done|].
    exfalso. apply (not_elem_of_empty (C := gset Z) x).
    rewrite <- Hempty. apply elem_of_list_to_set. by left.
  - by intros ->.
Qed.

Lemma size_range_bound (X : gset Z) n :
  (∀ l, l ∈ X → (0 ≤ l < Z.of_nat n)%Z) → size X ≤ n.
Proof.
  intros Hrange.
  transitivity (size (list_to_set (Z.of_nat <$> seq 0 n) : gset Z)).
  - apply subseteq_size. intros l Hl%Hrange.
    apply elem_of_list_to_set, list_elem_of_fmap.
    exists (Z.to_nat l). split; [lia|]. apply elem_of_seq. lia.
  - etransitivity; [apply size_list_to_set_le|].
    by rewrite length_fmap, length_seq.
Qed.

Lemma get_entropy_length (T : Torch) query prob ents :
  QueryStats._get_entropy T query prob = Ok ents →
  length ents = count_true (flat query).
Proof.
  unfold QueryStats._get_entropy.
  destruct (select_by_mask (flat (nd_map _ prob)) (flat query)) as [pe|] eqn:Hpe;
    [|discriminate].
  intros [= <-]. rewrite length_fmap.
  pose proof (select_by_mask_inv _ _ _ Hpe) as Hlen.
  destruct (select_by_mask_Ok _ (flat query) Hlen) as (pe' & Hpe' & Hcount & _).
  rewrite Hpe in Hpe'. by injection Hpe' as <-.
Qed.

Section UpdateEffects.
Context (T : Torch).
Implicit Types (self : QueryStats.t) (query : ndarray bool) (y : ndarray Z)
  (prob : prob_tensor).

(** What a completed [update] has done, step by step. *)
Lemma update_Ok_inv query y prob self self' :
  QueryStats.update T query y prob self = (Ok tt, self') →
  ∃ labels ents c self1,
    select_by_mask (flat y) (flat query) = Ok labels ∧
    for_each labels QueryStats.increment self = (Ok tt, self1) ∧
    QueryStats._get_entropy T query prob = Ok ents ∧
    QueryStats._spatial_coverage query = Ok c ∧
    self' = {| QueryStats.list_entropy := QueryStats.list_entropy self1 ++ ents;
               QueryStats.list_n_unique_labels :=
                 QueryStats.list_n_unique_labels self1
                 ++ [size (list_to_set labels : gset Z)];
               QueryStats.list_spatial_coverage :=
                 QueryStats.list_spatial_coverage self1 ++ [c];
               QueryStats.dict_label_cnt := QueryStats.dict_label_cnt self1 |}.
Proof.
  intros H. unfold QueryStats.update in H.
  apply bind_inv_Ok in H as ([] & self1 & Hcount & H).
  unfold QueryStats._count_labels in Hcount.
  apply bind_inv_Ok in Hcount as (labels & ? & Hsel & Hcount).
  apply lift_inv_Ok in Hsel as [Hsel ->].
  apply bind_inv_Ok in H as (ents & ? & Hents & H). apply lift_inv_Ok in Hents as [Hents ->].
  apply bind_inv_Ok in H as (? & ? & Hmod & H). injection Hmod as _ <-.
  apply bind_inv_Ok in H as (n & ? & Hn & H). apply lift_inv_Ok in Hn as [Hn ->].
  apply bind_inv_Ok in H as (? & ? & Hmod & H). injection Hmod as _ <-.
  apply bind_inv_Ok in H as (c & ? & Hc & H). apply lift_inv_Ok in Hc as [Hc ->].
  injection H as <-.
  unfold QueryStats._n_unique_labels in Hn. rewrite Hsel in Hn. injection Hn as <-.
  by exists labels, ents, c, self1.
Qed.

(** X13. The histogram counts per class: an [update] whose selected pixels
    carry class ids adds to the count of every class the number of selected
    pixels with that label, and creates no key. *)
Theorem update_counts_each_class n_classes query y prob self :
  keys_are_classes n_classes self →
  labels_in_classes n_classes (query, y, prob) →
  ∃ self',
    QueryStats.update T query y prob self = (Ok tt, self') ∧
    ∀ l, QueryStats.dict_label_cnt self' !! l
         = (λ c, c + selected_with_label query y l) <$> QueryStats.dict_label_cnt self !! l.
Proof.
  intros Hkeys Himg.
  destruct (update_Ok T n_classes query y prob self Hkeys Himg)
    as (self' & c & Hupd & _).
  exists self'. split; [done|].
  apply update_Ok_inv in Hupd as (labels & ents & c' & self1 & Hsel & Hrun & _ & _ & ->).
  apply count_loop_dict in Hrun as [Hdict _]. simpl.
  intros l. rewrite Hdict. unfold selected_with_label.
  unfold select_by_mask in Hsel.
  destruct (length (flat y) =? length (flat query)); [|discriminate].
  injection Hsel as <-. by rewrite occurrences_selected.
Qed.

(** X14. The three lists after a completed [update]: one entropy per
    selected pixel, one count of distinct labels, one spatial coverage.  The
    count of distinct labels is at most the number of selected pixels, is 0
    only for an empty selection, and is at most [n_classes] when the keys of
    the histogram are the class ids. *)
Theorem update_extends_lists query y prob self self' :
  QueryStats.update T query y prob self = (Ok tt, self') →
  ∃ ents n c,
    QueryStats.list_entropy self' = QueryStats.list_entropy self ++ ents ∧
    length ents = count_true (flat query) ∧
    QueryStats.list_n_unique_labels self' = QueryStats.list_n_unique_labels self ++ [n] ∧
    n ≤ count_true (flat query) ∧
    (n = 0 ↔ count_true (flat query) = 0) ∧
    (∀ n_classes, keys_are_classes n_classes self → n ≤ n_classes) ∧
    QueryStats.list_spatial_coverage self' = QueryStats.list_spatial_coverage self ++ [c] ∧
    QueryStats.label_total self' = QueryStats.label_total self + count_true (flat query).
Proof.
  intros H.
  apply update_Ok_inv in H as (labels & ents & c & self1 & Hsel & Hrun & Hents & _ & ->).
  pose proof (count_loop_lists _ _ _ _ Hrun) as (Hl1 & Hl2 & Hl3).
  pose proof (count_loop_dict _ _ _ Hrun) as [Hdict Htotal].
  pose proof (select_by_mask_inv _ _ _ Hsel) as Hlen.
  destruct (select_by_mask_Ok (flat y) (flat query) Hlen) as (labels' & Hsel' & Hcount & _).
  rewrite Hsel in Hsel'. injection Hsel' as <-.
  exists ents, (size (list_to_set labels : gset Z)), c. simpl.
  split_and!.
  - by rewrite Hl1.
  - by eapply get_entropy_length.
  - by rewrite Hl2.
  - rewrite <- Hcount. apply size_list_to_set_le.
  - rewrite <- Hcount, size_list_to_set_zero. by rewrite length_zero_iff_nil.
  - intros n_classes Hkeys. apply size_range_bound.
    intros l Hl%elem_of_list_to_set. apply Hkeys.
    by apply (count_loop_members _ _ _ Hrun).
  - by rewrite Hl3.
  - unfold QueryStats.label_total in *. simpl. lia.
Qed.

(** X15. [update] is not atomic: when it raises [KeyError], the label [l]
    of the error is a selected label that is no key of the histogram, and
    the selected labels that precede it (in row-major order) have been
    counted; nothing has been appended to the three lists. *)
Theorem failed_update_keeps_partial_counts query y prob self l self' :
  QueryStats.update T query y prob self = (Raise (KeyError l), self') →
  ∃ counted rest,
    select_by_mask (flat y) (flat query) = Ok (counted ++ l :: rest) ∧
    QueryStats.dict_label_cnt self' !! l = None ∧
    (∀ k, QueryStats.dict_label_cnt self' !! k
          = (λ c, c + occurrences k counted) <$> QueryStats.dict_label_cnt self !! k) ∧
    QueryStats.label_total self' = QueryStats.label_total self + length counted ∧
    same_lists self self'.
Proof.
  intros H. unfold QueryStats.update, QueryStats._count_labels in H.
  unfold bind at 1 2 in H. unfold lift at 1 in H.
  destruct (select_by_mask (flat y) (flat query)) as [labels|e] eqn:Hsel;
    [|by pose proof (select_by_mask_Raise _ _ _ Hsel) as ->].
  destruct (for_each labels QueryStats.increment self) as [[[]|e] self1] eqn:Hrun.
  - exfalso. unfold bind, lift, modify in H.
    unfold QueryStats._get_entropy, QueryStats._n_unique_labels in H.
    rewrite Hsel in H.
    destruct (select_by_mask (flat (nd_map _ prob)) (flat query)) as [pe|e] eqn:Hpe;
      simpl in H.
    + destruct (spatial_coverage_total query) as [c Hc]. rewrite Hc in H. discriminate.
    + apply select_by_mask_Raise in Hpe as ->. discriminate.
  - injection H as -> <-.
    pose proof (count_loop_lists _ _ _ _ Hrun) as Hlists.
    apply count_loop_Raise in Hrun as (counted & l' & rest & -> & [= <-] & Hrun & Hnone).
    apply count_loop_dict in Hrun as [Hdict Htotal].
    by exists counted, rest.
Qed.

End UpdateEffects.

Lemma update_counts_each_class_witness :
  ∃ self',
    QueryStats.update toy_torch (NdArray (1, 3) [true; false; true])
      (NdArray (1, 3) [2; 0; 2]%Z)
      (NdArray (1, 3) [[1#2; 1#4; 1#4]; [1#3; 1#3; 1#3]; [1#4; 1#4; 1#2]]%Q)
      (QueryStats.__init__ 3)
    = (Ok tt, self') ∧
    ∀ l, QueryStats.dict_label_cnt self' !! l
         = (λ c, c + selected_with_label (NdArray (1, 3) [true; false; true])
                       (NdArray (1, 3) [2; 0; 2]%Z) l)
           <$> QueryStats.dict_label_cnt (QueryStats.__init__ 3) !! l.
Proof.
  apply (update_counts_each_class toy_torch 3).
  - apply init_keys_are_classes.
  - apply (bool_decide_unpack _). vm_compute. exact I.
Defined.

Lemma update_extends_lists_witness :
  ∃ ents n c,
    QueryStats.list_entropy
      (QueryStats.update toy_torch (NdArray (1, 3) [true; false; true])
         (NdArray (1, 3) [2; 0; 2]%Z)
         (NdArray (1, 3) [[1#2; 1#4; 1#4]; [1#3; 1#3; 1#3]; [1#4; 1#4; 1#2]]%Q)
         (QueryStats.__init__ 3)).2
    = QueryStats.list_entropy (QueryStats.__init__ 3) ++ ents ∧
    length ents = count_true [true; false; true] ∧
    QueryStats.list_n_unique_labels
      (QueryStats.update toy_torch (NdArray (1, 3) [true; false; true])
         (NdArray (1, 3) [2; 0; 2]%Z)
         (NdArray (1, 3) [[1#2; 1#4; 1#4]; [1#3; 1#3; 1#3]; [1#4; 1#4; 1#2]]%Q)
         (QueryStats.__init__ 3)).2
    = QueryStats.list_n_unique_labels (QueryStats.__init__ 3) ++ [n] ∧
    n ≤ count_true [true; false; true] ∧
    (n = 0 ↔ count_true [true; false; true] = 0) ∧
    (∀ n_classes, keys_are_classes n_classes (QueryStats.__init__ 3) → n ≤ n_classes) ∧
    QueryStats.list_spatial_coverage
      (QueryStats.update toy_torch (NdArray (1, 3) [true; false; true])
         (NdArray (1, 3) [2; 0; 2]%Z)
         (NdArray (1, 3) [[1#2; 1#4; 1#4]; [1#3; 1#3; 1#3]; [1#4; 1#4; 1#2]]%Q)
         (QueryStats.__init__ 3)).2
    = QueryStats.list_spatial_coverage (QueryStats.__init__ 3) ++ [c] ∧
    QueryStats.label_total
      (QueryStats.update toy_torch (NdArray (1, 3) [true; false; true])
         (NdArray (1, 3) [2; 0; 2]%Z)
         (NdArray (1, 3) [[1#2; 1#4; 1#4]; [1#3; 1#3; 1#3]; [1#4; 1#4; 1#2]]%Q)
         (QueryStats.__init__ 3)).2
    = QueryStats.label_total (QueryStats.__init__ 3) + count_true [true; false; true].
Proof.
  apply (update_extends_lists toy_torch (NdArray (1, 3) [true; false; true])
           (NdArray (1, 3) [2; 0; 2]%Z)
           (NdArray (1, 3) [[1#2; 1#4; 1#4]; [1#3; 1#3; 1#3]; [1#4; 1#4; 1#2]]%Q)
           (QueryStats.__init__ 3)).
  apply run_eq. vm_compute. reflexivity.
Defined.

Lemma failed_update_keeps_partial_counts_witness :
  ∃ counted rest,
    select_by_mask [2; 255; 1]%Z [true; true; true] = Ok (counted ++ 255%Z :: rest) ∧
    QueryStats.dict_label_cnt
      (QueryStats.update toy_torch (NdArray (1, 3) [true; true; true])
         (NdArray (1, 3) [2; 255; 1]%Z)
         (NdArray (1, 3) [[1#2; 1#4; 1#4]; [1#3; 1#3; 1#3]; [1#4; 1#4; 1#2]]%Q)
         (QueryStats.__init__ 3)).2 !! 255%Z = None ∧
    (∀ k, QueryStats.dict_label_cnt
            (QueryStats.update toy_torch (NdArray (1, 3) [true; true; true])
               (NdArray (1, 3) [2; 255; 1]%Z)
               (NdArray (1, 3) [[1#2; 1#4; 1#4]; [1#3; 1#3; 1#3]; [1#4; 1#4; 1#2]]%Q)
               (QueryStats.__init__ 3)).2 !! k
          = (λ c, c + occurrences k counted)
            <$> QueryStats.dict_label_cnt (QueryStats.__init__ 3) !! k) ∧
    QueryStats.label_total
      (QueryStats.update toy_torch (NdArray (1, 3) [true; true; true])
         (NdArray (1, 3) [2; 255; 1]%Z)
         (NdArray (1, 3) [[1#2; 1#4; 1#4]; [1#3; 1#3; 1#3]; [1#4; 1#4; 1#2]]%Q)
         (QueryStats.__init__ 3)).2
    = QueryStats.label_total (QueryStats.__init__ 3) + length counted ∧
    same_lists (QueryStats.__init__ 3)
      (QueryStats.update toy_torch (NdArray (1, 3) [true; true; true])
         (NdArray (1, 3) [2; 255; 1]%Z)
         (NdArray (1, 3) [[1#2; 1#4; 1#4]; [1#3; 1#3; 1#3]; [1#4; 1#4; 1#2]]%Q)
         (QueryStats.__init__ 3)).2.
Proof.
  apply (failed_update_keeps_partial_counts toy_torch (NdArray (1, 3) [true; true; true])
           (NdArray (1, 3) [2; 255; 1]%Z)
           (NdArray (1, 3) [[1#2; 1#4; 1#4]; [1#3; 1#3; 1#3]; [1#4; 1#4; 1#2]]%Q)
           (QueryStats.__init__ 3)).
  apply run_eq. vm_compute. reflexivity.
Defined.

(** ** What a round leaves behind *)

Section Frames.
Context {S : Type} (P : S → S → Prop) `{!Reflexive P} `{!Transitive P}.

Lemma preserves_ret {A} (a : A) : preserves P (ret a).
Proof. by intros s r s' [= <- <-]. Qed.

Lemma preserves_raise {A} e : preserves P (raise e (A := A)).
Proof. by intros s r s' [= <- <-]. Qed.

Lemma preserves_lift {A} (r : result A) : preserves P (lift r).
Proof. by intros s r' s' [= <- <-]. Qed.

Lemma preserves_py_assert cond msg : preserves P (py_assert cond msg).
Proof. unfold py_assert. destruct cond; [apply preserves_ret|apply preserves_raise]. Qed.

Lemma preserves_bind {A B} (m : M S A) (k : A → M S B) :
  preserves P m → (∀ a, preserves P (k a)) → preserves P (bind m k).
Proof.
  intros Hm Hk s r s'. unfold bind.
  destruct (m s) as [[a|e] s1] eqn:E; intros H.
  - transitivity s1; [by eapply Hm|by eapply Hk].
  - injection H as <- <-. by eapply Hm.
Qed.

End Frames.

Lemma preserves_weaken {S A} (P Q : S → S → Prop) (m : M S A) :
  (∀ s s', P s s' → Q s s') → preserves P m → preserves Q m.
Proof. intros HPQ Hm s r s' H. by eapply HPQ, Hm. Qed.

(** The sizes of the statistics after a completed [update]. *)
Lemma update_Ok_sizes (T : Torch) query y prob (self self' : QueryStats.t) :
  QueryStats.update T query y prob self = (Ok tt, self') →
  length (flat y) = length (flat query) ∧
  QueryStats.label_total self' = QueryStats.label_total self + count_true (flat query) ∧
  length (QueryStats.list_entropy self')
  = length (QueryStats.list_entropy self) + count_true (flat query) ∧
  length (QueryStats.list_n_unique_labels self')
  = length (QueryStats.list_n_unique_labels self) + 1 ∧
  length (QueryStats.list_spatial_coverage self')
  = length (QueryStats.list_spatial_coverage self) + 1.
Proof.
  intros H.
  apply update_Ok_inv in H as (labels & ents & c & self1 & Hsel & Hrun & Hents & _ & ->).
  pose proof (count_loop_lists _ _ _ _ Hrun) as (Hl1 & Hl2 & Hl3).
  pose proof (count_loop_dict _ _ _ Hrun) as [_ Htotal].
  pose proof (select_by_mask_inv _ _ _ Hsel) as Hlen.
  destruct (select_by_mask_Ok (flat y) (flat query) Hlen) as (labels' & Hsel' & Hcount & _).
  rewrite Hsel in Hsel'. injection Hsel' as <-.
  apply get_entropy_length in Hents.
  simpl. rewrite !length_app, Hl1, Hl2, Hl3, Hents. simpl.
  split_and!; [done| |done..].
  unfold QueryStats.label_total in *. simpl. lia.
Qed.

Lemma np_stack_inv {A} (arrays stacked : list (ndarray A)) :
  np_stack arrays = Ok stacked →
  stacked = arrays ∧ ∀ a b, a ∈ arrays → b ∈ arrays → shape a = shape b.
Proof.
  unfold np_stack. destruct arrays as [|a0 rest]; [discriminate|].
  destruct (forallb _ rest) eqn:Hall; [|discriminate].
  intros [= <-]. split; [done|].
  assert (∀ a, a ∈ a0 :: rest → shape a = shape a0) as Hshape.
  { intros a [->|Ha]%elem_of_cons; [done|].
    rewrite forallb_forall in Hall. symmetry.
    apply shape_eqb_eq, Hall. by apply list_elem_of_In. }
  intros a b Ha Hb. by rewrite (Hshape a Ha), (Hshape b Hb).
Qed.

Section RoundEffects.
Context (T : Torch) {R : Random} (B : Builtins) {model : Network (rng R)}.
Implicit Types (self : QuerySelector.t R model) (s : QuerySelector.world R).

Import QuerySelector.

#[local] Instance keeps_files_refl : Reflexive (@keeps_files R).
Proof. by intros s. Qed.

#[local] Instance keeps_files_trans : Transitive (@keeps_files R).
Proof. intros s1 s2 s3 [H1 H2] [H3 H4]. split; congruence. Qed.

#[local] Instance keeps_statistics_refl : Reflexive (@keeps_statistics R).
Proof. by intros s. Qed.

#[local] Instance keeps_statistics_trans : Transitive (@keeps_statistics R).
Proof. intros s1 s2 s3 [H1 H2] [H3 H4]. split; [congruence|by etransitivity]. Qed.

Lemma with_generator_keeps {A} (m : M (rng R) A) :
  preserves keeps_statistics (with_generator R m).
Proof.
  intros s r s'. unfold with_generator, zoom.
  destruct (m (generator s)) as [r' g]. by intros [= <- <-].
Qed.

Lemma with_query_stats_keeps {A} (m : M QueryStats.t A) :
  preserves keeps_files (with_query_stats R m).
Proof.
  intros s r s'. unfold with_query_stats, zoom.
  destruct (m (query_stats s)) as [r' g]. by intros [= <- <-].
Qed.

Lemma mc_steps_keeps self x h w steps uc_map prob :
  preserves keeps_statistics (mc_steps T B self x h w steps uc_map prob).
Proof.
  revert uc_map prob. induction steps as [|steps IH]; intros uc_map prob.
  - apply preserves_ret; apply _.
  - cbn [mc_steps].
    apply preserves_bind; [apply _|apply with_generator_keeps|intros logits].
    apply preserves_bind; [apply _|apply with_generator_keeps|intros v].
    apply preserves_bind; [apply _|apply preserves_lift; apply _|intros uc_map_].
    apply preserves_bind; [apply _|apply preserves_lift; apply _|intros uc_map'].
    apply preserves_bind; [apply _|apply preserves_lift; apply _|intros prob'].
    apply IH.
Qed.

Lemma get_uncertainty_map_keeps self x h w :
  preserves keeps_statistics (get_uncertainty_map T B self x h w).
Proof.
  unfold get_uncertainty_map. destruct (use_mc_dropout self).
  - apply preserves_bind; [apply _|apply mc_steps_keeps|intros [u p]].
    apply preserves_bind; [apply _|apply preserves_raise; apply _|intros up].
    apply preserves_ret; apply _.
  - apply preserves_bind; [apply _|apply with_generator_keeps|intros logits].
    apply preserves_bind; [apply _|apply with_generator_keeps|intros v].
    apply preserves_bind; [apply _|apply preserves_lift; apply _|intros uc_map].
    apply preserves_ret; apply _.
Qed.

Lemma keeps_statistics_files s s' : keeps_statistics s s' → keeps_files s s'.
Proof. by intros [_ ?]. Qed.

(** The loop over the pool writes no snapshot and labels nothing, whether
    it completes or raises. *)
Lemma pool_loop_keeps self items list_queries n_pixels :
  preserves keeps_files (pool_loop T B self items list_queries n_pixels).
Proof.
  revert list_queries n_pixels.
  induction items as [|[batch_ind d] items IH]; intros lq n.
  - apply preserves_ret; apply _.
  - cbn [pool_loop].
    apply preserves_bind; [apply _|apply preserves_lift; apply _|intros mask].
    destruct (x_shape model (x d)) as [h w].
    apply preserves_bind; [apply _|apply preserves_lift; apply _|intros x'].
    apply preserves_bind; [apply _| |intros [uc_map prob]].
    { eapply preserves_weaken; [apply keeps_statistics_files|].
      apply get_uncertainty_map_keeps. }
    apply preserves_bind; [apply _|apply preserves_lift; apply _|intros uc_map'].
    apply preserves_bind; [apply _| |intros query].
    { eapply preserves_weaken; [apply keeps_statistics_files|].
      apply with_generator_keeps. }
    apply preserves_bind; [apply _|apply with_query_stats_keeps|intros []].
    apply IH.
Qed.

Lemma exclude_shapes self (uc_map : ndarray Q) mask mask_void uc' :
  exclude self uc_map mask mask_void = Ok uc' →
  shape uc' = shape uc_map ∧ shape mask = shape uc_map ∧ shape mask_void = shape uc_map.
Proof.
  unfold exclude, nd_masked_fill.
  destruct (shape_eqb (shape uc_map) (shape mask)) eqn:E1; [|discriminate].
  apply shape_eqb_eq in E1.
  destruct (masked_fill (flat uc_map) (flat mask) _) as [l1|]; [|discriminate]. simpl.
  destruct (shape_eqb (shape uc_map) (shape mask_void)) eqn:E2; [|discriminate].
  apply shape_eqb_eq in E2.
  destruct (masked_fill l1 (flat mask_void) _) as [l2|]; [|discriminate]. simpl.
  by intros [= <-].
Qed.

(** A loop over the pool that completes: one mask per image, and the
    statistics of [n_pixels_by_us] more pixels per image. *)
Lemma pool_loop_effects self items list_queries n_pixels s list_queries' n_pixels' s' :
  pool_loop T B self items list_queries n_pixels s = (Ok (list_queries', n_pixels'), s') →
  ∃ new,
    list_queries' = list_queries ++ new ∧
    Forall2 (λ (item : nat * dict_data R model) q,
               (∃ mask, queries (dataloader self) !! item.1 = Some mask ∧
                        shape mask = shape q) ∧
               shape q = shape (y item.2) ∧ well_shaped q ∧
               count_true (flat q) = n_pixels_by_us self) items new ∧
    QueryStats.label_total (query_stats s')
    = QueryStats.label_total (query_stats s) + n_pixels_by_us self * length items ∧
    length (QueryStats.list_entropy (query_stats s'))
    = length (QueryStats.list_entropy (query_stats s)) + n_pixels_by_us self * length items ∧
    length (QueryStats.list_n_unique_labels (query_stats s'))
    = length (QueryStats.list_n_unique_labels (query_stats s)) + length items ∧
    length (QueryStats.list_spatial_coverage (query_stats s'))
    = length (QueryStats.list_spatial_coverage (query_stats s)) + length items.
Proof.
  revert list_queries n_pixels s.
  induction items as [|[batch_ind d] items IH]; intros lq n s H.
  - injection H as <- <- <-. exists []. rewrite app_nil_r. simpl.
    split_and!; [done|constructor|lia..].
  - cbn [pool_loop] in H.
    apply bind_inv_Ok in H as (mask & s0 & Hmask & H).
    apply lift_inv_Ok in Hmask as [Hmask ->].
    destruct (queries (dataloader self) !! batch_ind) as [mask'|] eqn:Hq; [|discriminate].
    injection Hmask as ->.
    destruct (x_shape model (x d)) as [h w].
    apply bind_inv_Ok in H as (x' & s0 & Hpad & H).
    apply lift_inv_Ok in Hpad as [_ ->].
    apply bind_inv_Ok in H as ([uc_map prob] & s1 & Huc & H).
    apply get_uncertainty_map_keeps in Huc as [Hstats1 _].
    apply bind_inv_Ok in H as (uc_map' & s2 & Hex & H).
    apply lift_inv_Ok in Hex as [Hex ->].
    apply exclude_shapes in Hex as (Hs1 & Hs2 & Hs3).
    apply bind_inv_Ok in H as (query & s2 & Hsel & H).
    pose proof (with_generator_keeps _ _ _ _ Hsel) as [Hstats2 _].
    apply zoom_inv_Ok in Hsel as (g' & Hsel & _).
    pose proof (select_queries_count _ _ _ _ _ _ Hsel) as Hcount.
    pose proof (select_queries_well_shaped _ _ _ _ _ _ Hsel) as Hwf.
    apply select_queries_inv in Hsel as [Hshape _].
    apply bind_inv_Ok in H as ([] & s3 & Hupd & H).
    apply zoom_inv_Ok in Hupd as (q' & Hupd & ->).
    apply update_Ok_sizes in Hupd as (_ & Ht & He & Hn & Hc).
    apply IH in H as (new & -> & Hall & Ht' & He' & Hn' & Hc').
    simpl in Ht', He', Hn', Hc'.
    rewrite Hstats2, Hstats1 in Ht, He, Hn, Hc.
    exists (query :: new). split_and!.
    + by rewrite <- (assoc_L (++)).
    + constructor; [|done]. simpl. split_and!; [|by rewrite Hshape, Hs1, <- Hs3|done..].
      exists mask. split; [done|]. by rewrite Hshape, Hs1.
    + rewrite Ht', Ht, Hcount. simpl. lia.
    + rewrite He', He, Hcount. simpl. lia.
    + rewrite Hn', Hn. simpl. lia.
    + rewrite Hc', Hc. simpl. lia.
Qed.

(** A round that returns has run the tail of [__call__] on the masks of a
    completed loop. *)
Lemma round_Ok_inv self nth_query s queries s' :
  __call__ T B self nth_query s = (Ok queries, s') →
  ∃ n_pixels s1,
    pool_loop T B self (imap pair (batches (dataloader self))) [] 0 s
    = (Ok (queries, n_pixels), s1) ∧
    queries ≠ [] ∧
    (dataset_name self ≠ "voc"%string →
     ∀ a b, a ∈ queries → b ∈ queries → shape a = shape b) ∧
    generator s' = generator s1 ∧
    query_stats s' = query_stats s1 ∧
    pickled s' = pickled s1 ++ [(nth_query, QueryStats.save (query_stats s1))] ∧
    label_queries s' = label_queries s1 ++ [(queries, (nth_query + 1)%Z)].
Proof.
  intros H. unfold __call__ in H.
  apply bind_inv_Ok in H as ([lq n] & s1 & Hloop & H).
  exists n, s1.
  unfold bind, with_query_stats, zoom, get, ret, modify, py_assert, lift, raise in H.
  simpl in H.
  destruct lq as [|q lq]; [discriminate|]. cbn -[np_stack] in H.
  destruct (negb (String.eqb (dataset_name self) "voc")) eqn:Evoc.
  - destruct (np_stack (q :: lq)) as [stacked|] eqn:Hstack; [|discriminate].
    apply np_stack_inv in Hstack as [-> Hshape].
    injection H as <- <-. simpl. split_and!; done.
  - injection H as <- <-. simpl. split_and!; try done.
    intros Hne. exfalso. apply Hne.
    apply negb_false_iff in Evoc. by apply String.eqb_eq in Evoc.
Qed.

(** X16. A round that returns gives one mask per image of the pool, in the
    order of the pool: the mask has the shape of the image's label map and
    of the image's mask of labelled pixels, and exactly [n_pixels_by_us]
    true entries.  Such a round ran without Monte-Carlo dropout over a pool
    that is not empty; for a dataset other than VOC all masks have one
    shape. *)
Theorem round_returns_one_mask_per_image self nth_query s queries s' :
  __call__ T B self nth_query s = (Ok queries, s') →
  use_mc_dropout self = false ∧
  batches (dataloader self) ≠ [] ∧
  length (batches (dataloader self)) ≤ length (QuerySelector.queries (dataloader self)) ∧
  Forall2 (λ d q, shape q = shape (y d) ∧ well_shaped q ∧
                  count_true (flat q) = n_pixels_by_us self)
          (batches (dataloader self)) queries ∧
  (∀ i q, queries !! i = Some q →
          ∃ mask, QuerySelector.queries (dataloader self) !! i = Some mask ∧
                  shape mask = shape q) ∧
  (dataset_name self ≠ "voc"%string →
   ∀ a b, a ∈ queries → b ∈ queries → shape a = shape b).
Proof.
  intros H.
  apply round_Ok_inv in H as (n & s1 & Hloop & Hne & Hshape & _).
  pose proof (pool_loop_inv T B _ _ _ _ _ _ _ _ Hloop) as (_ & _ & Hmc).
  apply pool_loop_effects in Hloop as (new & Hnew & Hall & _).
  simpl in Hnew. subst new.
  assert (batches (dataloader self) ≠ []) as Hbatches.
  { intros Hnil. rewrite Hnil in Hall. simpl in Hall.
    by apply Forall2_nil_inv_l in Hall. }
  assert (∀ i q, queries !! i = Some q →
            ∃ mask, QuerySelector.queries (dataloader self) !! i = Some mask ∧
                    shape mask = shape q) as Hmasks.
  { intros i q Hq.
    destruct (Forall2_lookup_r _ _ _ _ _ Hall Hq) as ([j d] & Hd & Hm & _).
    apply list_lookup_imap_Some in Hd as (d' & _ & [= -> ->]). exact Hm. }
  split_and!; [|done| | |done|done].
  - apply Hmc. destruct (batches (dataloader self)); done.
  - apply Forall2_length in Hall as Hlen. rewrite length_imap in Hlen.
    destruct (batches (dataloader self)) as [|d0 bs] eqn:Hb using rev_ind; [done|].
    clear IHbs.
    destruct (lookup_lt_is_Some_2 queries (length bs)) as [q Hq].
    { rewrite <- Hlen, length_app. simpl. lia. }
    destruct (Hmasks _ _ Hq) as (mask & Hmask & _).
    apply lookup_lt_Some in Hmask. rewrite length_app. simpl. lia.
  - apply Forall2_same_length_lookup. split.
    + apply Forall2_length in Hall. by rewrite length_imap in Hall.
    + intros i d q Hd Hq.
      assert (imap pair (batches (dataloader self)) !! i = Some (i, d)) as Hi.
      { apply list_lookup_imap_Some. eauto. }
      by destruct (Forall2_lookup_lr _ _ _ _ _ _ Hall Hi Hq) as (_ & ? & ? & ?).
Qed.

(** X17. What a round that returns has written: one snapshot of the
    statistics, taken after the last update and filed under [nth_query]; one
    call of [label_queries], with the returned masks and [nth_query + 1];
    and, in the statistics, [n_pixels_by_us] more counted labels and
    entropies per image, one more count of distinct labels and one more
    spatial coverage per image. *)
Theorem round_writes_statistics self nth_query s queries s' :
  __call__ T B self nth_query s = (Ok queries, s') →
  pickled s' = pickled s ++ [(nth_query, QueryStats.save (query_stats s'))] ∧
  label_queries s' = label_queries s ++ [(queries, (nth_query + 1)%Z)] ∧
  QueryStats.label_total (query_stats s')
  = QueryStats.label_total (query_stats s)
    + n_pixels_by_us self * length (batches (dataloader self)) ∧
  length (QueryStats.list_entropy (query_stats s'))
  = length (QueryStats.list_entropy (query_stats s))
    + n_pixels_by_us self * length (batches (dataloader self)) ∧
  length (QueryStats.list_n_unique_labels (query_stats s'))
  = length (QueryStats.list_n_unique_labels (query_stats s))
    + length (batches (dataloader self)) ∧
  length (QueryStats.list_spatial_coverage (query_stats s'))
  = length (QueryStats.list_spatial_coverage (query_stats s))
    + length (batches (dataloader self)).
Proof.
  intros H.
  apply round_Ok_inv in H as (n & s1 & Hloop & _ & _ & _ & Hstats & Hpickled & Hlabel).
  pose proof (pool_loop_keeps _ _ _ _ _ _ _ Hloop) as [Hp Hl].
  apply pool_loop_effects in Hloop as (new & _ & _ & Ht & He & Hn & Hc).
  rewrite length_imap in Ht, He, Hn, Hc.
  rewrite Hpickled, Hlabel, Hstats, Hp, Hl. done.
Qed.

(** X18. A round that raises never calls [label_queries], and changes the
    statistics files by at most the snapshot of this round.  Over an empty
    pool the round raises the assertion error, after it has written the
    snapshot of the untouched statistics. *)
Theorem failed_round_labels_nothing self nth_query s e s' :
  __call__ T B self nth_query s = (Raise e, s') →
  label_queries s' = label_queries s ∧
  (pickled s' = pickled s ∨
   pickled s' = pickled s ++ [(nth_query, QueryStats.save (query_stats s'))]) ∧
  (batches (dataloader self) = [] →
   e = AssertionError "no queries are chosen!" ∧
   query_stats s' = query_stats s ∧
   pickled s' = pickled s ++ [(nth_query, QueryStats.save (query_stats s))]).
Proof.
  intros H. unfold __call__ in H. unfold bind at 1 in H.
  destruct (pool_loop T B self (imap pair (batches (dataloader self))) [] 0 s)
    as [[[lq n]|e'] s1] eqn:Hloop.
  - pose proof (pool_loop_keeps _ _ _ _ _ _ _ Hloop) as [Hp Hl].
    unfold bind, with_query_stats, zoom, get, ret, modify, py_assert, lift, raise in H.
    simpl in H.
    destruct lq as [|q lq]; cbn -[np_stack] in H.
    + injection H as <- <-. simpl. split_and!; [done|right; by rewrite Hp|].
      intros Hnil. rewrite Hnil in Hloop. simpl in Hloop. by injection Hloop as <- <-.
    + assert (batches (dataloader self) ≠ []) as Hne.
      { intros Hnil. rewrite Hnil in Hloop. by injection Hloop. }
      destruct (negb (String.eqb (dataset_name self) "voc")); [|discriminate].
      destruct (np_stack (q :: lq)) as [stacked|e1]; [discriminate|].
      injection H as <- <-. simpl. split_and!; [done|right; by rewrite Hp|done].
  - injection H as <- <-.
    pose proof (pool_loop_keeps _ _ _ _ _ _ _ Hloop) as [Hp Hl].
    split_and!; [done|by left|].
    intros Hnil. rewrite Hnil in Hloop. discriminate.
Qed.

(** X19. With the VOC padding and a stride of 0, a round over a pool whose
    first image has a mask raises [ZeroDivisionError] at the first image,
    before the network is run; the state is untouched. *)
Theorem voc_zero_stride_raises self nth_query s :
  dataset_name self = "voc"%string →
  stride_total self = 0 →
  batches (dataloader self) ≠ [] →
  is_Some (QuerySelector.queries (dataloader self) !! 0) →
  __call__ T B self nth_query s = (Raise ZeroDivisionError, s).
Proof.
  intros Hvoc Hstride Hne [mask Hmask]. unfold __call__.
  destruct (batches (dataloader self)) as [|d rest]; [done|].
  apply bind_Raise. cbn [imap pool_loop].
  rewrite Hmask. rewrite (bind_Ok _ _ _ mask s) by done.
  destruct (x_shape model (x d)) as [h w].
  apply bind_Raise. by rewrite Hvoc, Hstride.
Qed.

End RoundEffects.

Lemma round_returns_one_mask_per_image_witness :
  QuerySelector.use_mc_dropout two_image_pool = false ∧
  QuerySelector.batches (QuerySelector.dataloader two_image_pool) ≠ [] ∧
  length (QuerySelector.batches (QuerySelector.dataloader two_image_pool))
  ≤ length (QuerySelector.queries (QuerySelector.dataloader two_image_pool)) ∧
  Forall2 (λ d q, shape q = shape (QuerySelector.y d) ∧ well_shaped q ∧
                  count_true (flat q) = QuerySelector.n_pixels_by_us two_image_pool)
          (QuerySelector.batches (QuerySelector.dataloader two_image_pool))
          [NdArray (1, 2) [false; true]; NdArray (1, 2) [false; true]] ∧
  (∀ i q, [NdArray (1, 2) [false; true]; NdArray (1, 2) [false; true]] !! i = Some q →
          ∃ mask, QuerySelector.queries (QuerySelector.dataloader two_image_pool) !! i
                  = Some mask ∧ shape mask = shape q) ∧
  (QuerySelector.dataset_name two_image_pool ≠ "voc"%string →
   ∀ a b, a ∈ [NdArray (1, 2) [false; true]; NdArray (1, 2) [false; true]] →
          b ∈ [NdArray (1, 2) [false; true]; NdArray (1, 2) [false; true]] →
          shape a = shape b).
Proof.
  apply (round_returns_one_mask_per_image toy_torch toy_builtins two_image_pool 0
           (fresh_world 3) [NdArray (1, 2) [false; true]; NdArray (1, 2) [false; true]]
           (QuerySelector.__call__ toy_torch toy_builtins two_image_pool 0
              (fresh_world 3)).2).
  apply run_eq. vm_compute. reflexivity.
Defined.

Lemma round_writes_statistics_witness :
  QuerySelector.pickled
    (QuerySelector.__call__ toy_torch toy_builtins two_image_pool 0 (fresh_world 3)).2
  = QuerySelector.pickled (fresh_world 3)
    ++ [(0%Z, QueryStats.save
                (QuerySelector.query_stats
                   (QuerySelector.__call__ toy_torch toy_builtins two_image_pool 0
                      (fresh_world 3)).2))] ∧
  QuerySelector.label_queries
    (QuerySelector.__call__ toy_torch toy_builtins two_image_pool 0 (fresh_world 3)).2
  = QuerySelector.label_queries (fresh_world 3)
    ++ [([NdArray (1, 2) [false; true]; NdArray (1, 2) [false; true]], (0 + 1)%Z)] ∧
  QueryStats.label_total
    (QuerySelector.query_stats
       (QuerySelector.__call__ toy_torch toy_builtins two_image_pool 0 (fresh_world 3)).2)
  = QueryStats.label_total (QuerySelector.query_stats (fresh_world 3))
    + QuerySelector.n_pixels_by_us two_image_pool
      * length (QuerySelector.batches (QuerySelector.dataloader two_image_pool)) ∧
  length (QueryStats.list_entropy
    (QuerySelector.query_stats
       (QuerySelector.__call__ toy_torch toy_builtins two_image_pool 0 (fresh_world 3)).2))
  = length (QueryStats.list_entropy (QuerySelector.query_stats (fresh_world 3)))
    + QuerySelector.n_pixels_by_us two_image_pool
      * length (QuerySelector.batches (QuerySelector.dataloader two_image_pool)) ∧
  length (QueryStats.list_n_unique_labels
    (QuerySelector.query_stats
       (QuerySelector.__call__ toy_torch toy_builtins two_image_pool 0 (fresh_world 3)).2))
  = length (QueryStats.list_n_unique_labels (QuerySelector.query_stats (fresh_world 3)))
    + length (QuerySelector.batches (QuerySelector.dataloader two_image_pool)) ∧
  length (QueryStats.list_spatial_coverage
    (QuerySelector.query_stats
       (QuerySelector.__call__ toy_torch toy_builtins two_image_pool 0 (fresh_world 3)).2))
  = length (QueryStats.list_spatial_coverage (QuerySelector.query_stats (fresh_world 3)))
    + length (QuerySelector.batches (QuerySelector.dataloader two_image_pool)).
Proof.
  apply (round_writes_statistics toy_torch toy_builtins two_image_pool 0 (fresh_world 3)
           [NdArray (1, 2) [false; true]; NdArray (1, 2) [false; true]]).
  apply run_eq. vm_compute. reflexivity.
Defined.

Lemma failed_round_labels_nothing_witness :
  QuerySelector.label_queries
    (QuerySelector.__call__ toy_torch toy_builtins
       (toy_selector "least_confidence" 1 0 false false [] []) 0 (fresh_world 3)).2
  = QuerySelector.label_queries (fresh_world 3) ∧
  (QuerySelector.pickled
     (QuerySelector.__call__ toy_torch toy_builtins
        (toy_selector "least_confidence" 1 0 false false [] []) 0 (fresh_world 3)).2
   = QuerySelector.pickled (fresh_world 3) ∨
   QuerySelector.pickled
     (QuerySelector.__call__ toy_torch toy_builtins
        (toy_selector "least_confidence" 1 0 false false [] []) 0 (fresh_world 3)).2
   = QuerySelector.pickled (fresh_world 3)
     ++ [(0%Z, QueryStats.save
                 (QuerySelector.query_stats
                    (QuerySelector.__call__ toy_torch toy_builtins
                       (toy_selector "least_confidence" 1 0 false false [] []) 0
                       (fresh_world 3)).2))]) ∧
  (QuerySelector.batches
     (QuerySelector.dataloader (toy_selector "least_confidence" 1 0 false false [] [])) = [] →
   AssertionError "no queries are chosen!" = AssertionError "no queries are chosen!" ∧
   QuerySelector.query_stats
     (QuerySelector.__call__ toy_torch toy_builtins
        (toy_selector "least_confidence" 1 0 false false [] []) 0 (fresh_world 3)).2
   = QuerySelector.query_stats (fresh_world 3) ∧
   QuerySelector.pickled
     (QuerySelector.__call__ toy_torch toy_builtins
        (toy_selector "least_confidence" 1 0 false false [] []) 0 (fresh_world 3)).2
   = QuerySelector.pickled (fresh_world 3)
     ++ [(0%Z, QueryStats.save (QuerySelector.query_stats (fresh_world 3)))]).
Proof.
  apply (failed_round_labels_nothing toy_torch toy_builtins
           (toy_selector "least_confidence" 1 0 false false [] []) 0 (fresh_world 3)).
  apply run_eq. vm_compute. reflexivity.
Defined.

Lemma voc_zero_stride_raises_witness :
  QuerySelector.__call__ toy_torch toy_builtins voc_pool 0 (fresh_world 3)
  = (Raise ZeroDivisionError, fresh_world 3).
Proof.
  apply (voc_zero_stride_raises toy_torch toy_builtins voc_pool 0 (fresh_world 3)).
  - reflexivity.
  - reflexivity.
  - discriminate.
  - by exists (NdArray (1, 1) [false]).
Defined.

(** ** Padding for VOC *)

(** X20. The padding of lines 84-85: for a positive stride, the padded
    size is the least multiple of the stride that is not below the size, so
    the padding is smaller than the stride and is 0 exactly when the stride
    divides the size. *)
Theorem voc_padding_least_multiple (h stride : nat) :
  0 < stride →
  let pad := ceil_div h stride * stride - h in
  (h + pad) mod stride = 0 ∧ pad < stride ∧
  (pad = 0 ↔ h mod stride = 0) ∧
  ∀ m, h ≤ m → m mod stride = 0 → h + pad ≤ m.
Proof.
  intros Hpos pad.
  assert (h ≤ ceil_div h stride * stride ∧ ceil_div h stride * stride < h + stride)
    as [Hle Hlt].
  { unfold ceil_div.
    pose proof (Nat.div_mod_eq (h + stride - 1) stride) as Hdm.
    pose proof (Nat.mod_upper_bound (h + stride - 1) stride) as Hub. nia. }
  assert (h + pad = ceil_div h stride * stride) as Hsum by (unfold pad; lia).
  split_and!.
  - rewrite Hsum. apply Nat.Div0.mod_mul.
  - unfold pad. lia.
  - split.
    + intros Hz. rewrite Hz, Nat.add_0_r in Hsum. rewrite Hsum.
      apply Nat.Div0.mod_mul.
    + intros Hmod.
      pose proof (Nat.div_mod_eq h stride) as Hdm. rewrite Hmod in Hdm.
      assert (ceil_div h stride = h / stride) as Heq; [|unfold pad; rewrite Heq; lia].
      unfold ceil_div.
      symmetry. apply (Nat.div_unique _ _ _ (stride - 1)); lia.
  - intros m Hm Hmod. rewrite Hsum.
    pose proof (Nat.div_mod_eq m stride) as Hdm. rewrite Hmod in Hdm.
    assert (ceil_div h stride ≤ m / stride); [|nia].
    destruct (decide (ceil_div h stride ≤ m / stride)) as [|Hgt]; [done|exfalso].
    assert (m / stride + 1 ≤ ceil_div h stride) as Hstep by lia.
    nia.
Qed.

Lemma voc_padding_least_multiple_witness :
  let pad := ceil_div 500 16 * 16 - 500 in
  (500 + pad) mod 16 = 0 ∧ pad < 16 ∧
  (pad = 0 ↔ 500 mod 16 = 0) ∧
  ∀ m, 500 ≤ m → m mod 16 = 0 → 500 + pad ≤ m.
Proof. apply (voc_padding_least_multiple 500 16). lia. Defined.
